(** * GenTen: distributed GCP stochastic optimisation

    A shallow embedding of the parts of GenTen that drive the distributed
    generalized CP decomposition: the medium-grain blocking of a mode, the
    [AlgParams::fixup] decision table, the semi-stratified sampler's
    defaults, the fused gradient kernel, the Ktensor initialisation and the
    two distributed training loops of [DistGCP]; and, around them, the
    parsing of enumerated options, the lookup of a subscript in a sparse
    tensor, the search for the processor grid, the distribution of the
    nonzeros over the grid, the team kernels that evaluate a Ktensor, the
    Ktensor as a flat vector, the uniform sampler and the parameters of a
    distributed run.

    Conventions.
    - C++ [int] is a [Z] kept in the 32-bit two's complement range by
      [int_wrap]; [ttb_indx] is a [Z] taken modulo [2^64].
    - [ttb_real] / [ElementType] is a type with the operations of the class
      [Real]; [binary64] instantiates it with IEEE-754 doubles
      ([SpecFloat]), [Qc] with exact rationals.
    - arrays indexed by position are lists read with stdpp's [!!]; a read
      out of bounds is an explicit failure of the embedded function. *)

From Stdlib Require Import ZArith List Bool Lia Ascii String.
From Stdlib Require Import QArith Qcanon.
From Stdlib Require Import Floats.SpecFloat.
From stdpp Require Import base tactics option list sorting.

Local Open Scope Z_scope.

(** ** Machine integers *)

Definition INT_MAX : Z := 2 ^ 31 - 1.
Definition INT_MIN : Z := - 2 ^ 31.

(** Two's complement reduction of a mathematical integer to [int]. *)
Definition int_wrap (x : Z) : Z := (x + 2 ^ 31) mod 2 ^ 32 - 2 ^ 31.

Definition int_add (a b : Z) : Z := int_wrap (a + b).
Definition int_sub (a b : Z) : Z := int_wrap (a - b).

(** [ttb_indx] is an unsigned 64-bit index. *)
Definition indx_wrap (x : Z) : Z := x mod 2 ^ 64.
Definition indx_add (a b : Z) : Z := indx_wrap (a + b).
Definition indx_sub (a b : Z) : Z := indx_wrap (a - b).
Definition indx_mul (a b : Z) : Z := indx_wrap (a * b).

Lemma int_wrap_small x : INT_MIN <= x <= INT_MAX -> int_wrap x = x.
Proof.
  unfold int_wrap, INT_MIN, INT_MAX. intros H.
  rewrite Z.mod_small; lia.
Qed.

Lemma indx_wrap_small x : 0 <= x < 2 ^ 64 -> indx_wrap x = x.
Proof. unfold indx_wrap. intros H. apply Z.mod_small; lia. Qed.

(** ** Medium-grain blocking of one mode (Genten_TensorBlockSystem.cpp) *)

Module TensorBlockSystem.

(** What a call can do: return the vector, trip one of the two sanity
    [assert]s, divide by zero, or keep looping (the fuel ran out). *)
Inductive outcome : Type :=
| Returned (Range : list Z)
| AssertionFailed
| DivisionByZero
| OutOfFuel.

(** [Range.back()]; [Range] is never empty. *)
Definition back (Range : list Z) : Z := List.last Range 0.

(** The [while (Range.back() < ModeLength)] loop. *)
Fixpoint blocking_loop (fuel : nat) (ModeLength FibersPerBlock Remainder : Z)
    (Range : list Z) : option (list Z) :=
  match fuel with
  | O => None
  | S fuel' =>
      if back Range <? ModeLength then
        if 0 <? Remainder then
          blocking_loop fuel' ModeLength FibersPerBlock (int_sub Remainder 1)
            (Range ++ [int_add (int_add (back Range) FibersPerBlock) 1])
        else
          blocking_loop fuel' ModeLength FibersPerBlock Remainder
            (Range ++ [int_add (back Range) FibersPerBlock])
      else Some Range
  end.

Definition singleDimMediumGrainBlocking (fuel : nat)
    (ModeLength ProcsInMode : Z) : outcome :=
  if ProcsInMode =? 0 then DivisionByZero else
  let Range := [0] in
  let FibersPerBlock := Z.quot ModeLength ProcsInMode in
  let Remainder := Z.rem ModeLength ProcsInMode in
  let Range := if FibersPerBlock =? 0 then Range ++ [ModeLength] else Range in
  match blocking_loop fuel ModeLength FibersPerBlock Remainder Range with
  | None => OutOfFuel
  | Some Range =>
      if negb (Z.of_nat (length Range) =? ProcsInMode + 1) then AssertionFailed
      else if negb (back Range =? ModeLength) then AssertionFailed
      else Returned Range
  end.

(** [generateMediumGrainBlocking]: one blocking per mode. *)
Fixpoint generateMediumGrainBlocking (fuel : nat)
    (ModeLengths ProcGridSizes : list Z) : list outcome :=
  match ModeLengths, ProcGridSizes with
  | m :: ms, p :: ps =>
      singleDimMediumGrainBlocking fuel m p
        :: generateMediumGrainBlocking fuel ms ps
  | _, _ => []
  end.

(** The boundary of block [k] in closed form: the first [M mod P] blocks
    take one extra fiber. *)
Definition boundary (M P : Z) (k : nat) : Z :=
  Z.of_nat k * (M / P) + Z.min (Z.of_nat k) (M mod P).

Definition boundaries (M P : Z) (k : nat) : list Z :=
  map (boundary M P) (seq 0 (S k)).

Example blocking_10_3 :
  singleDimMediumGrainBlocking 10 10 3 = Returned [0; 4; 7; 10].
Proof. reflexivity. Qed.

Example blocking_5_5 :
  singleDimMediumGrainBlocking 10 5 5 = Returned [0; 1; 2; 3; 4; 5].
Proof. reflexivity. Qed.

(** More processes than fibers: everything lands in one block and the
    size assertion fails. *)
Example blocking_2_3 :
  singleDimMediumGrainBlocking 10 2 3 = AssertionFailed.
Proof. reflexivity. Qed.

Lemma back_boundaries M P k : back (boundaries M P k) = boundary M P k.
Proof.
  unfold back, boundaries. rewrite seq_S, map_app. simpl.
  apply last_last.
Qed.

Lemma boundaries_S M P k :
  boundaries M P (S k) = boundaries M P k ++ [boundary M P (S k)].
Proof.
  unfold boundaries. rewrite (seq_S (S k)), map_app. reflexivity.
Qed.

Lemma boundary_lt M P k :
  1 <= P <= M -> (Z.of_nat k < P) -> boundary M P k < M.
Proof.
  intros HP Hk. unfold boundary.
  pose proof (Z.div_mod M P ltac:(lia)) as Hdm.
  pose proof (Z.mod_pos_bound M P ltac:(lia)) as Hr.
  assert (1 <= M / P) by (apply Z.div_le_lower_bound; lia).
  nia.
Qed.

Lemma boundary_last M P :
  1 <= P <= M -> boundary M P (Z.to_nat P) = M.
Proof.
  intros HP. unfold boundary. rewrite Z2Nat.id by lia.
  pose proof (Z.div_mod M P ltac:(lia)) as Hdm.
  pose proof (Z.mod_pos_bound M P ltac:(lia)) as Hr.
  lia.
Qed.

Lemma boundary_step M P k :
  1 <= P <= M ->
  boundary M P (S k) - boundary M P k
  = if Z.of_nat k <? M mod P then M / P + 1 else M / P.
Proof.
  intros HP. unfold boundary.
  destruct (Z.ltb_spec (Z.of_nat k) (M mod P)); nia.
Qed.

Lemma boundary_nonneg M P k : 1 <= P <= M -> 0 <= boundary M P k.
Proof.
  intros HP. unfold boundary.
  pose proof (Z.mod_pos_bound M P ltac:(lia)).
  assert (0 <= M / P) by (apply Z.div_pos; lia).
  nia.
Qed.

Lemma boundary_mono M P k :
  1 <= P <= M -> boundary M P k < boundary M P (S k).
Proof.
  intros HP. pose proof (boundary_step M P k HP) as Hs.
  assert (1 <= M / P) by (apply Z.div_le_lower_bound; lia).
  destruct (Z.of_nat k <? M mod P); lia.
Qed.

Lemma boundary_le_last M P k :
  1 <= P <= M -> Z.of_nat k <= P -> boundary M P k <= M.
Proof.
  intros HP Hk. destruct (Z.eq_dec (Z.of_nat k) P) as [Heq|Hne].
  - assert (k = Z.to_nat P) as -> by lia. rewrite boundary_last; lia.
  - pose proof (boundary_lt M P k HP ltac:(lia)). lia.
Qed.

(** Loop invariant: after [k] pushes the vector holds the first [k+1]
    boundaries and [Remainder] counts the oversized blocks still due. *)
Lemma blocking_loop_inv M P (n : nat) :
  1 <= P <= M -> M <= INT_MAX ->
  forall (k fuel : nat),
    Z.of_nat k + Z.of_nat n = P ->
    (n < fuel)%nat ->
    blocking_loop fuel M (M / P) (Z.max 0 (M mod P - Z.of_nat k))
      (boundaries M P k)
    = Some (boundaries M P (Z.to_nat P)).
Proof.
  intros HP HM. induction n as [|n IH]; intros k fuel Hk Hfuel.
  - destruct fuel as [|fuel]; [lia|]. cbn [blocking_loop].
    rewrite back_boundaries.
    assert (k = Z.to_nat P) as -> by lia.
    rewrite boundary_last by lia. rewrite Z.ltb_irrefl. reflexivity.
  - destruct fuel as [|fuel]; [lia|]. cbn [blocking_loop].
    rewrite back_boundaries.
    pose proof (boundary_lt M P k HP ltac:(lia)) as Hlt.
    pose proof (boundary_nonneg M P k HP) as Hge.
    pose proof (boundary_step M P k HP) as Hstep.
    pose proof (boundary_le_last M P (S k) HP ltac:(lia)) as Hle.
    pose proof (Z.mod_pos_bound M P ltac:(lia)) as Hr.
    assert (0 <= M / P) by (apply Z.div_pos; lia).
    unfold INT_MAX in HM.
    destruct (Z.ltb_spec (boundary M P k) M) as [_|?]; [|lia].
    destruct (Z.ltb_spec 0 (Z.max 0 (M mod P - Z.of_nat k))) as [Hrem|Hrem].
    + destruct (Z.ltb_spec (Z.of_nat k) (M mod P)) as [Hkr|?]; [|lia].
      unfold int_add, int_sub.
      rewrite (int_wrap_small (boundary M P k + M / P))
        by (unfold INT_MIN, INT_MAX; lia).
      rewrite (int_wrap_small (boundary M P k + M / P + 1))
        by (unfold INT_MIN, INT_MAX; lia).
      rewrite (int_wrap_small (Z.max 0 (M mod P - Z.of_nat k) - 1))
        by (unfold INT_MIN, INT_MAX; lia).
      replace (boundary M P k + M / P + 1) with (boundary M P (S k)) by lia.
      replace (Z.max 0 (M mod P - Z.of_nat k) - 1)
        with (Z.max 0 (M mod P - Z.of_nat (S k))) by lia.
      rewrite <- boundaries_S. apply IH; lia.
    + destruct (Z.ltb_spec (Z.of_nat k) (M mod P)) as [?|Hkr]; [lia|].
      unfold int_add.
      rewrite (int_wrap_small (boundary M P k + M / P))
        by (unfold INT_MIN, INT_MAX; lia).
      replace (boundary M P k + M / P) with (boundary M P (S k)) by lia.
      replace (Z.max 0 (M mod P - Z.of_nat k))
        with (Z.max 0 (M mod P - Z.of_nat (S k))) by lia.
      rewrite <- boundaries_S. apply IH; lia.
Qed.

Lemma boundaries_length M P k : length (boundaries M P k) = S k.
Proof. unfold boundaries. rewrite length_map, length_seq. reflexivity. Qed.

Lemma boundaries_lookup M P k i :
  (i <= k)%nat -> boundaries M P k !! i = Some (boundary M P i).
Proof.
  intros Hi. unfold boundaries. rewrite list_lookup_fmap.
  rewrite lookup_seq_lt by lia. reflexivity.
Qed.

(** The blocking of a mode is the list of closed-form boundaries. *)
Lemma singleDimMediumGrainBlocking_closed_form M P fuel :
  1 <= P <= M -> M <= INT_MAX -> (Z.to_nat P < fuel)%nat ->
  singleDimMediumGrainBlocking fuel M P
  = Returned (boundaries M P (Z.to_nat P)).
Proof.
  intros HP HM Hfuel. unfold singleDimMediumGrainBlocking.
  destruct (Z.eqb_spec P 0) as [?|_]; [lia|].
  rewrite Z.quot_div_nonneg, Z.rem_mod_nonneg by lia.
  assert (1 <= M / P) by (apply Z.div_le_lower_bound; lia).
  destruct (Z.eqb_spec (M / P) 0) as [?|_]; [lia|].
  pose proof (blocking_loop_inv M P (Z.to_nat P) HP HM 0%nat fuel) as Hinv.
  simpl in Hinv. rewrite Z.sub_0_r in Hinv.
  pose proof (Z.mod_pos_bound M P ltac:(lia)) as Hr.
  rewrite Z.max_r in Hinv by lia.
  replace (boundaries M P 0) with [0] in Hinv
    by (unfold boundaries, boundary; simpl; f_equal; lia).
  rewrite Hinv by lia.
  rewrite boundaries_length, back_boundaries, boundary_last by lia.
  destruct (Z.eqb_spec (Z.of_nat (S (Z.to_nat P))) (P + 1)) as [_|?]; [|lia].
  rewrite Z.eqb_refl. reflexivity.
Qed.

(** C10. For [1 <= ProcsInMode <= ModeLength] (an [int]) the call returns:
    the vector has [ProcsInMode + 1] entries, starts at 0, ends at
    [ModeLength], is strictly increasing, and consecutive entries differ by
    [ModeLength / ProcsInMode] or by one more. *)
Theorem singleDimMediumGrainBlocking_partition (M P : Z) (fuel : nat) :
  1 <= P <= M -> M <= INT_MAX -> (Z.to_nat P < fuel)%nat ->
  exists Range,
    singleDimMediumGrainBlocking fuel M P = Returned Range /\
    Z.of_nat (length Range) = P + 1 /\
    Range !! 0%nat = Some 0 /\
    back Range = M /\
    forall (i : nat) (a b : Z),
      Range !! i = Some a -> Range !! S i = Some b ->
      a < b /\ (b - a = M / P \/ b - a = M / P + 1).
Proof.
  intros HP HM Hfuel. exists (boundaries M P (Z.to_nat P)).
  split; [by apply singleDimMediumGrainBlocking_closed_form|].
  split; [rewrite boundaries_length; lia|].
  split.
  { rewrite boundaries_lookup by lia. unfold boundary. simpl.
    pose proof (Z.mod_pos_bound M P ltac:(lia)). f_equal. lia. }
  split; [rewrite back_boundaries; by apply boundary_last|].
  intros i a b Ha Hb.
  assert (S i <= Z.to_nat P)%nat as Hi.
  { apply lookup_lt_Some in Hb. rewrite boundaries_length in Hb. lia. }
  rewrite boundaries_lookup in Ha, Hb by lia.
  injection Ha as <-. injection Hb as <-.
  pose proof (boundary_step M P i HP) as Hs.
  pose proof (boundary_mono M P i HP).
  destruct (Z.of_nat i <? M mod P); lia.
Qed.

(** The theorem at the blocking of ten fibers over three processes. *)
Lemma singleDimMediumGrainBlocking_partition_witness :
  exists Range,
    singleDimMediumGrainBlocking 4 10 3 = Returned Range /\
    Z.of_nat (length Range) = 3 + 1 /\
    Range !! 0%nat = Some 0 /\
    back Range = 10 /\
    forall (i : nat) (a b : Z),
      Range !! i = Some a -> Range !! S i = Some b ->
      a < b /\ (b - a = 10 / 3 \/ b - a = 10 / 3 + 1).
Proof.
  apply (singleDimMediumGrainBlocking_partition 10 3 4);
    unfold INT_MAX; simpl; lia.
Defined.

(** *** More processes than fibers *)

(** With fewer fibers than processes (and at least two processes) all
    fibers land in one block: the vector is [[0; ModeLength]] and the
    size assertion fails. *)
Theorem singleDimMediumGrainBlocking_too_many_procs (M P : Z) (fuel : nat) :
  0 <= M < P -> 2 <= P -> (0 < fuel)%nat ->
  singleDimMediumGrainBlocking fuel M P = AssertionFailed.
Proof.
  intros HM HP Hfuel. unfold singleDimMediumGrainBlocking.
  destruct (Z.eqb_spec P 0) as [?|_]; [lia|].
  rewrite Z.quot_small by lia. cbn [Z.eqb app].
  destruct fuel as [|fuel]; [lia|]. cbn [blocking_loop back List.last].
  rewrite Z.ltb_irrefl. cbn [length negb].
  destruct (Z.eqb_spec (Z.of_nat 2) (P + 1)) as [?|_]; [lia|]. reflexivity.
Qed.

Lemma singleDimMediumGrainBlocking_too_many_procs_witness :
  singleDimMediumGrainBlocking 1 2 3 = AssertionFailed.
Proof.
  apply (singleDimMediumGrainBlocking_too_many_procs 2 3 1); lia.
Defined.

(** *** The block of an element ([blockInThatDim]) *)

(** What a call can do: return the block, trip an [assert], read past
    the end of [range], or keep looping (the fuel ran out). *)
Inductive block_outcome : Type :=
| Block (block_guess : nat)
| BlockAssertionFailed
| BlockOutOfRange
| BlockOutOfFuel.

(** [while (element >= range[block_guess + 1]) ++block_guess;]  The guess
    counts up from 0 below the size of [range]; it is a natural here. *)
Fixpoint blockInThatDim_loop (fuel : nat) (element : Z) (range : list Z)
    (block_guess : nat) : block_outcome :=
  match fuel with
  | O => BlockOutOfFuel
  | S fuel =>
      match range !! (block_guess + 1)%nat with
      | None => BlockOutOfRange
      | Some r =>
          if r <=? element
          then blockInThatDim_loop fuel element range (S block_guess)
          else Block block_guess
      end
  end.

Definition blockInThatDim (fuel : nat) (element : Z) (range : list Z)
    : block_outcome :=
  if negb (element <? back range) then BlockAssertionFailed
  else if negb (2 <=? length range)%nat then BlockAssertionFailed
  else blockInThatDim_loop fuel element range 0.

Example block_of_5_in_10_3 : blockInThatDim 4 5 [0; 4; 7; 10] = Block 1.
Proof. reflexivity. Qed.

Example block_of_10_in_10_3 :
  blockInThatDim 4 10 [0; 4; 7; 10] = BlockAssertionFailed.
Proof. reflexivity. Qed.

Lemma back_lookup (range : list Z) :
  range <> [] -> range !! (length range - 1)%nat = Some (back range).
Proof.
  intros Hne. unfold back.
  destruct (exists_last Hne) as (pre & x & ->).
  rewrite last_last, length_app. cbn [length].
  replace (length pre + 1 - 1)%nat with (length pre + 0)%nat by lia.
  by rewrite lookup_app_r, Nat.add_0_r, Nat.sub_diag by lia.
Qed.

(** The loop stops at the first boundary above the element, which exists
    since the last one is above it. *)
Lemma blockInThatDim_loop_spec (element : Z) (range : list Z) :
  element < back range ->
  forall n fuel g,
    (g + n + 1 = length range)%nat -> (1 <= n <= fuel)%nat ->
    exists b hi,
      blockInThatDim_loop fuel element range g = Block b /\
      (g <= b)%nat /\ range !! S b = Some hi /\ element < hi /\
      forall j r, (g < j <= b)%nat -> range !! j = Some r -> r <= element.
Proof.
  intros Hback. induction n as [|n IH]; intros fuel g Hlen Hn; [lia|].
  destruct fuel as [|fuel]; [lia|]. cbn [blockInThatDim_loop].
  destruct (lookup_lt_is_Some_2 range (g + 1)) as [r Hr]; [lia|].
  rewrite Hr. destruct (Z.leb_spec r element) as [Hle|Hgt].
  - assert (n <> 0)%nat as Hn0.
    { intros ->. replace (g + 1)%nat with (length range - 1)%nat in Hr by lia.
      rewrite back_lookup in Hr.
      - injection Hr as <-. lia.
      - intros ->. cbn in Hlen. lia. }
    destruct (IH fuel (S g)) as (b & hi & Hloop & Hb & Hhi & Hlt & Hbelow);
      [lia|lia|].
    exists b, hi. split; [done|]. split; [lia|]. split; [done|].
    split; [done|]. intros j r' Hj Hr'.
    destruct (decide (j = g + 1)%nat) as [->|Hne].
    + rewrite Hr in Hr'. injection Hr' as <-. lia.
    + apply (Hbelow j); [lia|done].
  - exists g, r. split; [done|]. split; [lia|].
    split; [by rewrite <- Nat.add_1_r|]. split; [lia|]. intros; lia.
Qed.

Lemma boundary_mono_le M P (i j : nat) :
  1 <= P <= M -> (i <= j)%nat -> boundary M P i <= boundary M P j.
Proof.
  intros HP Hij. induction Hij as [|j Hij IH]; [lia|].
  pose proof (boundary_mono M P j HP). lia.
Qed.

Lemma boundary_0 M P : 1 <= P <= M -> boundary M P 0 = 0.
Proof.
  intros HP. unfold boundary. pose proof (Z.mod_pos_bound M P ltac:(lia)).
  cbn. lia.
Qed.

(** On the boundaries of a mode the loop stops at the block that holds
    the element. *)
Lemma blockInThatDim_boundaries (M P element : Z) (fuel : nat) :
  1 <= P <= M -> 0 <= element < M -> (Z.to_nat P <= fuel)%nat ->
  exists b,
    blockInThatDim fuel element (boundaries M P (Z.to_nat P)) = Block b /\
    Z.of_nat b < P /\
    boundary M P b <= element < boundary M P (S b).
Proof.
  intros HP He Hfuel.
  set (Range := boundaries M P (Z.to_nat P)).
  assert (back Range = M) as Hback
    by (unfold Range; rewrite back_boundaries; by apply boundary_last).
  assert (length Range = S (Z.to_nat P)) as Hlen
    by apply boundaries_length.
  destruct (blockInThatDim_loop_spec element Range ltac:(lia)
              (Z.to_nat P) fuel 0%nat)
    as (b & hi & Hloop & _ & Hhi & Hlt & Hbelow); [lia|lia|].
  assert (S b <= Z.to_nat P)%nat as Hb
    by (apply lookup_lt_Some in Hhi; lia).
  assert (boundary M P b <= element) as Hlo.
  { destruct b as [|b]; [rewrite boundary_0; lia|].
    apply (Hbelow (S b)); [lia|]. unfold Range.
    rewrite boundaries_lookup by lia. done. }
  unfold Range in Hhi. rewrite boundaries_lookup in Hhi by lia.
  injection Hhi as <-.
  exists b. split; [|lia].
  unfold blockInThatDim. rewrite Hback, Hlen.
  destruct (Z.ltb_spec element M) as [_|?]; [|lia]. cbn [negb].
  destruct (Nat.leb_spec 2 (S (Z.to_nat P))) as [_|?]; [|lia]. done.
Qed.

(** On the blocking of a mode and an element of the mode,
    [blockInThatDim] returns the one block whose range holds the
    element. *)
Theorem blockInThatDim_of_blocking (M P element : Z) (fuel : nat) :
  1 <= P <= M -> M <= INT_MAX -> 0 <= element < M ->
  (Z.to_nat P < fuel)%nat ->
  exists Range b lo hi,
    singleDimMediumGrainBlocking fuel M P = Returned Range /\
    blockInThatDim fuel element Range = Block b /\
    Z.of_nat b < P /\
    Range !! b = Some lo /\ Range !! S b = Some hi /\
    lo <= element < hi /\
    forall b' lo' hi',
      Range !! b' = Some lo' -> Range !! S b' = Some hi' ->
      lo' <= element < hi' -> b' = b.
Proof.
  intros HP HM He Hfuel.
  destruct (blockInThatDim_boundaries M P element fuel HP He ltac:(lia))
    as (b & Hblock & Hb & Hin).
  exists (boundaries M P (Z.to_nat P)), b, (boundary M P b),
    (boundary M P (S b)).
  split; [by apply singleDimMediumGrainBlocking_closed_form|].
  split; [done|]. split; [done|].
  split; [by rewrite boundaries_lookup by lia|].
  split; [by rewrite boundaries_lookup by lia|].
  split; [done|].
  intros b' lo' hi' Hlo' Hhi' Hin'.
  assert (S b' <= Z.to_nat P)%nat as Hb'.
  { apply lookup_lt_Some in Hhi'. rewrite boundaries_length in Hhi'. lia. }
  rewrite boundaries_lookup in Hlo', Hhi' by lia.
  injection Hlo' as <-. injection Hhi' as <-.
  destruct (Nat.lt_trichotomy b' b) as [Hlt'|[->|Hgt']]; [|done|].
  - pose proof (boundary_mono_le M P (S b') b HP ltac:(lia)). lia.
  - pose proof (boundary_mono_le M P (S b) b' HP ltac:(lia)). lia.
Qed.

Lemma blockInThatDim_of_blocking_witness :
  exists Range b lo hi,
    singleDimMediumGrainBlocking 4 10 3 = Returned Range /\
    blockInThatDim 4 5 Range = Block b /\
    Z.of_nat b < 3 /\
    Range !! b = Some lo /\ Range !! S b = Some hi /\
    lo <= 5 < hi /\
    forall b' lo' hi',
      Range !! b' = Some lo' -> Range !! S b' = Some hi' ->
      lo' <= 5 < hi' -> b' = b.
Proof.
  apply (blockInThatDim_of_blocking 10 3 5 4); unfold INT_MAX; simpl; lia.
Defined.

(** *** Handing the nonzeros out ([distributeTensorToVectors]) *)

(** What a rank ends with: its vector; the [std::logic_error] rank 0
    throws (the other ranks then wait for a message that never comes); a
    blocking that did not return; or a byte count that does not fit the
    [int] count of [MPI_Isend] and [MPI_Recv]. *)
Inductive dist_outcome (T : Type) : Type :=
| Data (Tvec : list T)
| LogicError
| BlockingFailed (o : outcome)
| CountOverflow.
Arguments Data {T} Tvec.
Arguments LogicError {T}.
Arguments BlockingFailed {T} o.
Arguments CountOverflow {T}.

Section Distribute.
Context {T : Type}.

(** The nonzeros [import_sptensor] reads on rank 0, one [TDatatype] each,
    and the number of modes of the tensor read. *)
Variable sp_tensor_host : list T.
Variable ndims : Z.

(** [sizeof(detail::TDatatype)]. *)
Variable dt_size : Z.

(** [nbytes] of the message for rank [i], a [size_t], where it fits the
    [int] count of the MPI call. *)
Definition message_bytes (who_gets_what : list Z) (i : nat) : option Z :=
  let nelements :=
    int_sub (who_gets_what !!! i) (who_gets_what !!! (i - 1)%nat) in
  let nbytes := indx_mul (indx_wrap nelements) dt_size in
  if nbytes <=? INT_MAX then Some nbytes else None.

(** What [MPI_Isend] on rank 0 sends to rank [i] and [MPI_Recv] on rank
    [i] receives: [nelements] elements of [Tvec] from
    [index_of_first_element] on. *)
Definition message (who_gets_what : list Z) (Tvec : list T) (i : nat)
    : list T :=
  let nelements :=
    int_sub (who_gets_what !!! i) (who_gets_what !!! (i - 1)%nat) in
  let index_of_first_element := who_gets_what !!! (i - 1)%nat in
  take (Z.to_nat nelements) (drop (Z.to_nat index_of_first_element) Tvec).

(** The vector rank [rank] of [nprocs] returns.  The [uint64_t] count
    [nnz] is narrowed to the [int] parameter of the blocking. *)
Definition distributeTensorToVectors (fuel : nat) (nnz : Z)
    (rank : nat) (nprocs : Z) : dist_outcome T :=
  match singleDimMediumGrainBlocking fuel (int_wrap nnz) nprocs with
  | Returned who_gets_what =>
      if 12 <? ndims then LogicError
      else
        let Tvec := sp_tensor_host in
        if (rank =? 0)%nat then
          if forallb
               (fun i => bool_decide (is_Some (message_bytes who_gets_what i)))
               (seq 1 (Z.to_nat nprocs - 1))
          then Data (take (Z.to_nat (who_gets_what !!! 1%nat)) Tvec)
          else CountOverflow
        else
          match message_bytes who_gets_what rank with
          | Some _ => Data (message who_gets_what Tvec rank)
          | None => CountOverflow
          end
  | o => BlockingFailed o
  end.

Lemma boundaries_lookup_total M P k i :
  (i <= k)%nat -> boundaries M P k !!! i = boundary M P i.
Proof.
  intros Hi. apply list_lookup_total_correct. by apply boundaries_lookup.
Qed.

Lemma message_bytes_blocking M P (i : nat) :
  1 <= P <= M -> M <= INT_MAX -> 0 < dt_size -> M * dt_size <= INT_MAX ->
  (1 <= i)%nat -> Z.of_nat i <= P ->
  is_Some (message_bytes (boundaries M P (Z.to_nat P)) i).
Proof.
  intros HP HM Hdt Hbytes Hi1 HiP. unfold message_bytes.
  rewrite !boundaries_lookup_total by lia.
  pose proof (boundary_mono_le M P (i - 1) i HP ltac:(lia)) as Hmono.
  pose proof (boundary_nonneg M P (i - 1) HP) as Hnn.
  pose proof (boundary_le_last M P i HP HiP) as Hle.
  unfold INT_MAX in *.
  unfold int_sub. rewrite int_wrap_small by (unfold INT_MIN, INT_MAX; lia).
  rewrite indx_wrap_small by lia.
  unfold indx_mul. rewrite indx_wrap_small by nia.
  destruct (Z.leb_spec ((boundary M P i - boundary M P (i - 1)) * dt_size)
              (2 ^ 31 - 1)) as [_|?]; [done|nia].
Qed.

(** Rank [r] ends with the block before its own: ranks 0 and 1 both hold
    the first block, and the last block, which is not empty, reaches no
    rank. *)
Theorem distributeTensorToVectors_shifted (fuel : nat) (M P : Z)
    (rank : nat) :
  2 <= P <= M -> M <= INT_MAX -> Z.of_nat (length sp_tensor_host) = M ->
  ndims <= 12 -> 0 < dt_size -> M * dt_size <= INT_MAX ->
  (Z.to_nat P < fuel)%nat -> Z.of_nat rank < P ->
  let k := Nat.pred rank in
  distributeTensorToVectors fuel M rank P
  = Data (take (Z.to_nat (boundary M P (S k) - boundary M P k))
            (drop (Z.to_nat (boundary M P k)) sp_tensor_host)) /\
  boundary M P (S k) <= boundary M P (Z.to_nat P - 1) < M.
Proof.
  intros HP HM Hlen Hnd Hdt Hbytes Hfuel Hrank k.
  assert (1 <= P <= M) as HP' by lia.
  split.
  - unfold distributeTensorToVectors.
    rewrite int_wrap_small by (unfold INT_MIN, INT_MAX in *; lia).
    rewrite singleDimMediumGrainBlocking_closed_form by done.
    destruct (Z.ltb_spec 12 ndims) as [?|_]; [lia|]. cbv zeta.
    destruct rank as [|rank]; cbn [Nat.eqb].
    + rewrite (proj2 (forallb_forall _ _)).
      * rewrite boundaries_lookup_total by lia. subst k. cbn [Nat.pred].
        rewrite boundary_0 by done. by rewrite Z.sub_0_r.
      * intros i Hi. apply in_seq in Hi. apply bool_decide_eq_true_2.
        apply message_bytes_blocking; try done; lia.
    + subst k. cbn [Nat.pred].
      destruct (message_bytes_blocking M P (S rank)) as [n ->];
        try done; try lia.
      unfold message. replace (S rank - 1)%nat with rank by lia.
      rewrite !boundaries_lookup_total by lia.
      pose proof (boundary_mono M P rank HP') as Hmono.
      pose proof (boundary_nonneg M P rank HP') as Hnn.
      pose proof (boundary_le_last M P (S rank) HP' ltac:(lia)) as Hle.
      unfold int_sub.
      by rewrite int_wrap_small by (unfold INT_MIN, INT_MAX in *; lia).
  - split.
    + apply boundary_mono_le; [done|]. subst k. lia.
    + apply boundary_lt; [done|lia].
Qed.

End Distribute.

Lemma distributeTensorToVectors_shifted_witness :
  (distributeTensorToVectors [10; 20; 30; 40; 50] 3 56 3 5 0 2
   = Data [10; 20; 30] /\ 3 <= 3 < 5) /\
  (distributeTensorToVectors [10; 20; 30; 40; 50] 3 56 3 5 1 2
   = Data [10; 20; 30] /\ 3 <= 3 < 5).
Proof.
  split.
  - apply (distributeTensorToVectors_shifted [10; 20; 30; 40; 50] 3 56
             3 5 2 0); unfold INT_MAX; simpl; lia.
  - apply (distributeTensorToVectors_shifted [10; 20; 30; 40; 50] 3 56
             3 5 2 1); unfold INT_MAX; simpl; lia.
Defined.

End TensorBlockSystem.

(** ** Real numbers of the code

    [ttb_real] (and [DistGCP]'s [ElementType]) is a floating-point type;
    the code only uses the operations below.  A literal such as [1e3] is
    [of_Z 1000]; [0.001] is [rdiv (of_Z 1) (of_Z 1000)], which for doubles
    is the correctly rounded value the literal denotes. *)

Class Real (E : Type) : Type := {
  radd : E -> E -> E;
  rsub : E -> E -> E;
  rmul : E -> E -> E;
  rdiv : E -> E -> E;
  ropp : E -> E;
  (** [a < b] *)
  rltb : E -> E -> bool;
  (** [std::isnan] *)
  risnan : E -> bool;
  (** value conversion from an integer type, e.g. [ttb_real(nnz)] *)
  of_Z : Z -> E;
  (** value conversion to [ttb_indx], e.g. [ttb_indx(x)]: truncation *)
  to_indx : E -> Z
}.

(** [std::min(a, b)] is [(b < a) ? b : a], [std::max(a, b)] is
    [(a < b) ? b : a]. *)
Definition rmin `{Real E} (a b : E) : E := if rltb b a then b else a.
Definition rmax `{Real E} (a b : E) : E := if rltb a b then b else a.

(** IEEE-754 binary64, the usual [ttb_real]. *)
Definition binary64 : Type := spec_float.

Definition b64_of_Z (z : Z) : binary64 := binary_normalize 53 1024 z 0 false.

(** Truncation toward zero; a negative, infinite or NaN argument is
    undefined behaviour in C++, the model wraps or yields 0 there. *)
Definition b64_to_indx (x : binary64) : Z :=
  match x with
  | S754_finite s m e =>
      let v := if 0 <=? e then Z.pos m * 2 ^ e else Z.pos m / 2 ^ (- e) in
      indx_wrap (if s then - v else v)
  | _ => 0
  end.

Definition b64_isnan (x : binary64) : bool :=
  match x with S754_nan => true | _ => false end.

#[export] Instance binary64_Real : Real binary64 := {|
  radd := SFadd 53 1024;
  rsub := SFsub 53 1024;
  rmul := SFmul 53 1024;
  rdiv := SFdiv 53 1024;
  ropp := SFopp;
  rltb := SFltb;
  risnan := b64_isnan;
  of_Z := b64_of_Z;
  to_indx := b64_to_indx
|}.

(** Exact rational arithmetic: no rounding, no NaN. *)
#[export] Instance Qc_Real : Real Qc := {|
  radd := Qcplus;
  rsub := Qcminus;
  rmul := Qcmult;
  rdiv := Qcdiv;
  ropp := Qcopp;
  rltb := fun a b => if Qclt_le_dec a b then true else false;
  risnan := fun _ => false;
  of_Z := fun z => Q2Qc (inject_Z z);
  to_indx := fun q => indx_wrap (Z.quot (Qnum q) (Z.pos (Qden q)))
|}.

Example b64_one_thousandth :
  rdiv (of_Z 1) (of_Z 1000) = S754_finite false 4611686018427388 (-62).
Proof. reflexivity. Qed.

Example b64_to_indx_7_5 :
  to_indx (rdiv (of_Z 15) (of_Z 2) : binary64) = 7.
Proof. reflexivity. Qed.

(** ** Integers in [ttb_real]

    The constructor of the sampler converts counts to [ttb_real],
    subtracts and compares them there and converts the result back.  Below
    [2^53] a double holds every integer, and these steps are exact. *)

Module B64.

(** [p * 2^k]: [k] zero bits appended to [p]. *)
Definition shl (p : positive) (k : nat) : positive := Nat.iter k xO p.

(** The number of binary digits of [p]. *)
Definition digits (p : positive) : Z := Z.pos (digits2_pos p).

Lemma shl_S p k : shl p (S k) = xO (shl p k).
Proof. reflexivity. Qed.

Lemma Zpos_shl p k : Z.pos (shl p k) = Z.pos p * 2 ^ Z.of_nat k.
Proof.
  induction k as [|k IH].
  - simpl. lia.
  - rewrite shl_S, Pos2Z.inj_xO, IH, Nat2Z.inj_succ, Z.pow_succ_r by lia. ring.
Qed.

Lemma digits_shl p k : digits (shl p k) = digits p + Z.of_nat k.
Proof.
  unfold digits. induction k as [|k IH].
  - simpl. lia.
  - rewrite shl_S. simpl digits2_pos. rewrite Pos2Z.inj_succ, IH. lia.
Qed.

Lemma digits_pos p : 1 <= digits p.
Proof. unfold digits. lia. Qed.

Lemma digits_bounds p : 2 ^ (digits p - 1) <= Z.pos p < 2 ^ digits p.
Proof.
  unfold digits. induction p as [p IH|p IH|]; simpl digits2_pos.
  - rewrite Pos2Z.inj_succ, Pos2Z.inj_xI.
    replace (Z.succ (Z.pos (digits2_pos p)) - 1)
      with (Z.succ (Z.pos (digits2_pos p) - 1)) by lia.
    rewrite (Z.pow_succ_r _ (Z.pos (digits2_pos p))) by lia.
    rewrite (Z.pow_succ_r _ (Z.pos (digits2_pos p) - 1)) by lia.
    lia.
  - rewrite Pos2Z.inj_succ. change (Z.pos p~0) with (2 * Z.pos p).
    replace (Z.succ (Z.pos (digits2_pos p)) - 1)
      with (Z.succ (Z.pos (digits2_pos p) - 1)) by lia.
    rewrite (Z.pow_succ_r _ (Z.pos (digits2_pos p))) by lia.
    rewrite (Z.pow_succ_r _ (Z.pos (digits2_pos p) - 1)) by lia.
    lia.
  - simpl. lia.
Qed.

Lemma Pos_iter_xO p q : Pos.iter xO p q = shl p (Pos.to_nat q).
Proof. apply Pos2Nat.inj_iter. Qed.

Lemma shl_align_spec mx ex ex' :
  shl_align mx ex ex'
  = if ex' <? ex then (shl mx (Z.to_nat (ex - ex')), ex') else (mx, ex).
Proof.
  unfold shl_align. destruct (Z.ltb_spec ex' ex) as [Hlt|Hge].
  - destruct (ex' - ex) as [|d|d] eqn:Hd; try lia.
    rewrite Pos_iter_xO. do 2 f_equal. lia.
  - destruct (ex' - ex) as [|d|d] eqn:Hd; try lia; reflexivity.
Qed.

(** A 53-digit mantissa with an exponent in range is left as it is. *)
Lemma round_aux_canonical s m e :
  digits m = 53 -> -1074 <= e <= 971 ->
  binary_round_aux 53 1024 s (Z.pos m) e loc_Exact = S754_finite s m e.
Proof.
  intros Hd He. unfold binary_round_aux, shr_fexp, fexp, emin.
  cbn [Zdigits2 shr_record_of_loc]. fold (digits m). rewrite Hd.
  replace (Z.max (53 + e - 53) (3 - 1024 - 53) - e) with 0 by lia.
  cbn [shr shr_m loc_of_shr_record round_nearest_even Zdigits2].
  fold (digits m). rewrite Hd.
  replace (Z.max (53 + e - 53) (3 - 1024 - 53) - e) with 0 by lia.
  cbn [shr shr_m].
  destruct (Z.leb_spec e (1024 - 53)); [reflexivity|lia].
Qed.


Lemma iter_pos_nat {A} (f : A -> A) n x :
  SpecFloat.iter_pos f n x = Nat.iter (Pos.to_nat n) f x.
Proof.
  revert x. induction n as [n IH|n IH|]; intros x; cbn [SpecFloat.iter_pos].
  - rewrite !IH, Pos2Nat.inj_xI, <- Nat.iter_add, <- Nat.iter_succ_r.
    f_equal. lia.
  - rewrite !IH, Pos2Nat.inj_xO, <- Nat.iter_add. f_equal. lia.
  - reflexivity.
Qed.

(** Shifting out appended zero bits loses nothing. *)
Lemma shr_1_exact q k n :
  (n <= k)%nat ->
  Nat.iter n shr_1
    {| shr_m := Z.pos (shl q k); shr_r := false; shr_s := false |}
  = {| shr_m := Z.pos (shl q (k - n)); shr_r := false; shr_s := false |}.
Proof.
  induction n as [|n IH]; intros Hn.
  - rewrite Nat.sub_0_r. reflexivity.
  - rewrite Nat.iter_succ, IH by lia.
    replace (k - n)%nat with (S (k - S n)) by lia.
    rewrite shl_S. reflexivity.
Qed.

Lemma digits_le_53 q : Z.pos q < 2 ^ 53 -> digits q <= 53.
Proof.
  intros Hq. pose proof (digits_bounds q) as [Hlo _]. pose proof (digits_pos q).
  apply Z.nlt_ge. intros Hgt.
  assert (2 ^ 53 <= 2 ^ (digits q - 1)) by (apply Z.pow_le_mono_r; lia).
  lia.
Qed.

(** [q * 2^k * 2^e] with [q] of at most 53 digits and the exponent of
    its leading bit in range is rounded to itself. *)
Lemma binary_round_exact s q k e :
  digits q <= 53 ->
  -1074 <= e + digits q + Z.of_nat k - 53 <= 971 ->
  binary_round 53 1024 s (shl q k) e
  = S754_finite s (shl q (Z.to_nat (53 - digits q)))
      (e + digits q + Z.of_nat k - 53).
Proof.
  intros Hq HE. pose proof (digits_pos q) as Hq1.
  set (E := e + digits q + Z.of_nat k - 53) in *.
  unfold binary_round, fexp, emin.
  fold (digits (shl q k)). rewrite digits_shl.
  replace (Z.max (digits q + Z.of_nat k + e - 53) (3 - 1024 - 53)) with E
    by (unfold E; lia).
  rewrite shl_align_spec. destruct (Z.ltb_spec E e) as [Hlt|Hge].
  - assert (shl (shl q k) (Z.to_nat (e - E)) = shl q (Z.to_nat (53 - digits q)))
      as ->.
    { unfold shl. rewrite <- Nat.iter_add. f_equal. unfold E. lia. }
    apply round_aux_canonical; [|lia].
    rewrite digits_shl. lia.
  - unfold binary_round_aux, shr_fexp, fexp, emin.
    cbn [Zdigits2 shr_record_of_loc]. fold (digits (shl q k)).
    rewrite digits_shl.
    replace (Z.max (digits q + Z.of_nat k + e - 53) (3 - 1024 - 53) - e)
      with (E - e) by (unfold E; lia).
    assert (shr {| shr_m := Z.pos (shl q k); shr_r := false; shr_s := false |}
              e (E - e)
            = ({| shr_m := Z.pos (shl q (Z.to_nat (53 - digits q)));
                  shr_r := false; shr_s := false |}, E)) as ->.
    { unfold shr. destruct (E - e) as [|n|n] eqn:Hn; try lia.
      - replace E with e by lia.
        assert (Z.to_nat (53 - digits q) = k) as -> by (unfold E in Hn; lia).
        reflexivity.
      - rewrite iter_pos_nat, shr_1_exact by (unfold E in Hn; lia).
        assert ((k - Pos.to_nat n)%nat = Z.to_nat (53 - digits q)) as ->
          by (unfold E in Hn; lia).
        f_equal. lia. }
    cbn [shr_m loc_of_shr_record shr_r shr_s round_nearest_even Zdigits2].
    fold (digits (shl q (Z.to_nat (53 - digits q)))). rewrite digits_shl.
    replace (Z.max (digits q + Z.of_nat (Z.to_nat (53 - digits q)) + E - 53)
               (3 - 1024 - 53) - E) with 0 by lia.
    cbn [shr shr_m].
    destruct (Z.leb_spec E (1024 - 53)); [reflexivity|lia].
Qed.

(** The double of a positive integer below [2^53]. *)
Lemma b64_of_pos n :
  Z.pos n < 2 ^ 53 ->
  b64_of_Z (Z.pos n)
  = S754_finite false (shl n (Z.to_nat (53 - digits n))) (digits n - 53).
Proof.
  intros Hn. pose proof (digits_le_53 n Hn). pose proof (digits_pos n).
  unfold b64_of_Z, binary_normalize.
  change n with (shl n 0) at 1. rewrite binary_round_exact by (simpl; lia).
  reflexivity.
Qed.

Lemma b64_to_indx_of_Z n : 0 <= n < 2 ^ 53 -> b64_to_indx (b64_of_Z n) = n.
Proof.
  intros [Hlo Hhi]. destruct n as [|n|n]; [reflexivity| |lia].
  pose proof (digits_le_53 n Hhi). pose proof (digits_pos n).
  rewrite b64_of_pos by assumption. unfold b64_to_indx.
  rewrite Zpos_shl, Z2Nat.id by lia.
  assert (0 < 2 ^ (53 - digits n)) by (apply Z.pow_pos_nonneg; lia).
  assert (Z.pos n < 2 ^ 64) by (assert (2 ^ 53 < 2 ^ 64) by reflexivity; lia).
  destruct (Z.leb_spec 0 (digits n - 53)).
  - replace (digits n - 53) with 0 by lia.
    replace (53 - digits n) with 0 by lia.
    rewrite Z.pow_0_r, !Z.mul_1_r. unfold indx_wrap.
    apply Z.mod_small. lia.
  - replace (- (digits n - 53)) with (53 - digits n) by lia.
    rewrite Z.div_mul by lia. unfold indx_wrap. apply Z.mod_small. lia.
Qed.


Lemma compare_shl a b j :
  Pos.compare_cont Eq (shl a j) (shl b j) = Pos.compare_cont Eq a b.
Proof. induction j as [|j IH]; [reflexivity|]. rewrite !shl_S. exact IH. Qed.

Lemma digits_lt_value a b : digits a < digits b -> Z.pos a < Z.pos b.
Proof.
  intros Hd. pose proof (digits_bounds a) as [_ Ha].
  pose proof (digits_bounds b) as [Hb _]. pose proof (digits_pos a).
  assert (2 ^ digits a <= 2 ^ (digits b - 1)) by (apply Z.pow_le_mono_r; lia).
  lia.
Qed.

Lemma b64_ltb_of_Z a b :
  0 <= a < 2 ^ 53 -> 0 <= b < 2 ^ 53 ->
  SFltb (b64_of_Z a) (b64_of_Z b) = (a <? b).
Proof.
  intros [Ha0 Ha] [Hb0 Hb].
  destruct a as [|a|a]; [|rewrite b64_of_pos by assumption|lia];
    (destruct b as [|b|b]; [|rewrite b64_of_pos by assumption|lia]);
    try reflexivity.
  unfold SFltb, SFcompare.
  destruct (Z.compare_spec (digits a - 53) (digits b - 53)) as [He|He|He].
  - assert (digits a = digits b) as Hd by lia. rewrite Hd, compare_shl.
    reflexivity.
  - symmetry. apply Z.ltb_lt, digits_lt_value. lia.
  - symmetry. apply Z.ltb_ge. apply Z.lt_le_incl, digits_lt_value. lia.
Qed.

Lemma b64_sub_of_Z a b :
  0 <= b <= a -> a < 2 ^ 53 ->
  SFsub 53 1024 (b64_of_Z a) (b64_of_Z b) = b64_of_Z (a - b).
Proof.
  intros [Hb0 Hba] Ha.
  destruct b as [|b|b]; [|rewrite (b64_of_pos b) by lia|lia].
  { rewrite Z.sub_0_r. destruct a as [|a|a]; [reflexivity| |lia].
    rewrite b64_of_pos by assumption. reflexivity. }
  destruct a as [|a|a]; [lia| |lia]. rewrite (b64_of_pos a) by assumption.
  pose proof (digits_le_53 a Ha). pose proof (digits_pos a).
  pose proof (digits_le_53 b ltac:(lia)). pose proof (digits_pos b).
  assert (digits b <= digits a) as Hd.
  { apply Z.nlt_ge. intros Hlt. pose proof (digits_lt_value a b Hlt). lia. }
  unfold SFsub.
  replace (Z.min (digits a - 53) (digits b - 53)) with (digits b - 53) by lia.
  rewrite !shl_align_spec, Z.ltb_irrefl.
  assert (fst (if digits b - 53 <? digits a - 53
               then (shl (shl a (Z.to_nat (53 - digits a)))
                       (Z.to_nat (digits a - 53 - (digits b - 53))),
                     digits b - 53)
               else (shl a (Z.to_nat (53 - digits a)), digits a - 53))
          = shl a (Z.to_nat (53 - digits b))) as ->.
  { destruct (Z.ltb_spec (digits b - 53) (digits a - 53)); cbn [fst].
    - unfold shl. rewrite <- Nat.iter_add. f_equal. lia.
    - f_equal. lia. }
  cbn [fst cond_Zopp]. rewrite !Zpos_shl.
  destruct (Z.eq_dec (Z.pos a) (Z.pos b)) as [Heq|Hne].
  - rewrite Heq, !Z.sub_diag. reflexivity.
  - destruct (Z.pos a - Z.pos b) as [|c|c] eqn:Hc; try lia.
    rewrite <- Z.mul_sub_distr_r, Hc, <- Zpos_shl.
    assert (Z.pos c < 2 ^ 53) as Hc53 by lia.
    pose proof (digits_le_53 c Hc53). pose proof (digits_pos c).
    rewrite b64_of_pos by assumption.
    unfold binary_normalize. rewrite binary_round_exact by lia.
    f_equal. lia.
Qed.

End B64.

Lemma this_Q2Qc_inject_Z n : this (Q2Qc (inject_Z n)) = inject_Z n.
Proof. cbn [this Q2Qc]. apply Qred_identity. apply Z.gcd_1_r. Qed.

Lemma Qc_to_indx_of_Z n :
  0 <= n < 2 ^ 53 ->
  indx_wrap (Z.quot (Qnum (Q2Qc (inject_Z n))) (Z.pos (Qden (Q2Qc (inject_Z n))))) = n.
Proof.
  intros Hn. rewrite this_Q2Qc_inject_Z. cbn [Qnum Qden inject_Z].
  rewrite Z.quot_1_r. unfold indx_wrap. apply Z.mod_small.
  assert (2 ^ 53 < 2 ^ 64) by reflexivity. lia.
Qed.

Lemma Qc_ltb_of_Z a b :
  (if Qclt_le_dec (Q2Qc (inject_Z a)) (Q2Qc (inject_Z b)) then true else false)
  = (a <? b).
Proof.
  destruct (Qclt_le_dec _ _) as [Hlt|Hle]; symmetry.
  - apply Z.ltb_lt. unfold Qclt in Hlt. rewrite !this_Q2Qc_inject_Z in Hlt.
    rewrite <- Zlt_Qlt in Hlt. exact Hlt.
  - apply Z.ltb_ge. unfold Qcle in Hle. rewrite !this_Q2Qc_inject_Z in Hle.
    rewrite <- Zle_Qle in Hle. exact Hle.
Qed.

Lemma Qc_sub_of_Z a b :
  (Q2Qc (inject_Z a) - Q2Qc (inject_Z b))%Qc = Q2Qc (inject_Z (a - b)).
Proof.
  apply Qc_is_canon. unfold Qcminus, Qcplus, Qcopp.
  cbn [this Q2Qc]. rewrite !Qred_correct. unfold Z.sub.
  rewrite inject_Z_plus, inject_Z_opp. reflexivity.
Qed.

(** What the conversions, [<] and [-] of [ttb_real] do on integers below
    [2^53]. *)
Class ExactIntegers (E : Type) `{Real E} : Prop := {
  to_indx_of_Z n : 0 <= n < 2 ^ 53 -> to_indx (of_Z n) = n;
  rltb_of_Z a b :
    0 <= a < 2 ^ 53 -> 0 <= b < 2 ^ 53 -> rltb (of_Z a) (of_Z b) = (a <? b);
  rsub_of_Z a b :
    0 <= b <= a -> a < 2 ^ 53 -> rsub (of_Z a) (of_Z b) = of_Z (a - b)
}.

#[export] Instance binary64_ExactIntegers : ExactIntegers binary64.
Proof.
  split.
  - exact B64.b64_to_indx_of_Z.
  - exact B64.b64_ltb_of_Z.
  - exact B64.b64_sub_of_Z.
Qed.

#[export] Instance Qc_ExactIntegers : ExactIntegers Qc.
Proof.
  split.
  - exact Qc_to_indx_of_Z.
  - intros a b _ _. apply Qc_ltb_of_Z.
  - intros a b _ _. apply Qc_sub_of_Z.
Qed.

(** [ttb_indx(std::min(ttb_real(c), tsz - ttb_real(n)))] on integers. *)
Lemma to_indx_rmin_of_Z `{ExactIntegers E} (c n N : Z) :
  0 <= c < 2 ^ 53 -> 0 <= n <= N -> N < 2 ^ 53 ->
  to_indx (rmin (of_Z c) (rsub (of_Z N) (of_Z n))) = Z.min c (N - n).
Proof.
  intros Hc Hn HN. rewrite rsub_of_Z by lia. unfold rmin.
  rewrite rltb_of_Z by lia.
  destruct (Z.ltb_spec (N - n) c); rewrite to_indx_of_Z by lia; lia.
Qed.

(** ** Algorithmic parameters (Genten_AlgParams.hpp) *)

(** The enumerations live in Genten_Util.hpp; these are the enumerators
    the sources name.  [MTTKRP_Unnamed]/[MTTKRP_All_Unnamed] stand for any
    further enumerator: the code only ever compares for equality. *)
Module Solver_Method.
Inductive type : Set := CP_ALS | CP_OPT | GCP_SGD | GCP_OPT.
End Solver_Method.

Module MTTKRP_Method.
Inductive type : Set :=
| Default | Single | Atomic | Duplicated | Perm | MTTKRP_Unnamed (tag : nat).
End MTTKRP_Method.

Module MTTKRP_All_Method.
Inductive type : Set :=
| Default | Iterated | Atomic | Duplicated | Single
| MTTKRP_All_Unnamed (tag : nat).
End MTTKRP_All_Method.

Module GCP_Sampling.
Inductive type : Set := Uniform | Stratified | SemiStratified.
End GCP_Sampling.

#[export] Instance Solver_Method_eq_dec : EqDecision Solver_Method.type.
Proof. solve_decision. Defined.
#[export] Instance MTTKRP_Method_eq_dec : EqDecision MTTKRP_Method.type.
Proof. solve_decision. Defined.
#[export] Instance MTTKRP_All_Method_eq_dec :
  EqDecision MTTKRP_All_Method.type.
Proof. solve_decision. Defined.
#[export] Instance GCP_Sampling_eq_dec : EqDecision GCP_Sampling.type.
Proof. solve_decision. Defined.

(** The fields of [struct AlgParams] that the embedded code reads. *)
Record AlgParams (E : Type) : Type := mkAlgParams {
  method : Solver_Method.type;
  rank : Z;
  maxiters : Z;
  mttkrp_method : MTTKRP_Method.type;
  mttkrp_all_method : MTTKRP_All_Method.type;
  sampling_type : GCP_Sampling.type;
  epoch_iters : Z;
  num_samples_nonzeros_value : Z;
  num_samples_zeros_value : Z;
  num_samples_nonzeros_grad : Z;
  num_samples_zeros_grad : Z;
  w_f_nz : E;
  w_f_z : E;
  w_g_nz : E;
  w_g_z : E;
  hash : bool;
  fuse : bool
}.
Arguments mkAlgParams {E}.
Arguments method {E}.
Arguments rank {E}.
Arguments maxiters {E}.
Arguments mttkrp_method {E}.
Arguments mttkrp_all_method {E}.
Arguments sampling_type {E}.
Arguments epoch_iters {E}.
Arguments num_samples_nonzeros_value {E}.
Arguments num_samples_zeros_value {E}.
Arguments num_samples_nonzeros_grad {E}.
Arguments num_samples_zeros_grad {E}.
Arguments w_f_nz {E}.
Arguments w_f_z {E}.
Arguments w_g_nz {E}.
Arguments w_g_z {E}.
Arguments hash {E}.
Arguments fuse {E}.

Definition set_mttkrp_method {E} (p : AlgParams E) (m : MTTKRP_Method.type)
    : AlgParams E :=
  mkAlgParams (method p) (rank p) (maxiters p) m (mttkrp_all_method p)
    (sampling_type p) (epoch_iters p) (num_samples_nonzeros_value p)
    (num_samples_zeros_value p) (num_samples_nonzeros_grad p)
    (num_samples_zeros_grad p) (w_f_nz p) (w_f_z p) (w_g_nz p) (w_g_z p)
    (hash p) (fuse p).

Definition set_mttkrp_all_method {E} (p : AlgParams E)
    (m : MTTKRP_All_Method.type) : AlgParams E :=
  mkAlgParams (method p) (rank p) (maxiters p) (mttkrp_method p) m
    (sampling_type p) (epoch_iters p) (num_samples_nonzeros_value p)
    (num_samples_zeros_value p) (num_samples_nonzeros_grad p)
    (num_samples_zeros_grad p) (w_f_nz p) (w_f_z p) (w_g_nz p) (w_g_z p)
    (hash p) (fuse p).

(** [SpaceProperties<ExecSpace>] and [sizeof(ttb_real)]: what [fixup]
    asks of the execution target. *)
Record SpaceProperties : Type := mkSpaceProperties {
  concurrency : Z;
  is_cuda : bool;
  cuda_arch : Z;
  sizeof_ttb_real : Z
}.

(** *** [AlgParams::fixup] *)

Section Fixup.
Context {E : Type}.
(** [MTTKRP_Method::names] and [MTTKRP_All_Method::names]. *)
Variable MTTKRP_Method_names : MTTKRP_Method.type -> string.
Variable MTTKRP_All_Method_names : MTTKRP_All_Method.type -> string.
Variable space_prop : SpaceProperties.

(** [cuda_arch() >= 600 || sizeof(ttb_real) == 4] *)
Definition fast_atomics : bool :=
  (600 <=? cuda_arch space_prop) || (sizeof_ttb_real space_prop =? 4).

(** [method == GCP_SGD && sampling_type == SemiStratified && fuse] *)
Definition fused_semi_stratified (p : AlgParams E) : bool :=
  bool_decide (method p = Solver_Method.GCP_SGD)
  && bool_decide (sampling_type p = GCP_Sampling.SemiStratified)
  && fuse p.

(** "Compute default MTTKRP method". *)
Definition fixup_default_mttkrp (p : AlgParams E) : AlgParams E :=
  if bool_decide (mttkrp_method p = MTTKRP_Method.Default) then
    if concurrency space_prop =? 1 then
      set_mttkrp_method p MTTKRP_Method.Single
    else if is_cuda space_prop && fast_atomics then
      set_mttkrp_method p MTTKRP_Method.Atomic
    else if is_cuda space_prop then
      set_mttkrp_method p MTTKRP_Method.Perm
    else if bool_decide (method p = Solver_Method.GCP_SGD) then
      set_mttkrp_method p MTTKRP_Method.Duplicated
    else set_mttkrp_method p MTTKRP_Method.Perm
  else p.

(** "Compute default MTTKRP-All method".  The first [if] is not chained
    to the rest, so the chain that follows always assigns last. *)
Definition fixup_default_mttkrp_all (p : AlgParams E) : AlgParams E :=
  if bool_decide (mttkrp_all_method p = MTTKRP_All_Method.Default) then
    let p :=
      if concurrency space_prop =? 1 then
        set_mttkrp_all_method p MTTKRP_All_Method.Single
      else p in
    if is_cuda space_prop && fused_semi_stratified p then
      set_mttkrp_all_method p MTTKRP_All_Method.Atomic
    else if is_cuda space_prop && fast_atomics then
      set_mttkrp_all_method p MTTKRP_All_Method.Atomic
    else if is_cuda space_prop then
      set_mttkrp_all_method p MTTKRP_All_Method.Iterated
    else if bool_decide (method p = Solver_Method.GCP_SGD) then
      set_mttkrp_all_method p MTTKRP_All_Method.Duplicated
    else set_mttkrp_all_method p MTTKRP_All_Method.Iterated
  else p.

Definition invalid_mttkrp_notice (old new : MTTKRP_Method.type) : string :=
  ("MTTKRP method " ++ MTTKRP_Method_names old
   ++ " is invalid for Cuda, changing to "
   ++ MTTKRP_Method_names new ++ ".")%string.

Definition invalid_mttkrp_all_notice (old new : MTTKRP_All_Method.type)
    : string :=
  ("MTTKRP-All method " ++ MTTKRP_All_Method_names old
   ++ " is invalid for Cuda, changing to "
   ++ MTTKRP_All_Method_names new ++ ".")%string.

Definition fused_requires_atomic_notice : string :=
  ("Fused semi-stratified sampling/MTTKRP method requires atomic"
   ++ " on Cuda.  Changing MTTKRP-All method to atomic.")%string.

(** "Fix invalid choices from the user", first [if]: MTTKRP method. *)
Definition fixup_cuda_mttkrp (p : AlgParams E) (out : list string)
    : AlgParams E * list string :=
  if bool_decide (mttkrp_method p = MTTKRP_Method.Single)
     || bool_decide (mttkrp_method p = MTTKRP_Method.Duplicated) then
    let new := if fast_atomics then MTTKRP_Method.Atomic
               else MTTKRP_Method.Perm in
    (set_mttkrp_method p new,
     out ++ [invalid_mttkrp_notice (mttkrp_method p) new])
  else (p, out).

(** Second [if]: MTTKRP-All method Single or Duplicated. *)
Definition fixup_cuda_mttkrp_all (p : AlgParams E) (out : list string)
    : AlgParams E * list string :=
  if bool_decide (mttkrp_all_method p = MTTKRP_All_Method.Single)
     || bool_decide (mttkrp_all_method p = MTTKRP_All_Method.Duplicated) then
    let new := if fast_atomics || fused_semi_stratified p
               then MTTKRP_All_Method.Atomic
               else MTTKRP_All_Method.Iterated in
    (set_mttkrp_all_method p new,
     out ++ [invalid_mttkrp_all_notice (mttkrp_all_method p) new])
  else (p, out).

(** Third [if]: the fused semi-stratified kernel needs atomics. *)
Definition fixup_cuda_fused (p : AlgParams E) (out : list string)
    : AlgParams E * list string :=
  if fused_semi_stratified p
     && negb (bool_decide (mttkrp_all_method p = MTTKRP_All_Method.Atomic))
  then (set_mttkrp_all_method p MTTKRP_All_Method.Atomic,
        out ++ [fused_requires_atomic_notice])
  else (p, out).

(** [fixup] has no failing path: it assigns and writes to [out]. *)
Definition fixup (p : AlgParams E) (out : list string)
    : AlgParams E * list string :=
  let p := fixup_default_mttkrp p in
  let p := fixup_default_mttkrp_all p in
  if is_cuda space_prop then
    let '(p, out) := fixup_cuda_mttkrp p out in
    let '(p, out) := fixup_cuda_mttkrp_all p out in
    fixup_cuda_fused p out
  else (p, out).

(** The guard that opens [GCP_SS_Grad_Str<Kokkos::Cuda>::run]:
    [Genten::error] throws its message. *)
Definition GCP_SS_Grad_Str_Cuda_run_guard (p : AlgParams E)
    : string + unit :=
  if negb (bool_decide (mttkrp_all_method p = MTTKRP_All_Method.Atomic))
  then inl "MTTKRP-All method must be atomic on Cuda!"%string
  else inr tt.

End Fixup.

Section FixupFacts.
Context {E : Type}.
Variable MTTKRP_Method_names : MTTKRP_Method.type -> string.
Variable MTTKRP_All_Method_names : MTTKRP_All_Method.type -> string.
Variable space_prop : SpaceProperties.

Local Abbreviation run_fixup :=
  (fixup MTTKRP_Method_names MTTKRP_All_Method_names space_prop).

Lemma fixup_default_mttkrp_keeps (p : AlgParams E) :
  method (fixup_default_mttkrp space_prop p) = method p /\
  sampling_type (fixup_default_mttkrp space_prop p) = sampling_type p /\
  fuse (fixup_default_mttkrp space_prop p) = fuse p /\
  mttkrp_all_method (fixup_default_mttkrp space_prop p) = mttkrp_all_method p.
Proof.
  unfold fixup_default_mttkrp.
  repeat (case_bool_decide || case_match); auto.
Qed.

Lemma fixup_default_mttkrp_all_explicit (p : AlgParams E) :
  mttkrp_all_method p <> MTTKRP_All_Method.Default ->
  fixup_default_mttkrp_all space_prop p = p.
Proof.
  intros Hne. unfold fixup_default_mttkrp_all.
  case_bool_decide; [contradiction|reflexivity].
Qed.

Lemma fixup_cuda_mttkrp_keeps (p : AlgParams E) out :
  let r := fixup_cuda_mttkrp MTTKRP_Method_names space_prop p out in
  method (fst r) = method p /\
  sampling_type (fst r) = sampling_type p /\
  fuse (fst r) = fuse p /\
  mttkrp_all_method (fst r) = mttkrp_all_method p /\
  exists pre, snd r = out ++ pre.
Proof.
  unfold fixup_cuda_mttkrp. case_match; simpl.
  - repeat split; eauto.
  - repeat split. exists []. by rewrite app_nil_r.
Qed.

(** C8. On a Cuda target, for fused GCP-SGD with semi-stratified sampling,
    an explicit MTTKRP-All choice other than Atomic leaves [fixup] as
    Atomic, with a notice appended to the log; [fixup] cannot fail, and the
    guard of the Cuda kernel then lets the run through. *)
Theorem fixup_cuda_fused_forces_atomic (p : AlgParams E) (out : list string) :
  is_cuda space_prop = true ->
  method p = Solver_Method.GCP_SGD ->
  sampling_type p = GCP_Sampling.SemiStratified ->
  fuse p = true ->
  mttkrp_all_method p <> MTTKRP_All_Method.Default ->
  mttkrp_all_method p <> MTTKRP_All_Method.Atomic ->
  mttkrp_all_method (fst (run_fixup p out)) = MTTKRP_All_Method.Atomic /\
  (exists pre notice,
      snd (run_fixup p out) = out ++ pre ++ [notice] /\
      (notice = invalid_mttkrp_all_notice MTTKRP_All_Method_names
                  (mttkrp_all_method p) MTTKRP_All_Method.Atomic
       \/ notice = fused_requires_atomic_notice)) /\
  GCP_SS_Grad_Str_Cuda_run_guard (fst (run_fixup p out)) = inr tt.
Proof.
  intros Hcuda Hm Hs Hf Hdef Hat.
  unfold fixup. rewrite Hcuda.
  destruct (fixup_default_mttkrp_keeps p) as (Hm1 & Hs1 & Hf1 & Ha1).
  set (p1 := fixup_default_mttkrp space_prop p) in *.
  rewrite (fixup_default_mttkrp_all_explicit p1) by (rewrite Ha1; exact Hdef).
  destruct (fixup_cuda_mttkrp_keeps p1 out) as (Hm2 & Hs2 & Hf2 & Ha2 & pre & Hout).
  destruct (fixup_cuda_mttkrp MTTKRP_Method_names space_prop p1 out)
    as [p2 out2] eqn:E2.
  simpl in Hm2, Hs2, Hf2, Ha2, Hout. subst out2.
  assert (fused_semi_stratified p2 = true) as Hfused.
  { unfold fused_semi_stratified.
    rewrite Hm2, Hs2, Hf2, Hm1, Hs1, Hf1, Hm, Hs, Hf.
    rewrite !bool_decide_eq_true_2 by reflexivity. reflexivity. }
  assert (mttkrp_all_method p2 = mttkrp_all_method p) as Ha by congruence.
  unfold fixup_cuda_mttkrp_all. rewrite Hfused, orb_true_r.
  destruct (bool_decide (mttkrp_all_method p2 = MTTKRP_All_Method.Single)
            || bool_decide (mttkrp_all_method p2 = MTTKRP_All_Method.Duplicated))
    eqn:Hsd.
  - unfold fixup_cuda_fused, GCP_SS_Grad_Str_Cuda_run_guard. simpl.
    rewrite andb_false_r. simpl.
    split; [reflexivity|]. split; [|reflexivity].
    exists pre, (invalid_mttkrp_all_notice MTTKRP_All_Method_names
                   (mttkrp_all_method p2) MTTKRP_All_Method.Atomic).
    rewrite Ha, app_assoc. auto.
  - unfold fixup_cuda_fused, GCP_SS_Grad_Str_Cuda_run_guard.
    rewrite Hfused.
    rewrite (bool_decide_eq_false_2
               (mttkrp_all_method p2 = MTTKRP_All_Method.Atomic))
      by congruence.
    simpl.
    split; [reflexivity|]. split; [|reflexivity].
    exists pre, fused_requires_atomic_notice.
    rewrite app_assoc. auto.
Qed.

End FixupFacts.

(** The names [fixup] prints, for the examples below. *)
Definition example_MTTKRP_names (m : MTTKRP_Method.type) : string :=
  match m with
  | MTTKRP_Method.Default => "default"
  | MTTKRP_Method.Single => "single"
  | MTTKRP_Method.Atomic => "atomic"
  | MTTKRP_Method.Duplicated => "duplicated"
  | MTTKRP_Method.Perm => "perm"
  | MTTKRP_Method.MTTKRP_Unnamed _ => "unnamed"
  end.

Definition example_MTTKRP_All_names (m : MTTKRP_All_Method.type) : string :=
  match m with
  | MTTKRP_All_Method.Default => "default"
  | MTTKRP_All_Method.Iterated => "iterated"
  | MTTKRP_All_Method.Atomic => "atomic"
  | MTTKRP_All_Method.Duplicated => "duplicated"
  | MTTKRP_All_Method.Single => "single"
  | MTTKRP_All_Method.MTTKRP_All_Unnamed _ => "unnamed"
  end.

(** A Volta GPU with 64-bit reals. *)
Definition example_cuda : SpaceProperties :=
  mkSpaceProperties 163840 true 700 8.

(** Fused semi-stratified GCP-SGD where the user asked for [m]. *)
Definition example_gcp_params (m : MTTKRP_All_Method.type) : AlgParams Z :=
  mkAlgParams Solver_Method.GCP_SGD 2 50 MTTKRP_Method.Default m
    GCP_Sampling.SemiStratified 10 0 0 0 0 0 0 0 0 false true.

Example fixup_cuda_duplicated :
  fixup example_MTTKRP_names example_MTTKRP_All_names example_cuda
    (example_gcp_params MTTKRP_All_Method.Duplicated) []
  = (set_mttkrp_method
       (example_gcp_params MTTKRP_All_Method.Atomic) MTTKRP_Method.Atomic,
     ["MTTKRP-All method duplicated is invalid for Cuda, changing to atomic."%string]).
Proof. reflexivity. Qed.

Example fixup_cuda_iterated :
  snd (fixup example_MTTKRP_names example_MTTKRP_All_names example_cuda
         (example_gcp_params MTTKRP_All_Method.Iterated) [])
  = ["Fused semi-stratified sampling/MTTKRP method requires atomic on Cuda.  Changing MTTKRP-All method to atomic."%string].
Proof. reflexivity. Qed.

(** The theorem at the Volta example with a Duplicated request. *)
Lemma fixup_cuda_fused_forces_atomic_witness :
  let p := example_gcp_params MTTKRP_All_Method.Duplicated in
  let r := fixup example_MTTKRP_names example_MTTKRP_All_names example_cuda
             p [] in
  mttkrp_all_method (fst r) = MTTKRP_All_Method.Atomic /\
  (exists pre notice,
      snd r = [] ++ pre ++ [notice] /\
      (notice = invalid_mttkrp_all_notice example_MTTKRP_All_names
                  (mttkrp_all_method p) MTTKRP_All_Method.Atomic
       \/ notice = fused_requires_atomic_notice)) /\
  GCP_SS_Grad_Str_Cuda_run_guard (fst r) = inr tt.
Proof.
  apply (fixup_cuda_fused_forces_atomic example_MTTKRP_names
           example_MTTKRP_All_names example_cuda
           (example_gcp_params MTTKRP_All_Method.Duplicated) []);
    simpl; congruence.
Defined.

(** *** What [fixup] guarantees *)

Section FixupInvariants.
Context {E : Type}.
Variable MTTKRP_Method_names : MTTKRP_Method.type -> string.
Variable MTTKRP_All_Method_names : MTTKRP_All_Method.type -> string.
Variable space_prop : SpaceProperties.

Local Abbreviation run_fixup :=
  (fixup MTTKRP_Method_names MTTKRP_All_Method_names space_prop).

(** The parameters [fixup] has nothing left to do on: no default is
    pending and, on Cuda, neither method is Single or Duplicated and the
    fused semi-stratified kernel has its atomics. *)
Definition fixed_up (p : AlgParams E) : Prop :=
  mttkrp_method p <> MTTKRP_Method.Default /\
  mttkrp_all_method p <> MTTKRP_All_Method.Default /\
  (is_cuda space_prop = true ->
   mttkrp_method p <> MTTKRP_Method.Single /\
   mttkrp_method p <> MTTKRP_Method.Duplicated /\
   mttkrp_all_method p <> MTTKRP_All_Method.Single /\
   mttkrp_all_method p <> MTTKRP_All_Method.Duplicated /\
   (fused_semi_stratified p = true ->
    mttkrp_all_method p = MTTKRP_All_Method.Atomic)).

Lemma fixup_default_mttkrp_resolved (p : AlgParams E) :
  mttkrp_method (fixup_default_mttkrp space_prop p) <> MTTKRP_Method.Default.
Proof.
  unfold fixup_default_mttkrp.
  repeat (case_bool_decide || case_match); cbn; congruence.
Qed.

Lemma fixup_default_mttkrp_all_keeps (p : AlgParams E) :
  method (fixup_default_mttkrp_all space_prop p) = method p /\
  sampling_type (fixup_default_mttkrp_all space_prop p) = sampling_type p /\
  fuse (fixup_default_mttkrp_all space_prop p) = fuse p /\
  mttkrp_method (fixup_default_mttkrp_all space_prop p) = mttkrp_method p.
Proof.
  unfold fixup_default_mttkrp_all.
  repeat (case_bool_decide || case_match); auto.
Qed.

Lemma fixup_default_mttkrp_all_resolved (p : AlgParams E) :
  mttkrp_all_method (fixup_default_mttkrp_all space_prop p)
  <> MTTKRP_All_Method.Default.
Proof.
  unfold fixup_default_mttkrp_all.
  repeat (case_bool_decide || case_match); cbn; congruence.
Qed.

Lemma fixup_cuda_mttkrp_valid (p : AlgParams E) out :
  let r := fixup_cuda_mttkrp MTTKRP_Method_names space_prop p out in
  mttkrp_method (fst r) <> MTTKRP_Method.Single /\
  mttkrp_method (fst r) <> MTTKRP_Method.Duplicated /\
  (mttkrp_method p <> MTTKRP_Method.Default ->
   mttkrp_method (fst r) <> MTTKRP_Method.Default).
Proof.
  unfold fixup_cuda_mttkrp.
  destruct (bool_decide (mttkrp_method p = MTTKRP_Method.Single)) eqn:H1,
    (bool_decide (mttkrp_method p = MTTKRP_Method.Duplicated)) eqn:H2;
    cbn; try (destruct (fast_atomics space_prop); cbn; repeat split; congruence).
  apply bool_decide_eq_false in H1, H2. auto.
Qed.

Lemma fixup_cuda_mttkrp_all_keeps (p : AlgParams E) out :
  let r := fixup_cuda_mttkrp_all MTTKRP_All_Method_names space_prop p out in
  method (fst r) = method p /\
  sampling_type (fst r) = sampling_type p /\
  fuse (fst r) = fuse p /\
  mttkrp_method (fst r) = mttkrp_method p.
Proof. unfold fixup_cuda_mttkrp_all. case_match; cbn; auto. Qed.

Lemma fixup_cuda_mttkrp_all_valid (p : AlgParams E) out :
  let r := fixup_cuda_mttkrp_all MTTKRP_All_Method_names space_prop p out in
  mttkrp_all_method (fst r) <> MTTKRP_All_Method.Single /\
  mttkrp_all_method (fst r) <> MTTKRP_All_Method.Duplicated /\
  (mttkrp_all_method p <> MTTKRP_All_Method.Default ->
   mttkrp_all_method (fst r) <> MTTKRP_All_Method.Default).
Proof.
  unfold fixup_cuda_mttkrp_all.
  destruct (bool_decide (mttkrp_all_method p = MTTKRP_All_Method.Single))
    eqn:H1,
    (bool_decide (mttkrp_all_method p = MTTKRP_All_Method.Duplicated)) eqn:H2;
    cbn;
    try (destruct (fast_atomics space_prop || fused_semi_stratified p); cbn;
         repeat split; congruence).
  apply bool_decide_eq_false in H1, H2. auto.
Qed.

Lemma fixup_cuda_fused_keeps (p : AlgParams E) out :
  let r := fixup_cuda_fused p out in
  method (fst r) = method p /\
  sampling_type (fst r) = sampling_type p /\
  fuse (fst r) = fuse p /\
  mttkrp_method (fst r) = mttkrp_method p.
Proof. unfold fixup_cuda_fused. case_match; cbn; auto. Qed.

Lemma fixup_cuda_fused_valid (p : AlgParams E) out :
  let r := fixup_cuda_fused p out in
  (fused_semi_stratified p = true ->
   mttkrp_all_method (fst r) = MTTKRP_All_Method.Atomic) /\
  (mttkrp_all_method (fst r) = mttkrp_all_method p \/
   mttkrp_all_method (fst r) = MTTKRP_All_Method.Atomic).
Proof.
  unfold fixup_cuda_fused.
  destruct (fused_semi_stratified p) eqn:Hf; cbn.
  - case_bool_decide as Ha; cbn; auto.
  - split; [discriminate|auto].
Qed.

Lemma fused_semi_stratified_ext (p q : AlgParams E) :
  method p = method q -> sampling_type p = sampling_type q ->
  fuse p = fuse q ->
  fused_semi_stratified p = fused_semi_stratified q.
Proof. unfold fused_semi_stratified. by intros -> -> ->. Qed.

(** [fixup] leaves nothing for a second run. *)
Lemma fixup_fixed_up (p : AlgParams E) (out : list string) :
  fixed_up (fst (run_fixup p out)).
Proof.
  unfold fixup.
  pose proof (fixup_default_mttkrp_resolved p) as Hm1.
  destruct (fixup_default_mttkrp_keeps space_prop p) as (Hk1 & Hk2 & Hk3 & _).
  set (p1 := fixup_default_mttkrp space_prop p) in *.
  pose proof (fixup_default_mttkrp_all_resolved p1) as Ha2.
  destruct (fixup_default_mttkrp_all_keeps p1) as (Hl1 & Hl2 & Hl3 & Hl4).
  set (p2 := fixup_default_mttkrp_all space_prop p1) in *.
  destruct (is_cuda space_prop) eqn:Hcuda.
  - destruct (fixup_cuda_mttkrp_valid p2 out) as (Hv1 & Hv2 & Hv3).
    destruct (fixup_cuda_mttkrp_keeps MTTKRP_Method_names space_prop p2 out)
      as (Hc1 & Hc2 & Hc3 & Hc4 & _).
    destruct (fixup_cuda_mttkrp MTTKRP_Method_names space_prop p2 out)
      as [p3 out3]. cbn [fst snd] in *.
    destruct (fixup_cuda_mttkrp_all_valid p3 out3) as (Hw1 & Hw2 & Hw3).
    destruct (fixup_cuda_mttkrp_all_keeps p3 out3) as (Hd1 & Hd2 & Hd3 & Hd4).
    destruct (fixup_cuda_mttkrp_all MTTKRP_All_Method_names space_prop p3 out3)
      as [p4 out4]. cbn [fst snd] in *.
    destruct (fixup_cuda_fused_valid p4 out4) as (Hx1 & Hx2).
    destruct (fixup_cuda_fused_keeps p4 out4) as (He1 & He2 & He3 & He4).
    set (r := fixup_cuda_fused p4 out4) in *.
    assert (mttkrp_all_method p3 <> MTTKRP_All_Method.Default)
      by congruence.
    assert (mttkrp_all_method (fst r) <> MTTKRP_All_Method.Default /\
            mttkrp_all_method (fst r) <> MTTKRP_All_Method.Single /\
            mttkrp_all_method (fst r) <> MTTKRP_All_Method.Duplicated)
      as (Hy1 & Hy2 & Hy3).
    { destruct Hx2 as [Hx2|Hx2]; rewrite Hx2; repeat split;
        solve [auto | discriminate]. }
    assert (mttkrp_method p3 <> MTTKRP_Method.Default)
      by (apply Hv3; congruence).
    split; [congruence|]. split; [assumption|]. intros _.
    split; [congruence|]. split; [congruence|].
    split; [assumption|]. split; [assumption|].
    intros Hf. apply Hx1.
    rewrite <- Hf. symmetry. by apply fused_semi_stratified_ext.
  - cbn [fst]. repeat split; try congruence; discriminate.
Qed.

(** On fixed-up parameters [fixup] does nothing. *)
Lemma fixup_of_fixed_up (p : AlgParams E) (out : list string) :
  fixed_up p -> run_fixup p out = (p, out).
Proof.
  intros (Hm & Ha & Hcuda). unfold fixup.
  assert (fixup_default_mttkrp space_prop p = p) as ->.
  { unfold fixup_default_mttkrp. by rewrite bool_decide_eq_false_2. }
  rewrite fixup_default_mttkrp_all_explicit by assumption.
  destruct (is_cuda space_prop); [|reflexivity].
  destruct (Hcuda eq_refl) as (H1 & H2 & H3 & H4 & H5).
  unfold fixup_cuda_mttkrp.
  rewrite !bool_decide_eq_false_2 by assumption. cbn [orb].
  unfold fixup_cuda_mttkrp_all.
  rewrite !bool_decide_eq_false_2 by assumption. cbn [orb].
  unfold fixup_cuda_fused.
  destruct (fused_semi_stratified p); [|reflexivity].
  rewrite bool_decide_eq_true_2 by auto. reflexivity.
Qed.

(** Running [fixup] a second time changes nothing and prints nothing. *)
Theorem fixup_idempotent (p : AlgParams E) (out out' : list string) :
  run_fixup (fst (run_fixup p out)) out' = (fst (run_fixup p out), out').
Proof. apply fixup_of_fixed_up, fixup_fixed_up. Qed.

Lemma fixup_keeps_solver (p : AlgParams E) (out : list string) :
  method (fst (run_fixup p out)) = method p /\
  sampling_type (fst (run_fixup p out)) = sampling_type p /\
  fuse (fst (run_fixup p out)) = fuse p.
Proof.
  unfold fixup.
  destruct (fixup_default_mttkrp_keeps space_prop p) as (Hk1 & Hk2 & Hk3 & _).
  set (p1 := fixup_default_mttkrp space_prop p) in *.
  destruct (fixup_default_mttkrp_all_keeps p1) as (Hl1 & Hl2 & Hl3 & _).
  set (p2 := fixup_default_mttkrp_all space_prop p1) in *.
  destruct (is_cuda space_prop).
  - destruct (fixup_cuda_mttkrp_keeps MTTKRP_Method_names space_prop p2 out)
      as (Hc1 & Hc2 & Hc3 & _).
    destruct (fixup_cuda_mttkrp MTTKRP_Method_names space_prop p2 out)
      as [p3 out3]. cbn [fst snd] in *.
    destruct (fixup_cuda_mttkrp_all_keeps p3 out3) as (Hd1 & Hd2 & Hd3 & _).
    destruct (fixup_cuda_mttkrp_all MTTKRP_All_Method_names space_prop p3 out3)
      as [p4 out4]. cbn [fst snd] in *.
    destruct (fixup_cuda_fused_keeps p4 out4) as (He1 & He2 & He3 & _).
    repeat split; congruence.
  - cbn [fst]. repeat split; congruence.
Qed.

Lemma fixup_log_grows (p : AlgParams E) (out : list string) :
  exists notices, snd (run_fixup p out) = out ++ notices.
Proof.
  unfold fixup, fixup_cuda_mttkrp, fixup_cuda_mttkrp_all, fixup_cuda_fused.
  destruct (is_cuda space_prop); [|exists []; by rewrite app_nil_r].
  repeat case_match; simplify_eq/=; rewrite <- ?app_assoc; eauto.
  exists []. by rewrite app_nil_r.
Qed.

(** After [fixup] no method is left at Default; on Cuda neither method is
    Single or Duplicated, and fused semi-stratified GCP-SGD has the Atomic
    MTTKRP-All method.  The solver, the sampling and the fuse flag are as
    before, and the log only grows. *)
Theorem fixup_settles_methods (p : AlgParams E) (out : list string) :
  let r := run_fixup p out in
  mttkrp_method (fst r) <> MTTKRP_Method.Default /\
  mttkrp_all_method (fst r) <> MTTKRP_All_Method.Default /\
  (is_cuda space_prop = true ->
   mttkrp_method (fst r) <> MTTKRP_Method.Single /\
   mttkrp_method (fst r) <> MTTKRP_Method.Duplicated /\
   mttkrp_all_method (fst r) <> MTTKRP_All_Method.Single /\
   mttkrp_all_method (fst r) <> MTTKRP_All_Method.Duplicated /\
   (method p = Solver_Method.GCP_SGD ->
    sampling_type p = GCP_Sampling.SemiStratified -> fuse p = true ->
    mttkrp_all_method (fst r) = MTTKRP_All_Method.Atomic)) /\
  method (fst r) = method p /\
  sampling_type (fst r) = sampling_type p /\
  fuse (fst r) = fuse p /\
  exists notices, snd r = out ++ notices.
Proof.
  cbv zeta. destruct (fixup_fixed_up p out) as (H1 & H2 & H3).
  destruct (fixup_keeps_solver p out) as (K1 & K2 & K3).
  split; [assumption|]. split; [assumption|].
  split; [|by auto using fixup_log_grows].
  intros Hcuda. destruct (H3 Hcuda) as (C1 & C2 & C3 & C4 & C5).
  repeat (split; [assumption|]).
  intros Hm Hs Hf. apply C5. unfold fused_semi_stratified.
  rewrite K1, K2, K3, Hm, Hs, Hf.
  by rewrite !bool_decide_eq_true_2.
Qed.

(** With a single thread and no Cuda, the default MTTKRP method becomes
    Single, but the default MTTKRP-All method does not: the test for one
    thread is not chained to the tests after it, and the last of them
    assigns Duplicated (GCP-SGD) or Iterated. *)
Theorem fixup_single_thread_mttkrp_all (p : AlgParams E) (out : list string) :
  concurrency space_prop = 1 ->
  is_cuda space_prop = false ->
  mttkrp_method p = MTTKRP_Method.Default ->
  mttkrp_all_method p = MTTKRP_All_Method.Default ->
  run_fixup p out
  = (set_mttkrp_all_method (set_mttkrp_method p MTTKRP_Method.Single)
       (if bool_decide (method p = Solver_Method.GCP_SGD)
        then MTTKRP_All_Method.Duplicated else MTTKRP_All_Method.Iterated),
     out).
Proof.
  intros Hc Hcuda Hm Ha. unfold fixup. rewrite Hcuda.
  assert (fixup_default_mttkrp space_prop p
          = set_mttkrp_method p MTTKRP_Method.Single) as ->.
  { unfold fixup_default_mttkrp.
    rewrite bool_decide_eq_true_2 by exact Hm. by rewrite Hc. }
  unfold fixup_default_mttkrp_all.
  rewrite bool_decide_eq_true_2 by exact Ha.
  rewrite Hc, Hcuda. cbn [Z.eqb Pos.eqb andb].
  change (method (set_mttkrp_all_method
                    (set_mttkrp_method p MTTKRP_Method.Single)
                    MTTKRP_All_Method.Single)) with (method p).
  case_bool_decide; reflexivity.
Qed.

(** Off Cuda, [fixup] never touches a method the user chose and never
    prints. *)
Theorem fixup_keeps_explicit_off_cuda (p : AlgParams E) (out : list string) :
  is_cuda space_prop = false ->
  mttkrp_method p <> MTTKRP_Method.Default ->
  mttkrp_all_method p <> MTTKRP_All_Method.Default ->
  run_fixup p out = (p, out).
Proof.
  intros Hcuda Hm Ha. apply fixup_of_fixed_up.
  split; [assumption|]. split; [assumption|]. rewrite Hcuda. discriminate.
Qed.

End FixupInvariants.

(** A host with one thread. *)
Definition example_serial : SpaceProperties := mkSpaceProperties 1 false 0 8.

Lemma fixup_single_thread_mttkrp_all_witness :
  fixup example_MTTKRP_names example_MTTKRP_All_names example_serial
    (example_gcp_params MTTKRP_All_Method.Default) []
  = (set_mttkrp_all_method
       (set_mttkrp_method (example_gcp_params MTTKRP_All_Method.Default)
          MTTKRP_Method.Single)
       (if bool_decide
             (method (example_gcp_params MTTKRP_All_Method.Default)
              = Solver_Method.GCP_SGD)
        then MTTKRP_All_Method.Duplicated else MTTKRP_All_Method.Iterated),
     []).
Proof.
  apply (fixup_single_thread_mttkrp_all example_MTTKRP_names
           example_MTTKRP_All_names example_serial
           (example_gcp_params MTTKRP_All_Method.Default) []);
    reflexivity.
Defined.

Lemma fixup_keeps_explicit_off_cuda_witness :
  fixup example_MTTKRP_names example_MTTKRP_All_names example_serial
    (set_mttkrp_method (example_gcp_params MTTKRP_All_Method.Iterated)
       MTTKRP_Method.Perm) []
  = (set_mttkrp_method (example_gcp_params MTTKRP_All_Method.Iterated)
       MTTKRP_Method.Perm, []).
Proof.
  apply (fixup_keeps_explicit_off_cuda example_MTTKRP_names
           example_MTTKRP_All_names example_serial);
    [reflexivity|discriminate|discriminate].
Defined.

(** *** Command-line enumerations ([parse_ttb_enum], [parse_enum]) *)

Module Parse.

(** [std::find(args.begin(), args.end(), x)]: the position of the first
    occurrence, [None] for [args.end()]. *)
Fixpoint find (args : list string) (x : string) : option nat :=
  match args with
  | [] => None
  | a :: args => if String.eqb a x then Some 0%nat else S <$> find args x
  end.

(** [cl_arg.size() > 2 && cl_arg[0] == '-' && cl_arg[1] == '-'] *)
Definition has_dashes (cl_arg : string) : bool :=
  (2 <? String.length cl_arg)%nat
  && match String.get 0 cl_arg with
     | Some c => Ascii.eqb c "-"
     | None => false
     end
  && match String.get 1 cl_arg with
     | Some c => Ascii.eqb c "-"
     | None => false
     end.

(** [cl_arg.substr(2)] *)
Definition substr2 (cl_arg : string) : string :=
  String.substring 2 (String.length cl_arg - 2) cl_arg.

(** The flag as given or, if that is not found, without its ["--"]. *)
Definition find_flag (args : list string) (cl_arg : string) : option nat :=
  match find args cl_arg with
  | Some k => Some k
  | None => if has_dashes cl_arg then find args (substr2 cl_arg) else None
  end.

Section Enum.
Context {T : Type}.

(** [for (i = 0; i < num_values; ++i) if (arg_val == names[i]) return
    values[i];], the arrays as the functions that index them. *)
Fixpoint lookup_name (names : nat -> string) (values : nat -> T)
    (arg_val : string) (i todo : nat) : option T :=
  match todo with
  | O => None
  | S todo =>
      if String.eqb arg_val (names i) then Some (values i)
      else lookup_name names values arg_val (S i) todo
  end.

(** [names[0], names[1], ...] with [", "] between them. *)
Fixpoint list_names (names : nat -> string) (i todo : nat) : string :=
  match todo with
  | O => ""
  | S O => names i
  | S todo => (names i ++ ", " ++ list_names names (S i) todo)%string
  end.

Definition bad_input (cl_arg arg_val : string) (num_values : nat)
    (names : nat -> string) : string :=
  ("Bad input: " ++ cl_arg ++ " " ++ arg_val
   ++ ",  must be one of the values: " ++ list_names names 0 num_values
   ++ "." ++ String (Ascii.ascii_of_nat 10) "")%string.

(** [parse_ttb_enum]: the value, or the message [Genten::error] throws,
    and what is left of [args]. *)
Definition parse_ttb_enum (args : list string) (cl_arg : string)
    (default_value : T) (num_values : nat) (values : nat -> T)
    (names : nat -> string) : (string + T) * list string :=
  match find_flag args cl_arg with
  | Some k =>
      match args !! S k with
      | None => (inr default_value, delete k args)
      | Some arg_val =>
          let args := take k args ++ drop (S (S k)) args in
          match lookup_name names values arg_val 0 num_values with
          | Some v => (inr v, args)
          | None => (inl (bad_input cl_arg arg_val num_values names), args)
          end
      end
  | None => (inr default_value, args)
  end.

Definition invalid_enum (name : string) (num_types : nat)
    (names : nat -> string) : string :=
  ("Invalid enum choice " ++ name ++ ",  must be one of the values: "
   ++ list_names names 0 num_types ++ "."
   ++ String (Ascii.ascii_of_nat 10) "")%string.

(** [parse_enum<T>(name)] over [T::names], [T::types], [T::num_types]. *)
Definition parse_enum (num_types : nat) (names : nat -> string)
    (types : nat -> T) (name : string) : string + T :=
  match lookup_name names types name 0 num_types with
  | Some v => inr v
  | None => inl (invalid_enum name num_types names)
  end.

End Enum.

(** [Solver_Method::names] as the help text of the driver lists them. *)
Definition example_solver_names (i : nat) : string :=
  match i with
  | 0%nat => "cp-als"
  | 1%nat => "cp-opt"
  | 2%nat => "gcp-sgd"
  | _ => "gcp-opt"
  end%string.
Definition example_solver_types (i : nat) : Solver_Method.type :=
  match i with
  | 0%nat => Solver_Method.CP_ALS
  | 1%nat => Solver_Method.CP_OPT
  | 2%nat => Solver_Method.GCP_SGD
  | _ => Solver_Method.GCP_OPT
  end.

Example parse_method :
  parse_ttb_enum ["--rank"; "4"; "--method"; "gcp-sgd"; "--fuse"]%string
    "--method" Solver_Method.CP_ALS 4 example_solver_types example_solver_names
  = (inr Solver_Method.GCP_SGD, ["--rank"; "4"; "--fuse"]%string).
Proof. reflexivity. Qed.

Example parse_method_without_dashes :
  parse_ttb_enum ["method"; "cp-opt"]%string
    "--method" Solver_Method.CP_ALS 4 example_solver_types example_solver_names
  = (inr Solver_Method.CP_OPT, []).
Proof. reflexivity. Qed.

Example parse_method_bad :
  parse_ttb_enum ["--method"; "als"]%string
    "--method" Solver_Method.CP_ALS 4 example_solver_types example_solver_names
  = (inl ("Bad input: --method als,  must be one of the values: "
          ++ "cp-als, cp-opt, gcp-sgd, gcp-opt."
          ++ String (Ascii.ascii_of_nat 10) "")%string, []).
Proof. reflexivity. Qed.

Lemma find_None (args : list string) (x : string) :
  find args x = None <-> x ∉ args.
Proof.
  induction args as [|a args IH]; cbn.
  - split; [intros _; apply not_elem_of_nil|done].
  - destruct (String.eqb_spec a x) as [->|Hne].
    + split; [done|]. intros []. left.
    + rewrite fmap_None, IH, not_elem_of_cons.
      split; [intros H; split; [congruence|exact H]|intros [_ H]; exact H].
Qed.

Lemma find_app_first (pre post : list string) (x : string) :
  x ∉ pre -> find (pre ++ x :: post) x = Some (length pre).
Proof.
  induction pre as [|a pre IH]; cbn; intros Hx.
  - by rewrite String.eqb_refl.
  - apply not_elem_of_cons in Hx as [Hne Hx].
    destruct (String.eqb_spec a x) as [->|_]; [done|].
    by rewrite IH.
Qed.

Lemma find_Some (args : list string) (x : string) (k : nat) :
  find args x = Some k ->
  args !! k = Some x /\ x ∉ take k args.
Proof.
  revert k. induction args as [|a args IH]; cbn; intros k; [done|].
  destruct (String.eqb_spec a x) as [->|Hne].
  - intros [= <-]. split; [done|]. apply not_elem_of_nil.
  - intros Hk. apply fmap_Some in Hk as (k' & Hk' & ->).
    destruct (IH _ Hk') as [H1 H2]. split; [done|].
    cbn. rewrite not_elem_of_cons. auto.
Qed.

Lemma lookup_after_flag (pre post : list string) (x v : string) :
  (pre ++ x :: v :: post) !! S (length pre) = Some v.
Proof.
  rewrite lookup_app_r by lia.
  by replace (S (length pre) - length pre)%nat with 1%nat by lia.
Qed.

Lemma erase_flag_and_value (pre post : list string) (x v : string) :
  take (length pre) (pre ++ x :: v :: post)
  ++ drop (S (S (length pre))) (pre ++ x :: v :: post) = pre ++ post.
Proof.
  rewrite take_app_length, drop_app_ge by lia.
  by replace (S (S (length pre)) - length pre)%nat with 2%nat by lia.
Qed.

Section EnumFacts.
Context {T : Type}.

Lemma lookup_name_first (names : nat -> string) (values : nat -> T)
    (i j todo : nat) :
  (i <= j < i + todo)%nat ->
  (forall k, (i <= k < j)%nat -> names k <> names j) ->
  lookup_name names values (names j) i todo = Some (values j).
Proof.
  revert i. induction todo as [|todo IH]; intros i Hj Hfirst; [lia|].
  cbn. destruct (String.eqb_spec (names j) (names i)) as [Heq|Hne].
  - destruct (decide (i = j)) as [->|Hij]; [done|].
    exfalso. apply (Hfirst i); [lia|done].
  - apply IH; [|intros k Hk; apply Hfirst; lia].
    destruct (decide (i = j)) as [->|Hij]; [done|lia].
Qed.

Lemma lookup_name_None (names : nat -> string) (values : nat -> T)
    (arg_val : string) (i todo : nat) :
  (forall k, (i <= k < i + todo)%nat -> names k <> arg_val) ->
  lookup_name names values arg_val i todo = None.
Proof.
  revert i. induction todo as [|todo IH]; intros i Hno; [done|].
  cbn. destruct (String.eqb_spec arg_val (names i)) as [Heq|Hne].
  - exfalso. apply (Hno i); [lia|done].
  - apply IH. intros k Hk. apply Hno. lia.
Qed.

(** A flag followed by one of the names: the value of the first entry of
    [names] that equals it is returned, and the flag and its value, where
    the flag first occurs, are taken out of [args]. *)
Theorem parse_ttb_enum_present (pre post : list string) (cl_arg : string)
    (default_value : T) (num_values : nat) (values : nat -> T)
    (names : nat -> string) (i : nat) :
  cl_arg ∉ pre ->
  (i < num_values)%nat ->
  (forall k, (k < i)%nat -> names k <> names i) ->
  parse_ttb_enum (pre ++ cl_arg :: names i :: post) cl_arg default_value
    num_values values names
  = (inr (values i), pre ++ post).
Proof.
  intros Hpre Hi Hfirst. unfold parse_ttb_enum, find_flag.
  rewrite find_app_first by done.
  rewrite lookup_after_flag, erase_flag_and_value.
  by rewrite (lookup_name_first names values 0 i num_values)
    by (try lia; intros k Hk; apply Hfirst; lia).
Qed.

(** Without the flag (in either spelling) [args] is left alone; a flag
    that ends [args] is taken out; a value that is none of the names is
    an error, after the flag and the value were taken out.  In the first
    two cases the default is returned. *)
Theorem parse_ttb_enum_edges (cl_arg : string)
    (default_value : T) (num_values : nat) (values : nat -> T)
    (names : nat -> string) :
  (forall args,
     cl_arg ∉ args -> (has_dashes cl_arg = true -> substr2 cl_arg ∉ args) ->
     parse_ttb_enum args cl_arg default_value num_values values names
     = (inr default_value, args)) /\
  (forall pre,
     cl_arg ∉ pre ->
     parse_ttb_enum (pre ++ [cl_arg]) cl_arg default_value num_values
       values names
     = (inr default_value, pre)) /\
  (forall pre post arg_val,
     cl_arg ∉ pre ->
     (forall k, (k < num_values)%nat -> names k <> arg_val) ->
     parse_ttb_enum (pre ++ cl_arg :: arg_val :: post) cl_arg default_value
       num_values values names
     = (inl (bad_input cl_arg arg_val num_values names), pre ++ post)).
Proof.
  split; [|split].
  - intros args Hno Hno2. unfold parse_ttb_enum, find_flag.
    rewrite (proj2 (find_None args cl_arg)) by done.
    destruct (has_dashes cl_arg); [|done].
    by rewrite (proj2 (find_None args _)) by auto.
  - intros pre Hpre. unfold parse_ttb_enum, find_flag.
    rewrite find_app_first by done.
    rewrite lookup_ge_None_2 by (rewrite length_app; cbn; lia).
    f_equal. rewrite delete_take_drop, take_app_length.
    rewrite drop_app_ge by lia.
    replace (S (length pre) - length pre)%nat with 1%nat by lia.
    cbn. by rewrite app_nil_r.
  - intros pre post arg_val Hpre Hno. unfold parse_ttb_enum, find_flag.
    rewrite find_app_first by done.
    rewrite lookup_after_flag, erase_flag_and_value.
    by rewrite lookup_name_None by (intros k Hk; apply Hno; lia).
Qed.

(** [parse_enum] inverts [names]: where the names are distinct, the name
    of an enumerator gives the enumerator back; a string that is none of
    the names is an error. *)
Theorem parse_enum_names (num_types : nat) (names : nat -> string)
    (types : nat -> T) :
  (forall i j, (i < j < num_types)%nat -> names i <> names j) ->
  (forall i, (i < num_types)%nat ->
     parse_enum num_types names types (names i) = inr (types i)) /\
  (forall name,
     (forall i, (i < num_types)%nat -> names i <> name) ->
     parse_enum num_types names types name
     = inl (invalid_enum name num_types names)).
Proof.
  intros Hinj. split.
  - intros i Hi. unfold parse_enum.
    rewrite (lookup_name_first names types 0 i num_types); [done|lia|].
    intros k Hk. apply Hinj. lia.
  - intros name Hno. unfold parse_enum.
    rewrite lookup_name_None; [done|]. intros k Hk. apply Hno. lia.
Qed.

End EnumFacts.

Lemma parse_ttb_enum_present_witness :
  parse_ttb_enum
    (["--rank"; "4"]%string
     ++ "--method"%string :: example_solver_names 2 :: ["--fuse"%string])
    "--method" Solver_Method.CP_ALS 4 example_solver_types example_solver_names
  = (inr (example_solver_types 2),
     ["--rank"; "4"]%string ++ ["--fuse"%string]).
Proof.
  apply (parse_ttb_enum_present ["--rank"; "4"]%string ["--fuse"]%string
           "--method" Solver_Method.CP_ALS 4 example_solver_types
           example_solver_names 2).
  - intros H. repeat (apply elem_of_cons in H as [H|H]; [discriminate|]).
    by apply elem_of_nil in H.
  - lia.
  - intros k Hk. destruct k as [|[|k]]; [discriminate|discriminate|lia].
Defined.

Lemma parse_enum_names_witness :
  (forall i, (i < 4)%nat ->
     parse_enum 4 example_solver_names example_solver_types
       (example_solver_names i) = inr (example_solver_types i)) /\
  (forall name,
     (forall i, (i < 4)%nat -> example_solver_names i <> name) ->
     parse_enum 4 example_solver_names example_solver_types name
     = inl (invalid_enum name 4 example_solver_names)).
Proof.
  apply (parse_enum_names 4 example_solver_names example_solver_types).
  intros i j Hij.
  destruct i as [|[|[|i]]], j as [|[|[|[|j]]]]; try lia; discriminate.
Defined.

End Parse.

(** ** Sparse tensors (Genten_Sptensor.hpp) *)

(** [siz] are the mode sizes, row [i] of [subs] the coordinates of the
    [i]-th nonzero and [values] its value. *)
Record SptensorT (E : Type) : Type := mkSptensor {
  siz : list Z;
  subs : list (list Z);
  values : list E;
  is_sorted : bool
}.
Arguments mkSptensor {E}.
Arguments siz {E}.
Arguments subs {E}.
Arguments values {E}.
Arguments is_sorted {E}.

Definition nnz {E} (X : SptensorT E) : Z := Z.of_nat (length (values X)).
Definition ndims {E} (X : SptensorT E) : Z := Z.of_nat (length (siz X)).

(** ** The semi-stratified sampler (Genten_GCP_SemiStratifiedSampler.hpp) *)

Module SemiStratified.

(** The sample counts and weights the constructor settles. *)
Record Sampler (E : Type) : Type := mkSampler {
  X : SptensorT E;
  algParams : AlgParams E;
  s_num_samples_nonzeros_value : Z;
  s_num_samples_zeros_value : Z;
  s_num_samples_nonzeros_grad : Z;
  s_num_samples_zeros_grad : Z;
  weight_nonzeros_value : E;
  weight_zeros_value : E;
  weight_nonzeros_grad : E;
  weight_zeros_grad : E
}.
Arguments mkSampler {E}.
Arguments X {E}.
Arguments algParams {E}.
Arguments s_num_samples_nonzeros_value {E}.
Arguments s_num_samples_zeros_value {E}.
Arguments s_num_samples_nonzeros_grad {E}.
Arguments s_num_samples_zeros_grad {E}.
Arguments weight_nonzeros_value {E}.
Arguments weight_zeros_value {E}.
Arguments weight_nonzeros_grad {E}.
Arguments weight_zeros_grad {E}.

Section Constructor.
Context {E : Type} `{Real E}.
(** [IndxArray::prod_float], the product of the sizes as a [ttb_real];
    [SptensorT::numel_float] returns it. *)
Variable prod_float : list Z -> E.

Definition numel_float (X : SptensorT E) : E := prod_float (siz X).

(** [std::max((nnz+99)/100, ttb_indx(100000))] *)
Definition ftmp (nnz : Z) : Z := Z.max (indx_add nnz 99 / 100) 100000.

(** [std::max((3*nnz+maxEpochs-1)/maxEpochs, ttb_indx(1000))] *)
Definition gtmp (nnz maxEpochs : Z) : Z :=
  Z.max (indx_sub (indx_add (indx_mul 3 nnz) maxEpochs) 1 / maxEpochs) 1000.

(** The constructor.  [gtmp] divides by [maxEpochs] whatever the counts
    are: with [maxiters = 0] the construction has no result. *)
Definition SemiStratifiedSampler (X_ : SptensorT E) (algParams_ : AlgParams E)
    : option (Sampler E) :=
  let nnz := nnz X_ in
  let tsz := numel_float X_ in
  let nz := rsub tsz (of_Z nnz) in
  let maxEpochs := maxiters algParams_ in
  if maxEpochs =? 0 then None else
  let ftmp := ftmp nnz in
  let gtmp := gtmp nnz maxEpochs in
  let num_samples_nonzeros_value :=
    if num_samples_nonzeros_value algParams_ =? 0 then Z.min ftmp nnz
    else num_samples_nonzeros_value algParams_ in
  let num_samples_zeros_value :=
    if num_samples_zeros_value algParams_ =? 0
    then to_indx (rmin (of_Z num_samples_nonzeros_value) nz)
    else num_samples_zeros_value algParams_ in
  let num_samples_nonzeros_grad :=
    if num_samples_nonzeros_grad algParams_ =? 0 then Z.min gtmp nnz
    else num_samples_nonzeros_grad algParams_ in
  let num_samples_zeros_grad :=
    if num_samples_zeros_grad algParams_ =? 0
    then to_indx (rmin (of_Z num_samples_nonzeros_grad) nz)
    else num_samples_zeros_grad algParams_ in
  let weight_nonzeros_value :=
    if rltb (w_f_nz algParams_) (of_Z 0)
    then rdiv (of_Z nnz) (of_Z num_samples_nonzeros_value)
    else w_f_nz algParams_ in
  let weight_zeros_value :=
    if rltb (w_f_z algParams_) (of_Z 0)
    then rdiv (rsub tsz (of_Z nnz)) (of_Z num_samples_zeros_value)
    else w_f_z algParams_ in
  let weight_nonzeros_grad :=
    if rltb (w_g_nz algParams_) (of_Z 0)
    then rdiv (of_Z nnz) (of_Z num_samples_nonzeros_grad)
    else w_g_nz algParams_ in
  let weight_zeros_grad :=
    if rltb (w_g_z algParams_) (of_Z 0)
    then rdiv tsz (of_Z num_samples_zeros_grad)
    else w_g_z algParams_ in
  Some (mkSampler X_ algParams_
          num_samples_nonzeros_value num_samples_zeros_value
          num_samples_nonzeros_grad num_samples_zeros_grad
          weight_nonzeros_value weight_zeros_value
          weight_nonzeros_grad weight_zeros_grad).

End Constructor.

(** The least integer not below [a / b]. *)
Definition ceil_div (a b : Z) : Z := - (- a / b).

(** The product of the sizes, multiplied up from [1.0]. *)
Definition example_prod_float `{Real E} (sz : list Z) : E :=
  fold_left (fun acc d => rmul acc (of_Z d)) sz (of_Z 1).

Definition b64 (z : Z) : binary64 := of_Z z.

(** The 10 x 10 x 10 tensor of the scenario, 500 nonzeros. *)
Definition example_tensor : SptensorT binary64 :=
  mkSptensor [10; 10; 10] (repeat [0; 0; 0] 500) (repeat (b64 1) 500) false.

(** [max_epochs = 50], every count and weight left to the constructor. *)
Definition example_unspecified : AlgParams binary64 :=
  mkAlgParams Solver_Method.GCP_SGD 2 50 MTTKRP_Method.Default
    MTTKRP_All_Method.Default GCP_Sampling.SemiStratified 10
    0 0 0 0 (b64 (-1)) (b64 (-1)) (b64 (-1)) (b64 (-1)) false true.

Example sampler_defaults_scenario :
  SemiStratifiedSampler example_prod_float example_tensor example_unspecified
  = Some (mkSampler example_tensor example_unspecified
            500 500 500 500 (b64 1) (b64 1) (b64 1) (b64 2)).
Proof. vm_compute. reflexivity. Qed.


Lemma ceil_div_spec a b : 0 < b -> (a + b - 1) / b = ceil_div a b.
Proof.
  intros Hb. unfold ceil_div.
  pose proof (Z.div_mod (a + b - 1) b ltac:(lia)).
  pose proof (Z.mod_pos_bound (a + b - 1) b Hb).
  pose proof (Z.div_mod (- a) b ltac:(lia)).
  pose proof (Z.mod_pos_bound (- a) b Hb).
  nia.
Qed.

Lemma ceil_div_bounds a b :
  0 < b -> b * (ceil_div a b - 1) < a <= b * ceil_div a b.
Proof.
  intros Hb. unfold ceil_div.
  pose proof (Z.div_mod (- a) b ltac:(lia)).
  pose proof (Z.mod_pos_bound (- a) b Hb).
  nia.
Qed.

Section ConstructorFacts.
Context {E : Type} `{ExactIntegers E}.
Variable prod_float : list Z -> E.

Lemma nnz_nonneg (X_ : SptensorT E) : 0 <= nnz X_.
Proof. unfold nnz. lia. Qed.

Lemma ftmp_no_wrap n :
  0 <= n -> n + 99 < 2 ^ 64 -> ftmp n = Z.max (ceil_div n 100) 100000.
Proof.
  intros Hn Hlt. unfold ftmp, indx_add.
  rewrite indx_wrap_small by lia.
  replace (n + 99) with (n + 100 - 1) by lia.
  rewrite ceil_div_spec by lia. reflexivity.
Qed.

Lemma gtmp_no_wrap n maxEpochs :
  0 <= n -> 0 < maxEpochs -> 3 * n + maxEpochs - 1 < 2 ^ 64 ->
  gtmp n maxEpochs = Z.max (ceil_div (3 * n) maxEpochs) 1000.
Proof.
  intros Hn Hm Hlt. unfold gtmp, indx_sub, indx_add, indx_mul, indx_wrap.
  rewrite Zplus_mod_idemp_l, Zminus_mod_idemp_l.
  rewrite Z.mod_small by lia.
  rewrite ceil_div_spec by lia. reflexivity.
Qed.

(** C4. With [maxiters > 0] and no [ttb_indx] overflow, every sample count
    left at zero gets its default: the nonzero counts are
    [max(ceil(nnz/100), 100000)] and [max(ceil(3 nnz/maxEpochs), 1000)],
    both capped at [nnz]; each zero count is the minimum, taken and
    truncated in [ttb_real], of its settled nonzero count and [tsz - nnz].
    Where the tensor size [tsz] is an integer [N] below [2^53], and the
    nonzero count is below [2^53] too, that is the integer minimum of the
    nonzero count and the number [N - nnz] of implicit zeros. *)
Theorem sampler_default_counts (X_ : SptensorT E) (p : AlgParams E) :
  0 < maxiters p ->
  3 * nnz X_ + maxiters p - 1 < 2 ^ 64 ->
  exists s,
    SemiStratifiedSampler prod_float X_ p = Some s /\
    (num_samples_nonzeros_value p = 0 ->
     s_num_samples_nonzeros_value s
     = Z.min (Z.max (ceil_div (nnz X_) 100) 100000) (nnz X_)) /\
    (num_samples_zeros_value p = 0 ->
     s_num_samples_zeros_value s
     = to_indx (rmin (of_Z (s_num_samples_nonzeros_value s))
                  (rsub (numel_float prod_float X_) (of_Z (nnz X_)))) /\
     forall N,
       numel_float prod_float X_ = of_Z N -> nnz X_ <= N < 2 ^ 53 ->
       0 <= s_num_samples_nonzeros_value s < 2 ^ 53 ->
       s_num_samples_zeros_value s
       = Z.min (s_num_samples_nonzeros_value s) (N - nnz X_)) /\
    (num_samples_nonzeros_grad p = 0 ->
     s_num_samples_nonzeros_grad s
     = Z.min (Z.max (ceil_div (3 * nnz X_) (maxiters p)) 1000) (nnz X_)) /\
    (num_samples_zeros_grad p = 0 ->
     s_num_samples_zeros_grad s
     = to_indx (rmin (of_Z (s_num_samples_nonzeros_grad s))
                  (rsub (numel_float prod_float X_) (of_Z (nnz X_)))) /\
     forall N,
       numel_float prod_float X_ = of_Z N -> nnz X_ <= N < 2 ^ 53 ->
       0 <= s_num_samples_nonzeros_grad s < 2 ^ 53 ->
       s_num_samples_zeros_grad s
       = Z.min (s_num_samples_nonzeros_grad s) (N - nnz X_)).
Proof.
  intros Hmax Hfit. pose proof (nnz_nonneg X_) as Hn.
  unfold SemiStratifiedSampler.
  destruct (Z.eqb_spec (maxiters p) 0) as [?|_]; [lia|].
  eexists. split; [reflexivity|]. cbn [s_num_samples_nonzeros_value
    s_num_samples_zeros_value s_num_samples_nonzeros_grad
    s_num_samples_zeros_grad].
  rewrite ftmp_no_wrap, gtmp_no_wrap by lia.
  split; [intros ->; reflexivity|].
  split; [intros ->; split; [reflexivity|]|].
  { intros N HN HNb Hc. rewrite HN. apply to_indx_rmin_of_Z; lia. }
  split; [intros ->; reflexivity|].
  intros ->; split; [reflexivity|].
  intros N HN HNb Hc. rewrite HN. apply to_indx_rmin_of_Z; lia.
Qed.

(** C5 as the code has it.  A negative weight is replaced by population
    over sample count; the population is [nnz] for the nonzero strata,
    [tsz - nnz] for the zeros of the value estimate and the whole tensor
    [tsz] for the zeros of the gradient. *)
Theorem sampler_default_weights (X_ : SptensorT E) (p : AlgParams E)
    (s : Sampler E) :
  SemiStratifiedSampler prod_float X_ p = Some s ->
  (rltb (w_f_nz p) (of_Z 0) = true ->
   weight_nonzeros_value s
   = rdiv (of_Z (nnz X_)) (of_Z (s_num_samples_nonzeros_value s))) /\
  (rltb (w_f_z p) (of_Z 0) = true ->
   weight_zeros_value s
   = rdiv (rsub (numel_float prod_float X_) (of_Z (nnz X_)))
       (of_Z (s_num_samples_zeros_value s))) /\
  (rltb (w_g_nz p) (of_Z 0) = true ->
   weight_nonzeros_grad s
   = rdiv (of_Z (nnz X_)) (of_Z (s_num_samples_nonzeros_grad s))) /\
  (rltb (w_g_z p) (of_Z 0) = true ->
   weight_zeros_grad s
   = rdiv (numel_float prod_float X_) (of_Z (s_num_samples_zeros_grad s))).
Proof.
  unfold SemiStratifiedSampler.
  destruct (maxiters p =? 0); [discriminate|].
  intros [= <-]. cbn [weight_nonzeros_value weight_zeros_value
    weight_nonzeros_grad weight_zeros_grad s_num_samples_nonzeros_value
    s_num_samples_zeros_value s_num_samples_nonzeros_grad
    s_num_samples_zeros_grad].
  repeat split; intros ->; reflexivity.
Qed.

End ConstructorFacts.

(** The counts of C4 at the scenario tensor. *)
Lemma sampler_default_counts_witness :
  exists s,
    SemiStratifiedSampler example_prod_float example_tensor
      example_unspecified = Some s /\
    (num_samples_nonzeros_value example_unspecified = 0 ->
     s_num_samples_nonzeros_value s
     = Z.min (Z.max (ceil_div (nnz example_tensor) 100) 100000)
         (nnz example_tensor)) /\
    (num_samples_zeros_value example_unspecified = 0 ->
     s_num_samples_zeros_value s
     = to_indx (rmin (of_Z (s_num_samples_nonzeros_value s))
                  (rsub (numel_float example_prod_float example_tensor)
                     (of_Z (nnz example_tensor)))) /\
     forall N,
       numel_float example_prod_float example_tensor = of_Z N ->
       nnz example_tensor <= N < 2 ^ 53 ->
       0 <= s_num_samples_nonzeros_value s < 2 ^ 53 ->
       s_num_samples_zeros_value s
       = Z.min (s_num_samples_nonzeros_value s) (N - nnz example_tensor)) /\
    (num_samples_nonzeros_grad example_unspecified = 0 ->
     s_num_samples_nonzeros_grad s
     = Z.min (Z.max (ceil_div (3 * nnz example_tensor)
                       (maxiters example_unspecified)) 1000)
         (nnz example_tensor)) /\
    (num_samples_zeros_grad example_unspecified = 0 ->
     s_num_samples_zeros_grad s
     = to_indx (rmin (of_Z (s_num_samples_nonzeros_grad s))
                  (rsub (numel_float example_prod_float example_tensor)
                     (of_Z (nnz example_tensor)))) /\
     forall N,
       numel_float example_prod_float example_tensor = of_Z N ->
       nnz example_tensor <= N < 2 ^ 53 ->
       0 <= s_num_samples_nonzeros_grad s < 2 ^ 53 ->
       s_num_samples_zeros_grad s
       = Z.min (s_num_samples_nonzeros_grad s) (N - nnz example_tensor)).
Proof.
  apply (sampler_default_counts example_prod_float example_tensor
           example_unspecified); vm_compute; reflexivity.
Defined.

(** The weights of C5 at the scenario tensor. *)
Lemma sampler_default_weights_witness :
  let s := mkSampler example_tensor example_unspecified
             500 500 500 500 (b64 1) (b64 1) (b64 1) (b64 2) in
  (rltb (w_f_nz example_unspecified) (of_Z 0) = true ->
   weight_nonzeros_value s
   = rdiv (of_Z (nnz example_tensor))
       (of_Z (s_num_samples_nonzeros_value s))) /\
  (rltb (w_f_z example_unspecified) (of_Z 0) = true ->
   weight_zeros_value s
   = rdiv (rsub (numel_float example_prod_float example_tensor)
             (of_Z (nnz example_tensor)))
       (of_Z (s_num_samples_zeros_value s))) /\
  (rltb (w_g_nz example_unspecified) (of_Z 0) = true ->
   weight_nonzeros_grad s
   = rdiv (of_Z (nnz example_tensor))
       (of_Z (s_num_samples_nonzeros_grad s))) /\
  (rltb (w_g_z example_unspecified) (of_Z 0) = true ->
   weight_zeros_grad s
   = rdiv (numel_float example_prod_float example_tensor)
       (of_Z (s_num_samples_zeros_grad s))).
Proof.
  apply (sampler_default_weights example_prod_float example_tensor
           example_unspecified).
  vm_compute. reflexivity.
Defined.

(** C5 as stated fails for the zeros of the gradient: at the scenario
    tensor (1000 entries, 500 nonzeros, 500 zero samples) the unspecified
    weight becomes 1000/500 = 2, not (1000 - 500)/500 = 1. *)
Lemma sampler_zero_grad_weight_counterexample :
  exists s,
    SemiStratifiedSampler example_prod_float example_tensor
      example_unspecified = Some s /\
    rltb (w_g_z example_unspecified) (of_Z 0) = true /\
    weight_zeros_grad s = b64 2 /\
    rdiv (rsub (numel_float example_prod_float example_tensor)
            (of_Z (nnz example_tensor)))
      (of_Z (s_num_samples_zeros_grad s)) = b64 1 /\
    weight_zeros_grad s
    <> rdiv (rsub (numel_float example_prod_float example_tensor)
               (of_Z (nnz example_tensor)))
         (of_Z (s_num_samples_zeros_grad s)).
Proof.
  eexists. split; [apply sampler_defaults_scenario|].
  split; [reflexivity|]. split; [reflexivity|].
  split; [vm_compute; reflexivity|]. vm_compute. discriminate.
Qed.

(** *** A tensor without implicit zeros *)

Lemma default_nonzero_count_bounds (c d n : Z) :
  0 <= n < 2 ^ 53 -> 0 < d -> 0 <= c < 2 ^ 53 ->
  0 <= (if c =? 0 then Z.min d n else c) < 2 ^ 53.
Proof. intros Hn Hd Hc. destruct (c =? 0); lia. Qed.

(** Where the tensor holds every entry ([tsz = nnz], no implicit zero)
    and the zero counts and weights are left to the constructor, both
    zero counts are 0, [weight_zeros_value] is [0/0], a NaN, and
    [weight_zeros_grad] is [tsz/0], plus infinity. *)
Theorem sampler_dense_zero_weights (prod_float : list Z -> binary64)
    (X_ : SptensorT binary64) (p : AlgParams binary64) :
  maxiters p <> 0 -> 0 < nnz X_ < 2 ^ 53 ->
  numel_float prod_float X_ = of_Z (nnz X_) ->
  0 <= num_samples_nonzeros_value p < 2 ^ 53 ->
  0 <= num_samples_nonzeros_grad p < 2 ^ 53 ->
  num_samples_zeros_value p = 0 -> num_samples_zeros_grad p = 0 ->
  rltb (w_f_z p) (of_Z 0) = true -> rltb (w_g_z p) (of_Z 0) = true ->
  exists s,
    SemiStratifiedSampler prod_float X_ p = Some s /\
    s_num_samples_zeros_value s = 0 /\
    s_num_samples_zeros_grad s = 0 /\
    weight_zeros_value s = S754_nan /\
    weight_zeros_grad s = S754_infinity false.
Proof.
  intros Hmax Hn Htsz Hcv Hcg Hzv Hzg Hwv Hwg.
  unfold SemiStratifiedSampler.
  destruct (Z.eqb_spec (maxiters p) 0) as [?|_]; [done|].
  eexists. split; [reflexivity|].
  cbn [s_num_samples_zeros_value s_num_samples_zeros_grad
       weight_zeros_value weight_zeros_grad].
  rewrite Hzv, Hzg, Hwv, Hwg, Htsz. cbn [Z.eqb].
  assert (0 < ftmp (nnz X_)) as Hf by (unfold ftmp; lia).
  assert (0 < gtmp (nnz X_) (maxiters p)) as Hg by (unfold gtmp; lia).
  pose proof (default_nonzero_count_bounds
                (num_samples_nonzeros_value p) _ (nnz X_)
                ltac:(lia) Hf Hcv) as Hv.
  pose proof (default_nonzero_count_bounds
                (num_samples_nonzeros_grad p) _ (nnz X_)
                ltac:(lia) Hg Hcg) as Hgr.
  rewrite !to_indx_rmin_of_Z by lia.
  rewrite Z.sub_diag, !Z.min_r by lia.
  split; [done|]. split; [done|].
  split.
  - rewrite rsub_of_Z by lia. by rewrite Z.sub_diag.
  - destruct (nnz X_) as [|n|n]; [lia| |lia].
    change (of_Z (Z.pos n) : binary64) with (b64_of_Z (Z.pos n)).
    by rewrite B64.b64_of_pos by lia.
Qed.

(** A full 2 x 2 tensor. *)
Definition example_dense : SptensorT binary64 :=
  mkSptensor [2; 2] [[0; 0]; [0; 1]; [1; 0]; [1; 1]]
    [b64 1; b64 2; b64 3; b64 4] true.

Lemma sampler_dense_zero_weights_witness :
  exists s,
    SemiStratifiedSampler example_prod_float example_dense example_unspecified
    = Some s /\
    s_num_samples_zeros_value s = 0 /\
    s_num_samples_zeros_grad s = 0 /\
    weight_zeros_value s = S754_nan /\
    weight_zeros_grad s = S754_infinity false.
Proof.
  apply (sampler_dense_zero_weights example_prod_float example_dense
           example_unspecified);
    try reflexivity; try (cbn; lia); done.
Defined.

End SemiStratified.

(** *** Looking a subscript up ([SptensorT::index],
    [sorted_lower_bound], [isSubscriptEqual]) *)

Module Sptensor.

(** What a lookup can do: return, call [Kokkos::abort], or keep
    looping (the fuel ran out). *)
Inductive outcome : Type :=
| Value (i : nat)
| Aborted
| OutOfFuel.

Section Index.
Context {E : Type}.
Variable X : SptensorT E.

(** [subs.extent(1)], the length every row of the two-dimensional view
    [subs] has. *)
Variable nd : nat.

(** [subs.extent(0)] and [subs(i,n)].  Row positions stay within
    [0 .. nz], so that no [ttb_indx] operation on them wraps; they are
    naturals here. *)
Definition nz : nat := length (subs X).
Definition sub (i n : nat) : Z := (subs X !!! i) !!! n.

(** [while ((n < nd) && (subs(i,n) == b[n])) ++n;] from [n]. *)
Fixpoint skip_equal (i : nat) (b : list Z) (fuel n : nat) : nat :=
  match fuel with
  | O => n
  | S fuel =>
      if (n <? nd)%nat && (sub i n =? b !!! n)
      then skip_equal i b fuel (S n)
      else n
  end.

(** The lambda [less] of [sorted_lower_bound]. *)
Definition less (i : nat) (b : list Z) : bool :=
  let n := skip_equal i b nd 0 in
  if (n =? nd)%nat || (b !!! n <=? sub i n) then false else true.

(** The [while (count > 0)] loop. *)
Fixpoint lower_bound_loop (fuel : nat) (ind : list Z) (first count : nat)
    : option nat :=
  match fuel with
  | O => None
  | S fuel =>
      if (0 <? count)%nat then
        let step := (count / 2)%nat in
        let i := (first + step)%nat in
        if less i ind
        then lower_bound_loop fuel ind (S i) (count - (step + 1))%nat
        else lower_bound_loop fuel ind first step
      else Some first
  end.

Definition sorted_lower_bound (fuel : nat) (ind : list Z) (start : nat)
    : outcome :=
  if negb (is_sorted X) then Aborted
  else if (nz <=? start)%nat then Value start
  else
    match lower_bound_loop fuel ind start (nz - start) with
    | Some first => Value first
    | None => OutOfFuel
    end.

Definition isSubscriptEqual (i : nat) (sub_ : list Z) : bool :=
  if (nz <=? i)%nat then false
  else (skip_equal i sub_ nd 0 =? nd)%nat.

(** The inner loop of the unsorted branch of [index]:
    [t = t && (ind[j] == subs(i,j))] until [t] is false. *)
Fixpoint row_matches (i : nat) (ind : list Z) (todo j : nat) : bool :=
  match todo with
  | O => true
  | S todo =>
      if ind !!! j =? sub i j then row_matches i ind todo (S j) else false
  end.

(** Its outer loop, from row [i]. *)
Fixpoint index_scan (ind : list Z) (todo i : nat) : nat :=
  match todo with
  | O => i
  | S todo =>
      if row_matches i ind nd 0 then i else index_scan ind todo (S i)
  end.

Definition index (fuel : nat) (ind : list Z) : outcome :=
  if negb (is_sorted X) then Value (index_scan ind nz 0)
  else
    match sorted_lower_bound fuel ind 0 with
    | Value idx => if isSubscriptEqual idx ind then Value idx else Value nz
    | r => r
    end.

End Index.

(** A 3 x 3 x 3 tensor with four nonzeros, sorted. *)
Definition example_sorted : SptensorT Z :=
  mkSptensor [3; 3; 3] [[0; 0; 1]; [0; 2; 0]; [1; 1; 1]; [2; 0; 0]]
    [10; 20; 30; 40] true.

Example index_found : index example_sorted 3 10 [1; 1; 1] = Value 2.
Proof. reflexivity. Qed.

Example index_missing : index example_sorted 3 10 [1; 0; 2] = Value 4.
Proof. reflexivity. Qed.

Example lower_bound_missing :
  sorted_lower_bound example_sorted 3 10 [1; 0; 2] 0 = Value 2.
Proof. reflexivity. Qed.

(** The flag is trusted: rows out of order under [is_sorted] hide an
    entry from the binary search that the scan finds. *)
Example index_trusts_flag :
  let rows := [[2; 0; 0]; [1; 1; 1]; [0; 2; 0]; [0; 0; 1]] in
  index (mkSptensor [3; 3; 3] rows [10; 20; 30; 40] true) 3 10 [2; 0; 0]
  = Value 4 /\
  index (mkSptensor [3; 3; 3] rows [10; 20; 30; 40] false) 3 10 [2; 0; 0]
  = Value 0.
Proof. split; reflexivity. Qed.


(** *** The order of subscripts *)

(** [a] comes before [b]: at the first position where they differ [a] is
    smaller. *)
Definition lex_lt (a b : list Z) : Prop :=
  exists n x y,
    take n a = take n b /\ a !! n = Some x /\ b !! n = Some y /\ x < y.

Lemma lex_lt_cons (x y : Z) (a b : list Z) :
  lex_lt (x :: a) (y :: b) <-> x < y \/ (x = y /\ lex_lt a b).
Proof.
  split.
  - intros (n & u & v & Ht & Ha & Hb & Huv). destruct n as [|n].
    + cbn in Ha, Hb. left. congruence.
    + cbn in Ht, Ha, Hb. injection Ht as -> Ht. right.
      split; [done|]. by exists n, u, v.
  - intros [Hlt|[-> (n & u & v & Ht & Ha & Hb & Huv)]].
    + by exists 0%nat, x, y.
    + exists (S n), u, v. cbn. by rewrite Ht.
Qed.

Lemma lex_lt_nil_l (b : list Z) : ~ lex_lt [] b.
Proof. intros (n & u & v & _ & Ha & _). by destruct n. Qed.

Lemma lex_lt_nil_r (a : list Z) : ~ lex_lt a [].
Proof. intros (n & u & v & _ & _ & Hb & _). by destruct n. Qed.

Lemma lex_lt_irrefl (a : list Z) : ~ lex_lt a a.
Proof. intros (n & u & v & _ & Ha & Hb & Huv). simplify_eq. lia. Qed.

Lemma lex_lt_trans (a b c : list Z) : lex_lt a b -> lex_lt b c -> lex_lt a c.
Proof.
  revert b c. induction a as [|x a IH]; intros b c Hab Hbc.
  - by apply lex_lt_nil_l in Hab.
  - destruct b as [|y b]; [by apply lex_lt_nil_r in Hab|].
    destruct c as [|z c]; [by apply lex_lt_nil_r in Hbc|].
    apply lex_lt_cons in Hab, Hbc. apply lex_lt_cons.
    destruct Hab as [?|[-> Hab]], Hbc as [?|[-> Hbc]];
      [left; lia|left; lia|left; lia|].
    right. split; [done|]. by apply (IH b).
Qed.

Lemma lex_lt_trichotomy (a b : list Z) :
  length a = length b -> lex_lt a b \/ a = b \/ lex_lt b a.
Proof.
  revert b. induction a as [|x a IH]; intros [|y b] Hlen; try done.
  - by right; left.
  - injection Hlen as Hlen. setoid_rewrite lex_lt_cons.
    destruct (Z.lt_trichotomy x y) as [?|[->|?]]; [by left; left| |by right; right; left].
    destruct (IH b Hlen) as [?|[->|?]];
      [left; by right|right; by left|right; right; by right].
Qed.

(** Rows in ascending order, equal rows allowed. *)
Definition rows_sorted (rows : list (list Z)) : Prop :=
  forall i j ri rj,
    (i < j)%nat -> rows !! i = Some ri -> rows !! j = Some rj ->
    ~ lex_lt rj ri.

Section IndexFacts.
Context {E : Type}.
Variable X : SptensorT E.
Variable nd : nat.
Hypothesis rows_nd : Forall (fun r => length r = nd) (subs X).

Lemma row_length (i : nat) (r : list Z) :
  subs X !! i = Some r -> length r = nd.
Proof using rows_nd. intros Hr. by apply (Forall_lookup_1 _ _ _ _ rows_nd Hr). Qed.

(** Where the scan over a row stops. *)
Lemma skip_equal_spec (i : nat) (r b : list Z) (fuel n : nat) :
  subs X !! i = Some r -> length b = nd ->
  (n <= nd)%nat -> (nd - n <= fuel)%nat ->
  take n r = take n b ->
  let k := skip_equal X nd i b fuel n in
  (k <= nd)%nat /\ take k r = take k b /\
  ((k < nd)%nat -> r !!! k <> b !!! k).
Proof using rows_nd.
  intros Hr Hb. pose proof (row_length i r Hr) as Hlr.
  revert n. induction fuel as [|fuel IH]; intros n Hn Hfuel Htake;
    cbv zeta; cbn [skip_equal].
  - split; [done|]. split; [done|]. lia.
  - unfold sub. rewrite (list_lookup_total_correct _ _ _ Hr).
    destruct (Nat.ltb_spec n nd) as [Hlt|Hge]; cbn [andb].
    + destruct (Z.eqb_spec (r !!! n) (b !!! n)) as [Heq|Hne].
      * apply IH; [lia|lia|].
        rewrite (take_S_r r n (r !!! n)), (take_S_r b n (b !!! n)).
        -- by rewrite Htake, Heq.
        -- apply list_lookup_lookup_total_lt. lia.
        -- apply list_lookup_lookup_total_lt. lia.
      * split; [lia|]. split; [done|]. done.
    + split; [lia|]. split; [done|]. lia.
Qed.

Lemma skip_equal_all (i : nat) (r b : list Z) :
  subs X !! i = Some r -> length b = nd ->
  skip_equal X nd i b nd 0 = nd <-> r = b.
Proof using rows_nd.
  intros Hr Hb. pose proof (row_length i r Hr) as Hlr.
  destruct (skip_equal_spec i r b nd 0 Hr Hb) as (Hk & Htake & Hdiff);
    [lia|lia|done|].
  set (k := skip_equal X nd i b nd 0) in *. split.
  - intros Heq. rewrite Heq in Htake. by rewrite !take_ge in Htake by lia.
  - intros ->. destruct (decide (k = nd)) as [|Hne]; [done|].
    by destruct Hdiff; [lia|].
Qed.

(** [less] is the order of subscripts. *)
Lemma less_lex_lt (i : nat) (r b : list Z) :
  subs X !! i = Some r -> length b = nd ->
  less X nd i b = true <-> lex_lt r b.
Proof using rows_nd.
  intros Hr Hb. pose proof (row_length i r Hr) as Hlr.
  destruct (skip_equal_spec i r b nd 0 Hr Hb) as (Hk & Htake & Hdiff);
    [lia|lia|done|].
  unfold less. set (k := skip_equal X nd i b nd 0) in *.
  unfold sub. rewrite (list_lookup_total_correct _ _ _ Hr).
  destruct (Nat.eqb_spec k nd) as [Heq|Hne]; cbn [orb].
  - rewrite Heq in Htake.
    rewrite !take_ge in Htake by lia. subst r.
    split; [done|]. intros H. by apply lex_lt_irrefl in H.
  - specialize (Hdiff ltac:(lia)).
    assert (r !! k = Some (r !!! k)) as Hrk
      by (apply list_lookup_lookup_total_lt; lia).
    assert (b !! k = Some (b !!! k)) as Hbk
      by (apply list_lookup_lookup_total_lt; lia).
    destruct (Z.leb_spec (b !!! k) (r !!! k)) as [Hle|Hlt].
    + split; [done|]. intros (n & u & v & Ht & Hu & Hv & Huv).
      destruct (Nat.lt_trichotomy n k) as [Hnk|[->|Hnk]].
      * assert (take k r !! n = take k b !! n) as Hn by (by rewrite Htake).
        rewrite !lookup_take_lt in Hn by done.
        rewrite Hu, Hv in Hn. injection Hn as ->. lia.
      * rewrite Hrk in Hu. rewrite Hbk in Hv.
        injection Hu as <-. injection Hv as <-. lia.
      * assert (take n r !! k = take n b !! k) as Hn by (by rewrite Ht).
        rewrite !lookup_take_lt in Hn by done.
        rewrite Hrk, Hbk in Hn. by injection Hn.
    + split; [intros _|done]. by exists k, (r !!! k), (b !!! k).
Qed.

Section Search.
Variable ind : list Z.
Hypothesis ind_nd : length ind = nd.
Hypothesis sorted : rows_sorted (subs X).

(** Rows before a row below [ind] are below [ind]; rows after a row not
    below [ind] are not below [ind]. *)
Lemma below_before (i j : nat) (ri rj : list Z) :
  (j <= i)%nat -> subs X !! i = Some ri -> subs X !! j = Some rj ->
  lex_lt ri ind -> lex_lt rj ind.
Proof using rows_nd sorted ind_nd.
  intros Hji Hi Hj Hlt.
  destruct (decide (j = i)) as [->|Hne];
    [rewrite Hi in Hj; by injection Hj as <-|].
  pose proof (sorted j i rj ri ltac:(lia) Hj Hi) as Hnot.
  destruct (lex_lt_trichotomy rj ri) as [H|[->|H]]; [|by eapply lex_lt_trans|done|done].
  by rewrite (row_length j rj Hj), (row_length i ri Hi).
Qed.

Lemma not_below_after (i j : nat) (ri rj : list Z) :
  (i <= j)%nat -> subs X !! i = Some ri -> subs X !! j = Some rj ->
  ~ lex_lt ri ind -> ~ lex_lt rj ind.
Proof using rows_nd sorted ind_nd.
  intros Hij Hi Hj Hnot Hlt. apply Hnot. by eapply below_before.
Qed.

Lemma lower_bound_loop_spec (start : nat) :
  forall fuel first count,
    (count < fuel)%nat -> (start <= first)%nat ->
    (first + count <= nz X)%nat ->
    (forall i r, (start <= i < first)%nat -> subs X !! i = Some r ->
                 lex_lt r ind) ->
    (forall i r, (first + count <= i)%nat -> subs X !! i = Some r ->
                 ~ lex_lt r ind) ->
    exists f,
      lower_bound_loop X nd fuel ind first count = Some f /\
      (start <= f <= nz X)%nat /\
      (forall i r, (start <= i < f)%nat -> subs X !! i = Some r ->
                   lex_lt r ind) /\
      (forall i r, (f <= i)%nat -> subs X !! i = Some r -> ~ lex_lt r ind).
Proof using rows_nd sorted ind_nd.
  induction fuel as [|fuel IH]; intros first count Hfuel Hstart Hend Hlo Hhi;
    [lia|].
  cbn [lower_bound_loop].
  destruct (Nat.ltb_spec 0 count) as [Hpos|Hzero].
  - cbv zeta.
    assert (count / 2 < count)%nat as Hstep by (apply Nat.div_lt; lia).
    set (step := (count / 2)%nat) in *.
    destruct (lookup_lt_is_Some_2 (subs X) (first + step)) as [ri Hri];
      [unfold nz in Hend; lia|].
    pose proof (less_lex_lt (first + step) ri ind Hri ind_nd) as Hless.
    destruct (less X nd (first + step) ind).
    + apply IH; [lia|lia|lia| |].
      * intros i r Hi Hr.
        destruct (decide (i < first)%nat); [apply (Hlo i); [lia|done]|].
        apply (below_before (first + step) i ri r); [lia|done|done|].
        by apply Hless.
      * intros i r Hi Hr. apply (Hhi i); [lia|done].
    + apply IH; [lia|lia|lia|done|].
      intros i r Hi Hr.
      apply (not_below_after (first + step) i ri r); [lia|done|done|].
      intros H. by apply Hless in H.
  - exists first. split; [done|]. split; [lia|]. split; [done|].
    intros i r Hi Hr. apply (Hhi i); [lia|done].
Qed.

End Search.

(** The inner loop of the scan compares whole rows. *)
Lemma row_matches_spec (i : nat) (r ind : list Z) :
  subs X !! i = Some r -> length ind = nd ->
  forall todo j, (j + todo = nd)%nat ->
    row_matches X i ind todo j = true <-> drop j r = drop j ind.
Proof using rows_nd.
  intros Hr Hind. pose proof (row_length i r Hr) as Hlr.
  induction todo as [|todo IH]; intros j Hj; cbn [row_matches].
  - by rewrite !drop_ge by lia.
  - unfold sub. rewrite (list_lookup_total_correct _ _ _ Hr).
    assert (r !! j = Some (r !!! j)) as Hrj
      by (apply list_lookup_lookup_total_lt; lia).
    assert (ind !! j = Some (ind !!! j)) as Hij
      by (apply list_lookup_lookup_total_lt; lia).
    rewrite (drop_S _ _ _ Hrj), (drop_S _ _ _ Hij).
    destruct (Z.eqb_spec (ind !!! j) (r !!! j)) as [Heq|Hne].
    + rewrite IH by lia. rewrite Heq. split; [by intros ->|].
      intros H. by injection H.
    + split; [done|]. intros H. injection H as H _. by destruct Hne.
Qed.

Lemma index_scan_spec (ind : list Z) :
  length ind = nd ->
  forall todo i, (i + todo = nz X)%nat ->
    let k := index_scan X nd ind todo i in
    (i <= k <= nz X)%nat /\
    (forall j, (i <= j < k)%nat -> subs X !! j <> Some ind) /\
    ((k < nz X)%nat -> subs X !! k = Some ind).
Proof using rows_nd.
  intros Hind. induction todo as [|todo IH]; intros i Hi; cbv zeta;
    cbn [index_scan].
  - split; [lia|]. split; intros; lia.
  - destruct (lookup_lt_is_Some_2 (subs X) i) as [ri Hri];
      [unfold nz in Hi; lia|].
    pose proof (row_matches_spec i ri ind Hri Hind nd 0 ltac:(lia)) as Hm.
    rewrite !drop_0 in Hm.
    destruct (row_matches X i ind nd 0).
    + split; [lia|]. split; [intros; lia|].
      intros _. rewrite Hri. f_equal. by apply Hm.
    + destruct (IH (S i) ltac:(lia)) as (Hk & Hbefore & Hat).
      split; [lia|]. split; [|done].
      intros j Hj. destruct (decide (j = i)) as [->|Hne].
      * rewrite Hri. intros H. injection H as H.
        apply Hm in H. done.
      * apply Hbefore. lia.
Qed.

(** The binary search splits the rows from [start] on. *)
Lemma sorted_lower_bound_search (ind : list Z) (fuel start : nat) :
  is_sorted X = true -> rows_sorted (subs X) -> length ind = nd ->
  (start <= nz X)%nat -> (nz X - start < fuel)%nat ->
  exists f,
    sorted_lower_bound X nd fuel ind start = Value f /\
    (start <= f <= nz X)%nat /\
    (forall i r, (start <= i < f)%nat -> subs X !! i = Some r ->
                 lex_lt r ind) /\
    (forall i r, (f <= i)%nat -> subs X !! i = Some r -> ~ lex_lt r ind).
Proof using rows_nd.
  intros Hflag Hsorted Hind Hstart Hfuel. unfold sorted_lower_bound.
  rewrite Hflag. cbn [negb].
  destruct (Nat.leb_spec (nz X) start) as [Hge|Hlt].
  - exists start. split; [done|]. split; [lia|]. split; [intros; lia|].
    intros i r Hi Hr. apply lookup_lt_Some in Hr. unfold nz in Hge. lia.
  - destruct (lower_bound_loop_spec ind Hind Hsorted start fuel start
                (nz X - start)%nat) as (f & -> & Hf);
      [lia|lia|lia|intros; lia| |by exists f].
    intros i r Hi Hr. apply lookup_lt_Some in Hr. unfold nz in Hi. lia.
Qed.

(** On a tensor not flagged as sorted, [index] returns the position
    of the first row equal to the subscript, and the number of rows when
    no row is equal to it. *)
Theorem index_unsorted_first_match (ind : list Z) (fuel : nat) :
  is_sorted X = false -> length ind = nd ->
  exists k,
    index X nd fuel ind = Value k /\ (k <= nz X)%nat /\
    (forall j, (j < k)%nat -> subs X !! j <> Some ind) /\
    ((k < nz X)%nat -> subs X !! k = Some ind).
Proof using rows_nd.
  intros Hflag Hind. unfold index. rewrite Hflag. cbn [negb].
  destruct (index_scan_spec ind Hind (nz X) 0 ltac:(lia))
    as (Hk & Hbefore & Hat).
  eexists. split; [done|]. split; [lia|]. split; [|done].
  intros j Hj. apply Hbefore. lia.
Qed.

(** On a tensor whose rows are in order and that is flagged as
    sorted, [sorted_lower_bound] returns a position [f] between [start]
    and the number of rows such that every row from [start] up to [f]
    comes before the subscript and no row from [f] on does. *)
Theorem sorted_lower_bound_partitions (ind : list Z) (fuel start : nat) :
  is_sorted X = true -> rows_sorted (subs X) -> length ind = nd ->
  (start <= nz X)%nat -> (nz X - start < fuel)%nat ->
  exists f,
    sorted_lower_bound X nd fuel ind start = Value f /\
    (start <= f <= nz X)%nat /\
    (forall i r, (start <= i < f)%nat -> subs X !! i = Some r ->
                 lex_lt r ind) /\
    (forall i r, (f <= i)%nat -> subs X !! i = Some r -> ~ lex_lt r ind).
Proof using rows_nd. apply sorted_lower_bound_search. Qed.

(** On a tensor whose rows are in order and that is flagged as
    sorted, [index] returns the position of the first row equal to the
    subscript, and the number of rows when no row is equal to it: the
    binary search finds what the scan finds. *)
Theorem index_sorted_first_match (ind : list Z) (fuel : nat) :
  is_sorted X = true -> rows_sorted (subs X) -> length ind = nd ->
  (nz X < fuel)%nat ->
  exists k,
    index X nd fuel ind = Value k /\ (k <= nz X)%nat /\
    (forall j, (j < k)%nat -> subs X !! j <> Some ind) /\
    ((k < nz X)%nat -> subs X !! k = Some ind).
Proof using rows_nd.
  intros Hflag Hsorted Hind Hfuel.
  destruct (sorted_lower_bound_search ind fuel 0 Hflag Hsorted Hind)
    as (f & Hlb & Hf & Hlo & Hhi); [lia|lia|].
  unfold index. rewrite Hflag, Hlb. cbn [negb].
  assert (forall j, (j < f)%nat -> subs X !! j <> Some ind) as Hbelow.
  { intros j Hj Hr. apply (lex_lt_irrefl ind). apply (Hlo j); [lia|done]. }
  unfold isSubscriptEqual.
  destruct (Nat.leb_spec (nz X) f) as [Hge|Hlt].
  - exists (nz X). split; [done|]. split; [lia|]. split; [|lia].
    intros j Hj. apply Hbelow. lia.
  - destruct (lookup_lt_is_Some_2 (subs X) f) as [rf Hrf];
      [unfold nz in Hlt; lia|].
    pose proof (skip_equal_all f rf ind Hrf Hind) as Heq.
    destruct (Nat.eqb_spec (skip_equal X nd f ind nd 0) nd) as [Hn|Hn].
    + exists f. split; [done|]. split; [lia|]. split; [done|].
      intros _. rewrite Hrf. f_equal. by apply Heq.
    + exists (nz X). split; [done|]. split; [lia|]. split; [|lia].
      intros j Hj Hr. destruct (decide (j < f)%nat) as [Hjf|Hjf].
      * by apply (Hbelow j).
      * destruct (decide (j = f)) as [->|Hne].
        -- rewrite Hrf in Hr. injection Hr as Hr. by apply Hn, Heq.
        -- pose proof (Hsorted f j rf ind ltac:(lia) Hrf Hr) as Hnot.
           pose proof (Hhi f rf ltac:(lia) Hrf) as Hnlt.
           destruct (lex_lt_trichotomy rf ind) as [H|[H|H]];
             [by rewrite (row_length f rf Hrf)|done| |done].
           by apply Hn, Heq.
Qed.

End IndexFacts.

(** Four nonzeros out of order, one subscript twice. *)
Definition example_unsorted : SptensorT Z :=
  mkSptensor [3; 3; 3] [[2; 0; 0]; [1; 1; 1]; [0; 2; 0]; [1; 1; 1]]
    [40; 30; 20; 5] false.

Lemma example_sorted_rows_nd :
  Forall (fun r => length r = 3%nat) (subs example_sorted).
Proof. by repeat constructor. Qed.

Lemma example_unsorted_rows_nd :
  Forall (fun r => length r = 3%nat) (subs example_unsorted).
Proof. by repeat constructor. Qed.

Lemma example_sorted_rows_sorted : rows_sorted (subs example_sorted).
Proof.
  intros i j ri rj Hij Hi Hj H.
  destruct i as [|[|[|[|i]]]]; destruct j as [|[|[|[|j]]]];
    try lia; cbn in Hi, Hj; try done;
    injection Hi as <-; injection Hj as <-;
    repeat (apply lex_lt_cons in H; destruct H as [H|[? H]]; try lia);
    by apply lex_lt_nil_l in H.
Qed.

Lemma index_unsorted_first_match_witness :
  exists k,
    index example_unsorted 3 0 [1; 1; 1] = Value k /\ (k <= 4)%nat /\
    (forall j, (j < k)%nat -> subs example_unsorted !! j <> Some [1; 1; 1]) /\
    ((k < 4)%nat -> subs example_unsorted !! k = Some [1; 1; 1]).
Proof.
  apply (index_unsorted_first_match example_unsorted 3
           example_unsorted_rows_nd [1; 1; 1] 0); reflexivity.
Defined.

Lemma sorted_lower_bound_partitions_witness :
  exists f,
    sorted_lower_bound example_sorted 3 4 [1; 0; 2] 1 = Value f /\
    (1 <= f <= 4)%nat /\
    (forall i r, (1 <= i < f)%nat -> subs example_sorted !! i = Some r ->
                 lex_lt r [1; 0; 2]) /\
    (forall i r, (f <= i)%nat -> subs example_sorted !! i = Some r ->
                 ~ lex_lt r [1; 0; 2]).
Proof.
  apply (sorted_lower_bound_partitions example_sorted 3
           example_sorted_rows_nd [1; 0; 2] 4 1);
    [reflexivity|exact example_sorted_rows_sorted|reflexivity|
     cbn; lia|cbn; lia].
Defined.

Lemma index_sorted_first_match_witness :
  exists k,
    index example_sorted 3 5 [1; 1; 1] = Value k /\ (k <= 4)%nat /\
    (forall j, (j < k)%nat -> subs example_sorted !! j <> Some [1; 1; 1]) /\
    ((k < 4)%nat -> subs example_sorted !! k = Some [1; 1; 1]).
Proof.
  apply (index_sorted_first_match example_sorted 3
           example_sorted_rows_nd [1; 1; 1] 5);
    [reflexivity|exact example_sorted_rows_sorted|reflexivity|cbn; lia].
Defined.

End Sptensor.

(** ** Ktensors (Genten_Ktensor.hpp, Genten_Ktensor.cpp) *)

(** A factor matrix is the list of its rows. *)
Definition FacMatrixT (E : Type) : Type := list (list E).

(** [lambda] are the weights, [data] the factor matrices, one per mode. *)
Record KtensorT (E : Type) : Type := mkKtensor {
  lambda : list E;
  data : list (FacMatrixT E)
}.
Arguments mkKtensor {E}.
Arguments lambda {E}.
Arguments data {E}.

Definition ncomponents {E} (K : KtensorT E) : nat := length (lambda K).
Definition kt_ndims {E} (K : KtensorT E) : nat := length (data K).

(** [A.entry(i, j)]; [None] is a read outside the matrix. *)
Definition entry {E} (A : FacMatrixT E) (i j : nat) : option E :=
  row ← A !! i; row !! j.

(** A fold whose step can fail. *)
Fixpoint foldl_opt {A B} (f : B -> A -> option B) (l : list A) (b : B)
    : option B :=
  match l with
  | [] => Some b
  | a :: l => b' ← f b a; foldl_opt f l b'
  end.

(** ** The fused semi-stratified gradient kernel
    (Genten_GCP_SS_Grad_Streaming_Def.hpp, [gcp_sgd_ss_grad_atomic_kernel]) *)

Module SSGrad.

Section Kernel.
Context {E : Type} `{Real E}.
(** [loss_type::deriv]. *)
Variable f_deriv : E -> E -> E.
(** [compute_Ktensor_value(M, ind)], the model's value at [ind]. *)
Variable compute_Ktensor_value : KtensorT E -> list nat -> E.

Variable X : SptensorT E.
Variables M Mt Mprev : KtensorT E.
Variables weight_nonzeros weight_zeros : E.
Variable modes : list nat.

Definition have_Mprev : bool :=
  (0 <? kt_ndims Mprev)%nat && (0 <? ncomponents Mprev)%nat.

Definition d : nat := length modes.
Definition nd : nat := kt_ndims M.
Definition nc : nat := ncomponents M.

(** [Kokkos::atomic_add(&(G[n].entry(k,j)), tmp)]. *)
Definition atomic_add (G : list (FacMatrixT E)) (n k j : nat) (tmp : E)
    : option (list (FacMatrixT E)) :=
  A ← G !! n;
  row ← A !! k;
  x ← row !! j;
  Some (<[n := <[k := <[j := radd x tmp]> row]> A]> G).

(** [for (m = 0; m < bound; ++m) if (m != n) tmp *= M[m].entry(ind[m],j)]. *)
Definition times_other_rows (bound : nat) (ind : list nat) (n j : nat)
    (tmp : E) : option E :=
  foldl_opt
    (fun tmp m =>
       if bool_decide (m ≠ n) then
         A ← data M !! m;
         i ← ind !! m;
         a ← entry A i j;
         Some (rmul tmp a)
       else Some tmp)
    (seq 0 bound) tmp.

(** The [row_func] lambda of either loop; [bound] is the limit of its
    first product loop ([nd] for a nonzero sample, [d] for a zero one),
    the streaming term always runs to [nd].  A block of [FacBlockSize]
    columns is modelled column by column. *)
Definition row_func (bound : nat) (ind : list nat) (y_val yt_val : E)
    (j k n : nat) (G : list (FacMatrixT E)) : option (list (FacMatrixT E)) :=
  tmp ← times_other_rows bound ind n j y_val;
  G ← atomic_add G n k j tmp;
  if have_Mprev then
    tmp ← times_other_rows nd ind n j yt_val;
    atomic_add G n k j tmp
  else Some G.

(** [for (n = 0; n < limit; ++n) { nn = modes[n]; k = ind[nn];
    for (j ...) row_func(j, .., k, nn); }] *)
Definition mode_loop (limit bound : nat) (ind : list nat) (y_val yt_val : E)
    (G : list (FacMatrixT E)) : option (list (FacMatrixT E)) :=
  foldl_opt
    (fun G n =>
       nn ← modes !! n;
       k ← ind !! nn;
       foldl_opt (fun G j => row_func bound ind y_val yt_val j k nn G)
         (seq 0 nc) G)
    (seq 0 limit) G.

Definition yt_value (weight : E) (ind : list nat) : E :=
  if have_Mprev then
    let mt_val := compute_Ktensor_value Mt ind in
    let mp_val := compute_Ktensor_value Mprev ind in
    rmul weight (f_deriv mp_val mt_val)
  else of_Z 0.

(** One nonzero sample: [i] is the drawn position in the nonzero list. *)
Definition nonzero_sample (i : nat) (G : list (FacMatrixT E))
    : option (list (FacMatrixT E)) :=
  sub ← subs X !! i;
  x_val ← values X !! i;
  let ind := map Z.to_nat (take nd sub) in
  if negb (length ind =? nd)%nat then None else
  let m_val := compute_Ktensor_value M ind in
  let y_val :=
    rmul weight_nonzeros
      (rsub (f_deriv x_val m_val) (f_deriv (of_Z 0) m_val)) in
  let yt_val := yt_value weight_nonzeros ind in
  mode_loop d nd ind y_val yt_val G.

(** One zero sample: [ind] are the drawn coordinates, one per mode.  The
    mode loop runs to [nd] and the product loop to [d]. *)
Definition zero_sample (ind : list nat) (G : list (FacMatrixT E))
    : option (list (FacMatrixT E)) :=
  if negb (length ind =? nd)%nat then None else
  let m_val := compute_Ktensor_value M ind in
  let y_val := rmul weight_zeros (f_deriv (of_Z 0) m_val) in
  let yt_val := yt_value weight_zeros ind in
  mode_loop nd d ind y_val yt_val G.

(** The kernel: [num_samples_nonzeros] nonzero samples, then
    [num_samples_zeros] zero samples.  [rand_nonzero idx] and
    [rand_zero idx] are what the generator hands sample [idx]; the samples
    are taken in index order, one of the orders the atomic adds allow. *)
Definition gcp_sgd_ss_grad_atomic_kernel
    (num_samples_nonzeros num_samples_zeros : nat)
    (rand_nonzero : nat -> nat) (rand_zero : nat -> list nat)
    (G : list (FacMatrixT E)) : option (list (FacMatrixT E)) :=
  G ← foldl_opt (fun G idx => nonzero_sample (rand_nonzero idx) G)
        (seq 0 num_samples_nonzeros) G;
  foldl_opt (fun G idx => zero_sample (rand_zero idx) G)
    (seq 0 num_samples_zeros) G.

End Kernel.


(** *** The kernel on small tensors *)

Section KernelExamples.
Context {E : Type} `{Real E}.
Variable f_deriv : E -> E -> E.
Variable compute_Ktensor_value : KtensorT E -> list nat -> E.
Variables a0 a1 a2 p0 p1 p2 g0 g1 g2 x wnz wz : E.

(** Three modes of size one, one component. *)
Definition ex_M : KtensorT E := mkKtensor [of_Z 1] [[[a0]]; [[a1]]; [[a2]]].
Definition ex_Mprev : KtensorT E :=
  mkKtensor [of_Z 1] [[[p0]]; [[p1]]; [[p2]]].
(** [uh]: [M] with the last mode taken from [Mprev]. *)
Definition ex_Mt : KtensorT E := mkKtensor [of_Z 1] [[[a0]]; [[a1]]; [[p2]]].
Definition ex_empty : KtensorT E := mkKtensor [] [].
Definition ex_X : SptensorT E := mkSptensor [1; 1; 1] [[0; 0; 0]] [x] true.

Definition ex_m_val : E := compute_Ktensor_value ex_M [0; 0; 0]%nat.
Definition ex_y_nonzero : E :=
  rmul wnz (rsub (f_deriv x ex_m_val) (f_deriv (of_Z 0) ex_m_val)).
Definition ex_y_zero : E := rmul wz (f_deriv (of_Z 0) ex_m_val).
Definition ex_yt_zero : E :=
  rmul wz (f_deriv (compute_Ktensor_value ex_Mprev [0; 0; 0]%nat)
             (compute_Ktensor_value ex_Mt [0; 0; 0]%nat)).

(** All three modes, no previous model: a nonzero sample adds
    [y * a1 * a2], [y * a0 * a2] and [y * a0 * a1]. *)
Example nonzero_sample_all_modes :
  nonzero_sample f_deriv compute_Ktensor_value ex_X ex_M ex_Mt ex_empty wnz
    [0; 1; 2]%nat 0%nat [[[g0]]; [[g1]]; [[g2]]]
  = Some [[[radd g0 (rmul (rmul ex_y_nonzero a1) a2)]];
          [[radd g1 (rmul (rmul ex_y_nonzero a0) a2)]];
          [[radd g2 (rmul (rmul ex_y_nonzero a0) a1)]]].
Proof. reflexivity. Qed.

(** The same for a zero sample, where the two loop limits coincide. *)
Example zero_sample_all_modes :
  zero_sample f_deriv compute_Ktensor_value ex_M ex_Mt ex_empty wz
    [0; 1; 2]%nat [0; 0; 0]%nat [[[g0]]; [[g1]]; [[g2]]]
  = Some [[[radd g0 (rmul (rmul ex_y_zero a1) a2)]];
          [[radd g1 (rmul (rmul ex_y_zero a0) a2)]];
          [[radd g2 (rmul (rmul ex_y_zero a0) a1)]]].
Proof. reflexivity. Qed.

(** C3 at the streaming call that updates modes 0 and 1 of a three-mode
    model ([modes = [0; 1]], so [d = 2 < nd = 3]) with one zero sample.
    The zero loop's product for mode 0 stops at [d] and adds [y * a1]
    where the claim has [y * a1 * a2]; only the streaming term runs over
    all modes.  Its mode loop runs to [nd] and reads [modes[2]], past the
    end of [modes]: the sample, and with it the kernel, has no defined
    result. *)
Theorem zero_sample_partial_modes :
  row_func ex_M ex_Mprev (length [0; 1]%nat) [0; 0; 0]%nat
    ex_y_zero ex_yt_zero 0 0 0 [[[g0]]; [[g1]]]
  = Some [[[radd (radd g0 (rmul ex_y_zero a1))
              (rmul (rmul ex_yt_zero a1) a2)]]; [[g1]]]
  /\ zero_sample f_deriv compute_Ktensor_value ex_M ex_Mt ex_Mprev wz
       [0; 1]%nat [0; 0; 0]%nat [[[g0]]; [[g1]]] = None
  /\ gcp_sgd_ss_grad_atomic_kernel f_deriv compute_Ktensor_value
       ex_X ex_M ex_Mt ex_Mprev wnz wz [0; 1]%nat 0 1
       (fun _ => 0%nat) (fun _ => [0; 0; 0]%nat) [[[g0]]; [[g1]]] = None.
Proof. repeat split; reflexivity. Qed.

(** The nonzero loop on the same call multiplies over all modes. *)
Example nonzero_sample_partial_modes :
  nonzero_sample f_deriv compute_Ktensor_value ex_X ex_M ex_Mt ex_empty wnz
    [0; 1]%nat 0%nat [[[g0]]; [[g1]]]
  = Some [[[radd g0 (rmul (rmul ex_y_nonzero a1) a2)]];
          [[radd g1 (rmul (rmul ex_y_nonzero a0) a2)]]].
Proof. reflexivity. Qed.

End KernelExamples.

End SSGrad.

(** ** The processor grid (Genten_Pmap.cpp) *)

Module Pmap.

(** [dimension_sizes_]: the extents of the Cartesian grid. *)
Record ProcessorMap : Type := mkPmap { dimension_sizes : list nat }.

Definition gridSize (pm : ProcessorMap) : nat :=
  fold_right Nat.mul 1%nat (dimension_sizes pm).

(** [MPI_Cart_coords]: ranks are laid out row-major. *)
Fixpoint cart_coords (dims : list nat) (r : nat) : list nat :=
  match dims with
  | [] => []
  | _ :: ds =>
      let stride := fold_right Nat.mul 1%nat ds in
      (r / stride)%nat :: cart_coords ds (r mod stride)%nat
  end.

Definition coord (pm : ProcessorMap) (r : nat) : list nat :=
  cart_coords (dimension_sizes pm) r.

(** [sub_maps_[i]] as seen from rank [r]: [MPI_Cart_sub] drops dimension
    [i] and keeps the others, so the communicator holds the ranks whose
    coordinate [i] is that of [r], in rank order. *)
Definition subComm (pm : ProcessorMap) (i r : nat) : list nat :=
  filter (fun q => coord pm q !! i = coord pm r !! i) (seq 0 (gridSize pm)).

(** [sub_comm_sizes_[i]], from [MPI_Comm_size(sub_maps_[i], ..)]. *)
Definition subCommSizes (pm : ProcessorMap) (r i : nat) : nat :=
  length (subComm pm i r).

Example subComm_2x1_mode0 : subComm (mkPmap [2; 1]%nat) 0 0 = [0%nat].
Proof. reflexivity. Qed.

Example subComm_2x1_mode1 : subComm (mkPmap [2; 1]%nat) 1 0 = [0; 1]%nat.
Proof. reflexivity. Qed.

Example subComm_2x3_mode0 :
  subComm (mkPmap [2; 3]%nat) 0 4 = [3; 4; 5]%nat.
Proof. reflexivity. Qed.

Example subComm_2x3_mode1 : subComm (mkPmap [2; 3]%nat) 1 4 = [1; 4]%nat.
Proof. reflexivity. Qed.

End Pmap.

(** ** The shape of the processor grid (Genten_Pmap.cpp, [CartGrid]) *)

Module CartGrid.

Definition INT64_MAX : Z := 2 ^ 63 - 1.
Definition INT64_MIN : Z := - 2 ^ 63.

(** [long long] arithmetic: an overflow is undefined behaviour, here a
    failure. *)
Definition int64 (x : Z) : option Z :=
  if (INT64_MIN <=? x) && (x <=? INT64_MAX) then Some x else None.

(** The body of the loop of [divisors] at [i]. *)
Definition divisors_step (input sroot : Z) (divisors : list Z) (i : Z)
    : list Z :=
  if Z.rem input i =? 0 then
    let divisors := divisors ++ [i] in
    if negb (i =? sroot) then divisors ++ [Z.quot input i] else divisors
  else divisors.

(** [divisors(input)].  [int sroot = std::sqrt(input)]: for an [int]
    that is not negative the correctly rounded double square root,
    truncated, is the integer square root; for a negative one the
    conversion of NaN to [int] is undefined. *)
Definition divisors (input : Z) : option (list Z) :=
  if input <? 0 then None
  else
    let sroot := Z.sqrt input in
    Some (merge_sort Z.le
            (fold_left (divisors_step input sroot) (seqZ 1 sroot) [input])).

(** [nelementsForRank1Factors]: [nprocs] is the product of the grid,
    accumulated in [long long]. *)
Definition nelementsForRank1Factors (grid tensor_dims : list Z)
    : option Z :=
  nprocs ← foldl_opt (fun acc g => int64 (acc * g)) grid 1;
  foldl_opt
    (fun nelements i =>
       g ← grid !! i;
       t ← tensor_dims !! i;
       if g =? 0 then None
       else
         let replicated_procs := Z.quot nprocs g in
         term ← int64 (replicated_procs * t);
         int64 (nelements + term))
    (seq 0 (length grid)) 0.

(** [recurseMinSpaceGrid]: [grid] is passed by reference and returned
    here; [test] and [min_storage] live across the passes of the loop over
    the divisors. *)
Fixpoint recurseMinSpaceGrid (dims_remaining : nat) (nprocs : Z)
    (grid tensor_dims : list Z) : option (list Z) :=
  match dims_remaining with
  | O => None
  | S rest =>
      match rest with
      | O =>
          match grid with
          | [] => None
          | _ => Some (<[(length grid - 1)%nat := nprocs]> grid)
          end
      | S _ =>
          if (length grid <? dims_remaining)%nat then None
          else
            let current_index := (length grid - dims_remaining)%nat in
            ds ← divisors nprocs;
            r ← foldl_opt
                  (fun '(grid, test, min_storage) d =>
                     let test := <[current_index := d]> test in
                     if d =? 0 then None
                     else
                       let remaining_procs := Z.quot nprocs d in
                       test ← recurseMinSpaceGrid rest remaining_procs test
                                tensor_dims;
                       test_storage ← nelementsForRank1Factors test
                                        tensor_dims;
                       if test_storage <? min_storage
                       then Some (test, test, test_storage)
                       else Some (grid, test, min_storage))
                  ds (grid, grid, INT64_MAX);
            Some (fst (fst r))
      end
  end.

Definition minFactorSpaceGrid (nprocs : Z) (tensor_dims : list Z)
    : option (list Z) :=
  let ndims := length tensor_dims in
  recurseMinSpaceGrid ndims nprocs (repeat 0 ndims) tensor_dims.

Definition minAllReduceComm (nprocs : Z) (tensor_dims : list Z)
    : option (list Z) :=
  minFactorSpaceGrid nprocs tensor_dims.

Inductive CartGridStratagy : Set := MinAllReduceComm | MinFactorSpace.

Definition CartGrid (nprocs : Z) (tensor_dims : list Z)
    (strat : CartGridStratagy) : option (list Z) :=
  match strat with
  | MinAllReduceComm => minAllReduceComm nprocs tensor_dims
  | MinFactorSpace => minFactorSpaceGrid nprocs tensor_dims
  end.

Example divisors_12 : divisors 12 = Some [1; 2; 3; 6; 12; 12].
Proof. reflexivity. Qed.

Example divisors_16 : divisors 16 = Some [1; 2; 4; 8; 16; 16].
Proof. reflexivity. Qed.

Example nelements_2x3x5x7 :
  nelementsForRank1Factors [2; 3; 5; 7] [1; 1; 1; 1] = Some (105 + 70 + 42 + 30).
Proof. reflexivity. Qed.

Example grid_12_cube : minFactorSpaceGrid 12 [100; 100; 100] = Some [2; 2; 3].
Proof. vm_compute. reflexivity. Qed.

(** Six processes on a 30 x 20 tensor: the grid [3; 2] would store
    [2*30 + 3*20 = 120] elements per rank-1 factor, but 3 is not among
    [divisors 6] and the search settles for [2; 3] with 130. *)
Example grid_6_misses_3x2 :
  divisors 6 = Some [1; 2; 6; 6] /\
  minFactorSpaceGrid 6 [30; 20] = Some [2; 3] /\
  nelementsForRank1Factors [2; 3] [30; 20] = Some 130 /\
  nelementsForRank1Factors [3; 2] [30; 20] = Some 120.
Proof. repeat split; vm_compute; reflexivity. Qed.


(** *** [divisors] *)

Lemma elem_of_divisors_loop (input sroot : Z) (steps acc : list Z) (d : Z) :
  d ∈ fold_left (divisors_step input sroot) steps acc <->
  d ∈ acc \/
  exists i, i ∈ steps /\ Z.rem input i = 0 /\
            (d = i \/ (i <> sroot /\ d = Z.quot input i)).
Proof.
  revert acc. induction steps as [|i steps IH]; intros acc; cbn [fold_left].
  - split; [auto|]. intros [H|(i & Hi & _)]; [done|].
    by apply elem_of_nil in Hi.
  - rewrite IH. unfold divisors_step.
    destruct (Z.eqb_spec (Z.rem input i) 0) as [Hrem|Hrem].
    + destruct (Z.eqb_spec i sroot) as [Heq|Hne]; cbn [negb].
      * rewrite elem_of_app, list_elem_of_singleton. split.
        -- intros [[H| ->]|(j & Hj & Hr & Hd)]; [by left| |].
           ++ right. exists i. split; [left|]. auto.
           ++ right. exists j. split; [by right|]. auto.
        -- intros [H|(j & Hj & Hr & Hd)]; [by left; left|].
           apply elem_of_cons in Hj as [->|Hj].
           ++ destruct Hd as [->|[Hd _]]; [by left; right|done].
           ++ right. exists j. auto.
      * rewrite !elem_of_app, !list_elem_of_singleton. split.
        -- intros [[[H| ->]| ->]|(j & Hj & Hr & Hd)]; [by left| | |].
           ++ right. exists i. split; [left|]. auto.
           ++ right. exists i. split; [left|]. auto.
           ++ right. exists j. split; [by right|]. auto.
        -- intros [H|(j & Hj & Hr & Hd)]; [by left; left; left|].
           apply elem_of_cons in Hj as [->|Hj].
           ++ destruct Hd as [->|[_ ->]]; [by left; left; right|by left; right].
           ++ right. exists j. auto.
    + split.
      * intros [H|(j & Hj & Hr & Hd)]; [by left|].
        right. exists j. split; [by right|]. auto.
      * intros [H|(j & Hj & Hr & Hd)]; [by left|].
        apply elem_of_cons in Hj as [->|Hj]; [done|].
        right. exists j. auto.
Qed.

(** What [divisors] holds: the input, the divisors up to the square
    root, and the cofactors of those below the truncated square root. *)
Lemma divisors_spec (input : Z) :
  0 <= input ->
  exists ds,
    divisors input = Some ds /\
    Sorted Z.le ds /\
    forall d,
      d ∈ ds <->
      d = input \/
      exists i, 1 <= i <= Z.sqrt input /\ Z.rem input i = 0 /\
                (d = i \/ (i <> Z.sqrt input /\ d = Z.quot input i)).
Proof.
  intros Hn. unfold divisors.
  destruct (Z.ltb_spec input 0) as [?|_]; [lia|].
  eexists. split; [reflexivity|]. split; [apply Sorted_merge_sort, _|].
  intros d.
  rewrite merge_sort_Permutation, elem_of_divisors_loop.
  rewrite list_elem_of_singleton.
  apply or_iff_compat_l. split.
  - intros (i & Hi & H). exists i. apply elem_of_seqZ in Hi.
    split; [lia|done].
  - intros (i & Hi & H). exists i. split; [|done].
    apply elem_of_seqZ. lia.
Qed.

Lemma rem_0_quot (n i : Z) : i <> 0 -> Z.rem n i = 0 -> n = i * Z.quot n i.
Proof. intros Hi Hr. pose proof (Z.quot_rem' n i). lia. Qed.

(** For a positive [int], [divisors] returns an ascending vector of
    divisors of the input that holds 1 and the input. *)
Theorem divisors_sound (input : Z) :
  1 <= input ->
  exists ds,
    divisors input = Some ds /\
    Sorted Z.le ds /\
    1 ∈ ds /\ input ∈ ds /\
    forall d, d ∈ ds -> 1 <= d <= input /\ (d | input).
Proof.
  intros Hn. destruct (divisors_spec input ltac:(lia)) as (ds & Hds & Hs & Hel).
  exists ds. split; [done|]. split; [done|].
  assert (1 <= Z.sqrt input) as Hsq.
  { apply Z.sqrt_le_square; lia. }
  pose proof (Z.sqrt_spec input ltac:(lia)) as Hspec. cbv zeta in Hspec.
  split; [|split].
  - apply Hel. right. exists 1. split; [lia|]. split; [apply Z.rem_1_r|auto].
  - apply Hel. by left.
  - intros d Hd. apply Hel in Hd as [->|(i & Hi & Hr & Hd)].
    + split; [lia|]. reflexivity.
    + pose proof (rem_0_quot input i ltac:(lia) Hr) as Hq.
      assert (i <= input) by nia.
      destruct Hd as [->|[_ ->]].
      * split; [lia|]. exists (Z.quot input i). lia.
      * split; [nia|]. exists i. lia.
Qed.

(** [divisors] is not complete.  The cofactor of a divisor [i] is left
    out when [i] is the truncated square root: of [s * (s + 1)], whose
    truncated square root is [s], the divisor [s + 1] is missing. *)
Theorem divisors_misses_cofactor (s : Z) :
  2 <= s ->
  exists ds,
    divisors (s * (s + 1)) = Some ds /\
    (s + 1 | s * (s + 1)) /\
    s + 1 ∉ ds.
Proof.
  intros Hs.
  destruct (divisors_spec (s * (s + 1)) ltac:(nia)) as (ds & Hds & _ & Hel).
  exists ds. split; [done|]. split; [by exists s|].
  assert (Z.sqrt (s * (s + 1)) = s) as Hsq by (apply Z.sqrt_unique; nia).
  rewrite Hel, Hsq. intros [Heq|(i & Hi & Hr & Hd)]; [nia|].
  destruct Hd as [Hd|[Hne Hd]]; [lia|].
  pose proof (rem_0_quot _ i ltac:(lia) Hr) as Hq. rewrite <- Hd in Hq.
  nia.
Qed.

(** *** The grid search *)

(** The product of a grid and the storage of rank-1 factors on it, as
    numbers. *)
Definition prod (grid : list Z) : Z := fold_right Z.mul 1 grid.

Definition storage (nprocs : Z) (grid tensor_dims : list Z) : Z :=
  fold_right Z.add 0
    (zip_with (fun g t => Z.quot nprocs g * t) grid tensor_dims).

Definition sum (l : list Z) : Z := fold_right Z.add 0 l.

Lemma prod_app (l1 l2 : list Z) : prod (l1 ++ l2) = prod l1 * prod l2.
Proof.
  unfold prod. induction l1 as [|a l1 IH]; cbn [app fold_right]; [lia|].
  rewrite IH. ring.
Qed.

Lemma prod_pos (l : list Z) : Forall (fun g => 1 <= g) l -> 1 <= prod l.
Proof.
  unfold prod. induction 1 as [|a l Ha _ IH]; cbn [fold_right]; nia.
Qed.

Lemma storage_app (N : Z) (g1 g2 t : list Z) :
  storage N (g1 ++ g2) t
  = storage N g1 (take (length g1) t) + storage N g2 (drop (length g1) t).
Proof.
  revert t. induction g1 as [|a g1 IH]; intros t; cbn.
  - by rewrite drop_0.
  - destruct t as [|x t]; cbn.
    + unfold storage. destruct g2; reflexivity.
    + fold (storage N (g1 ++ g2) t). rewrite IH.
      fold (storage N g1 (take (length g1) t)). lia.
Qed.

Lemma storage_bounds (N : Z) (grid dims : list Z) :
  0 <= N -> Forall (fun g => 1 <= g) grid -> Forall (fun t => 0 <= t) dims ->
  0 <= storage N grid dims <= N * sum dims.
Proof.
  intros HN Hg. revert dims. induction Hg as [|g grid Hg1 _ IH]; intros dims Hd.
  - unfold sum. cbn. clear -HN Hd.
    induction Hd as [|t dims Ht _ IH]; cbn; [lia|].
    fold (sum dims) in *. nia.
  - destruct Hd as [|t dims Ht Hd]; cbn; [unfold sum; cbn; lia|].
    fold (storage N grid dims) (sum dims).
    specialize (IH dims Hd).
    assert (0 <= Z.quot N g <= N).
    { split; [apply Z.quot_pos; lia|].
      destruct (Z.eq_dec N 0) as [->|?]; [by rewrite Z.quot_0_l by lia|].
      destruct (Z.eq_dec g 1) as [->|?]; [rewrite Z.quot_1_r; lia|].
      apply Z.lt_le_incl, Z.quot_lt; lia. }
    nia.
Qed.

Lemma int64_ok (x : Z) : INT64_MIN <= x <= INT64_MAX -> int64 x = Some x.
Proof.
  intros [H1 H2]. unfold int64.
  destruct (Z.leb_spec INT64_MIN x); [|lia].
  by destruct (Z.leb_spec x INT64_MAX); [|lia].
Qed.

Lemma foldl_opt_prod (grid : list Z) (acc : Z) :
  Forall (fun g => 1 <= g) grid -> 1 <= acc -> acc * prod grid <= INT64_MAX ->
  foldl_opt (fun acc g => int64 (acc * g)) grid acc = Some (acc * prod grid).
Proof.
  intros Hg. revert acc. induction Hg as [|g grid Hg1 Hg IH]; intros acc Ha Hb.
  - cbn. f_equal. lia.
  - cbn [foldl_opt]. pose proof (prod_pos grid Hg).
    unfold prod in *. cbn [fold_right] in *.
    rewrite int64_ok by (unfold INT64_MIN, INT64_MAX in *; nia).
    cbn [mbind option_bind]. rewrite IH by nia. f_equal. ring.
Qed.

Lemma foldl_opt_storage (N : Z) (pre1 pre2 grid dims : list Z) (acc : Z) :
  length pre1 = length pre2 ->
  (length grid <= length dims)%nat ->
  0 <= N -> Forall (fun g => 1 <= g) grid -> Forall (fun t => 0 <= t) dims ->
  0 <= acc -> acc + N * sum dims <= INT64_MAX ->
  foldl_opt
    (fun nelements i =>
       g ← (pre1 ++ grid) !! i;
       t ← (pre2 ++ dims) !! i;
       if g =? 0 then None
       else term ← int64 (Z.quot N g * t); int64 (nelements + term))
    (seq (length pre1) (length grid)) acc
  = Some (acc + storage N grid dims).
Proof.
  intros Hlen Hle HN Hg. revert pre1 pre2 dims acc Hlen Hle.
  induction Hg as [|g grid Hg1 Hg IH]; intros pre1 pre2 dims acc Hlen Hle Hd Ha Hb.
  - cbn. f_equal. unfold storage. cbn. lia.
  - destruct Hd as [|t dims Ht Hd]; [cbn in Hle; lia|].
    cbn [length seq foldl_opt].
    assert ((pre1 ++ g :: grid) !! length pre1 = Some g) as ->
      by (by rewrite lookup_app_r, Nat.sub_diag by lia).
    assert ((pre2 ++ t :: dims) !! length pre1 = Some t) as ->
      by (by rewrite Hlen, lookup_app_r, Nat.sub_diag by lia).
    cbn [lookup list_lookup mbind option_bind].
    destruct (Z.eqb_spec g 0) as [?|_]; [lia|].
    pose proof (storage_bounds N [g] [t] HN ltac:(by constructor)
                  ltac:(by constructor)) as Hs1.
    pose proof (storage_bounds N grid dims HN Hg Hd) as Hs2.
    unfold storage in Hs1; cbn -[Z.quot] in Hs1. unfold sum in Hs1, Hb.
    cbn -[Z.quot] in Hs1, Hb. fold (sum dims) in Hb.
    rewrite (int64_ok (Z.quot N g * t))
      by (unfold INT64_MIN, INT64_MAX in *; lia).
    cbn [mbind option_bind].
    rewrite (int64_ok (acc + Z.quot N g * t))
      by (unfold INT64_MIN, INT64_MAX in *; lia).
    cbn [mbind option_bind].
    replace (pre1 ++ g :: grid) with ((pre1 ++ [g]) ++ grid)
      by (by rewrite <- app_assoc).
    replace (pre2 ++ t :: dims) with ((pre2 ++ [t]) ++ dims)
      by (by rewrite <- app_assoc).
    replace (S (length pre1)) with (length (pre1 ++ [g]))
      by (rewrite length_app; cbn; lia).
    rewrite IH; [|rewrite !length_app; cbn; lia|cbn in Hle; lia|done|lia|lia].
    f_equal. unfold storage. cbn -[Z.quot].
    fold (storage N grid dims). lia.
Qed.

(** Without overflow [nelementsForRank1Factors] is [storage]. *)
Lemma nelementsForRank1Factors_storage (grid dims : list Z) :
  (length grid <= length dims)%nat ->
  Forall (fun g => 1 <= g) grid -> Forall (fun t => 0 <= t) dims ->
  prod grid * sum dims < INT64_MAX -> prod grid <= INT64_MAX ->
  nelementsForRank1Factors grid dims = Some (storage (prod grid) grid dims)
  /\ storage (prod grid) grid dims < INT64_MAX.
Proof.
  intros Hle Hg Hd Hb Hp. unfold nelementsForRank1Factors.
  pose proof (prod_pos grid Hg).
  rewrite foldl_opt_prod by (try done; lia). cbn.
  rewrite Z.mul_1_l.
  pose proof (foldl_opt_storage (prod grid) [] [] grid dims 0) as Hf.
  cbn [app length] in Hf. rewrite Hf by (try done; lia).
  split; [f_equal; lia|].
  pose proof (storage_bounds (prod grid) grid dims ltac:(lia) Hg Hd). lia.
Qed.

(** The grids the search visits: every entry but the last is drawn
    from [divisors] of the processes still to place, the last takes what
    is left. *)
Definition divisors_of (nprocs : Z) : list Z := default [] (divisors nprocs).

Fixpoint candidates (dims_remaining : nat) (nprocs : Z) : list (list Z) :=
  match dims_remaining with
  | O => []
  | S rest =>
      match rest with
      | O => [[nprocs]]
      | S _ =>
          flat_map
            (fun d => map (cons d) (candidates rest (Z.quot nprocs d)))
            (divisors_of nprocs)
      end
  end.

Lemma divisors_of_elems (nprocs d : Z) :
  1 <= nprocs -> d ∈ divisors_of nprocs ->
  1 <= d <= nprocs /\ nprocs = d * Z.quot nprocs d /\ 1 <= Z.quot nprocs d.
Proof.
  intros Hn Hd. unfold divisors_of in Hd.
  destruct (divisors_spec nprocs ltac:(lia)) as (ds & Hds & _ & Hel).
  rewrite Hds in Hd. cbn in Hd. apply Hel in Hd.
  pose proof (Z.sqrt_spec nprocs ltac:(lia)) as Hspec. cbv zeta in Hspec.
  assert (1 <= Z.sqrt nprocs) by (apply Z.sqrt_le_square; lia).
  destruct Hd as [->|(i & Hi & Hr & Hd)].
  - rewrite Z.quot_same by lia. lia.
  - pose proof (rem_0_quot nprocs i ltac:(lia) Hr) as Hq.
    assert (i <= nprocs) by nia.
    destruct Hd as [->|[_ ->]]; [nia|].
    assert (1 <= Z.quot nprocs i) by nia.
    assert (Z.quot nprocs (Z.quot nprocs i) = i) as Hqq.
    { symmetry. apply Z.quot_unique_exact; [lia|lia]. }
    rewrite Hqq. nia.
Qed.

Lemma divisors_of_spec (nprocs : Z) :
  1 <= nprocs -> divisors nprocs = Some (divisors_of nprocs).
Proof.
  intros Hn. unfold divisors_of.
  destruct (divisors_spec nprocs ltac:(lia)) as (ds & -> & _). done.
Qed.

Lemma divisors_of_nonempty (nprocs : Z) :
  1 <= nprocs -> divisors_of nprocs <> [].
Proof.
  intros Hn Hnil. unfold divisors_of in Hnil.
  destruct (divisors_spec nprocs ltac:(lia)) as (ds & Hds & _ & Hel).
  rewrite Hds in Hnil. cbn in Hnil. subst ds.
  specialize (Hel nprocs). destruct Hel as [_ Hel].
  specialize (Hel (or_introl eq_refl)). by apply elem_of_nil in Hel.
Qed.

(** One pass of the loop over the divisors in [recurseMinSpaceGrid]. *)
Definition search_step (rest : nat) (nprocs : Z) (current_index : nat)
    (tensor_dims : list Z)
    : list Z * list Z * Z -> Z -> option (list Z * list Z * Z) :=
  fun '(grid, test, min_storage) d =>
    let test := <[current_index := d]> test in
    if d =? 0 then None
    else
      let remaining_procs := Z.quot nprocs d in
      test ← recurseMinSpaceGrid rest remaining_procs test tensor_dims;
      test_storage ← nelementsForRank1Factors test tensor_dims;
      if test_storage <? min_storage
      then Some (test, test, test_storage)
      else Some (grid, test, min_storage).

Lemma recurseMinSpaceGrid_last (nprocs : Z) (pre : list Z) (x : Z)
    (tensor_dims : list Z) :
  recurseMinSpaceGrid 1 nprocs (pre ++ [x]) tensor_dims
  = Some (pre ++ [nprocs]).
Proof.
  cbn [recurseMinSpaceGrid].
  destruct (pre ++ [x]) as [|y l] eqn:Heq; [by destruct pre|].
  rewrite <- Heq. f_equal.
  rewrite length_app. cbn [length].
  replace (length pre + 1 - 1)%nat with (length pre + 0)%nat by lia.
  by rewrite insert_app_r.
Qed.

Lemma recurseMinSpaceGrid_search (rest : nat) (nprocs : Z)
    (grid tensor_dims : list Z) :
  recurseMinSpaceGrid (S (S rest)) nprocs grid tensor_dims
  = if (length grid <? S (S rest))%nat then None
    else
      ds ← divisors nprocs;
      r ← foldl_opt
            (search_step (S rest) nprocs (length grid - S (S rest))
               tensor_dims)
            ds (grid, grid, INT64_MAX);
      Some (fst (fst r)).
Proof. reflexivity. Qed.

Section Search.
Variable N : Z.
Variable tensor_dims : list Z.
Hypothesis N_range : 1 <= N <= INT_MAX.
Hypothesis dims_nonneg : Forall (fun t => 0 <= t) tensor_dims.
Hypothesis no_overflow : N * sum tensor_dims < INT64_MAX.

(** What a search over the last [k] entries of a grid comes back with:
    [pre] is kept, [best] is a visited completion of positive entries
    whose product is [nprocs], and no visited completion stores less. *)
Definition search_result (k : nat) (nprocs : Z) (pre best : list Z) : Prop :=
  length best = k /\
  Forall (fun g => 1 <= g) best /\
  prod best = nprocs /\
  best ∈ candidates k nprocs /\
  forall c, c ∈ candidates k nprocs ->
            storage N (pre ++ best) tensor_dims
            <= storage N (pre ++ c) tensor_dims.

Lemma nelements_complete (grid : list Z) :
  (length grid <= length tensor_dims)%nat ->
  Forall (fun g => 1 <= g) grid -> prod grid = N ->
  nelementsForRank1Factors grid tensor_dims
  = Some (storage N grid tensor_dims)
  /\ storage N grid tensor_dims < INT64_MAX.
Proof using N_range dims_nonneg no_overflow.
  intros Hlen Hg Hp. rewrite <- Hp.
  apply nelementsForRank1Factors_storage; try done; rewrite Hp; [done|].
  unfold INT_MAX, INT64_MAX in *. lia.
Qed.

Definition visited (rest : nat) (nprocs : Z) (done : list Z)
    : list (list Z) :=
  flat_map (fun d => map (cons d) (candidates (S rest) (Z.quot nprocs d)))
    done.

(** The state of the loop after the divisors [done]. *)
Definition loop_inv (rest : nat) (nprocs : Z) (pre : list Z)
    (done : list Z) (st : list Z * list Z * Z) : Prop :=
  let '(grid, test, min_storage) := st in
  (exists tail, test = pre ++ tail /\ length tail = S (S rest)) /\
  ((done = [] /\ min_storage = INT64_MAX) \/
   exists best,
     grid = pre ++ best /\
     length best = S (S rest) /\
     Forall (fun g => 1 <= g) best /\
     prod best = nprocs /\
     min_storage = storage N (pre ++ best) tensor_dims /\
     best ∈ visited rest nprocs done /\
     forall c, c ∈ visited rest nprocs done ->
               min_storage <= storage N (pre ++ c) tensor_dims).

Lemma search_loop (rest : nat) (nprocs : Z) (pre : list Z) :
  (forall nprocs' pre' tail,
     length tail = S rest ->
     (length pre' + S rest <= length tensor_dims)%nat ->
     1 <= nprocs' -> Forall (fun g => 1 <= g) pre' ->
     prod pre' * nprocs' = N ->
     exists best,
       recurseMinSpaceGrid (S rest) nprocs' (pre' ++ tail) tensor_dims
       = Some (pre' ++ best)
       /\ search_result (S rest) nprocs' pre' best) ->
  1 <= nprocs -> Forall (fun g => 1 <= g) pre -> prod pre * nprocs = N ->
  (length pre + S (S rest) <= length tensor_dims)%nat ->
  forall todo done st,
    (forall d, d ∈ todo -> d ∈ divisors_of nprocs) ->
    loop_inv rest nprocs pre done st ->
    exists st',
      foldl_opt (search_step (S rest) nprocs (length pre) tensor_dims)
        todo st = Some st'
      /\ loop_inv rest nprocs pre (done ++ todo) st'
      /\ (todo = [] -> st' = st).
Proof using N_range dims_nonneg no_overflow.
  intros IH Hn Hpre Hprod Hlen.
  induction todo as [|d todo IHtodo]; intros done st Hds Hinv.
  - exists st. rewrite app_nil_r. done.
  - destruct st as [[g t] m].
    destruct Hinv as [(tail & -> & Htail) Hbest].
    destruct (divisors_of_elems nprocs d Hn (Hds d ltac:(left)))
      as (Hd1 & Hd2 & Hd3).
    destruct tail as [|x tail]; [done|]. cbn in Htail.
    assert (exists st1,
              search_step (S rest) nprocs (length pre) tensor_dims
                (g, pre ++ x :: tail, m) d = Some st1
              /\ loop_inv rest nprocs pre (done ++ [d]) st1)
      as (st1 & Hstep & Hinv1).
    { unfold search_step.
      assert (<[length pre := d]> (pre ++ x :: tail) = (pre ++ [d]) ++ tail)
        as ->.
      { replace (length pre) with (length pre + 0)%nat at 1 by lia.
        rewrite insert_app_r. cbn. by rewrite <- app_assoc. }
      destruct (Z.eqb_spec d 0) as [?|_]; [lia|].
      destruct (IH (Z.quot nprocs d) (pre ++ [d]) tail)
        as (best' & Hrec & Hres).
      { lia. }
      { rewrite length_app. cbn. lia. }
      { lia. }
      { apply Forall_app. split; [done|]. constructor; [lia|constructor]. }
      { rewrite prod_app. unfold prod at 2. cbn [fold_right]. nia. }
      rewrite Hrec. cbn [mbind option_bind].
      destruct Hres as (Hb1 & Hb2 & Hb3 & Hb4 & Hb5).
      destruct (nelements_complete ((pre ++ [d]) ++ best')) as [Hnel Hsmall].
      { rewrite !length_app. cbn. lia. }
      { rewrite !Forall_app. repeat split; try done.
        constructor; [lia|constructor]. }
      { rewrite !prod_app, Hb3. unfold prod at 2. cbn [fold_right]. nia. }
      rewrite Hnel. cbn [mbind option_bind].
      assert ((pre ++ [d]) ++ best' = pre ++ d :: best') as Hassoc
        by (by rewrite <- app_assoc).
      assert (forall c,
                c ∈ map (cons d) (candidates (S rest) (Z.quot nprocs d)) ->
                storage N (pre ++ d :: best') tensor_dims
                <= storage N (pre ++ c) tensor_dims) as Hnew.
      { intros c Hc. apply list_elem_of_fmap in Hc as (c' & -> & Hc').
        specialize (Hb5 c' Hc'). rewrite <- !app_assoc in Hb5. exact Hb5. }
      assert (visited rest nprocs (done ++ [d])
              = visited rest nprocs done
                ++ map (cons d) (candidates (S rest) (Z.quot nprocs d)))
        as Hvis.
      { unfold visited. rewrite flat_map_app. cbn. by rewrite app_nil_r. }
      set (s := storage N ((pre ++ [d]) ++ best') tensor_dims) in *.
      destruct (Z.ltb_spec s m) as [Hlt|Hge].
      - eexists. split; [reflexivity|]. unfold loop_inv.
        split; [exists (d :: best'); split; [done|cbn; lia]|].
        right. exists (d :: best').
        split; [done|]. split; [cbn; lia|].
        split; [constructor; [lia|done]|].
        split; [unfold prod in *; cbn [fold_right]; nia|].
        split; [unfold s; by rewrite Hassoc|].
        rewrite Hvis. split.
        + apply elem_of_app. right. apply list_elem_of_fmap. eauto.
        + intros c Hc. apply elem_of_app in Hc as [Hc|Hc].
          * destruct Hbest as [[-> _]|(b & _ & _ & _ & _ & _ & _ & Hmin)].
            -- by apply elem_of_nil in Hc.
            -- specialize (Hmin c Hc). lia.
          * specialize (Hnew c Hc). unfold s. rewrite Hassoc. lia.
      - eexists. split; [reflexivity|]. unfold loop_inv.
        split; [exists (d :: best'); split; [done|cbn; lia]|].
        destruct Hbest as [[_ ->]|(b & Hg & Hl & Hf & Hp & Hm & Hin & Hmin)];
          [lia|].
        right. exists b. repeat (split; [done|]).
        rewrite Hvis. split; [apply elem_of_app; by left|].
        intros c Hc. apply elem_of_app in Hc as [Hc|Hc]; [by apply Hmin|].
        specialize (Hnew c Hc). unfold s in Hge. rewrite Hassoc in Hge. lia. }
    destruct (IHtodo (done ++ [d]) st1) as (st' & Hst' & Hinv' & _).
    { intros d' Hd'. apply Hds. by right. }
    { done. }
    exists st'. rewrite <- app_assoc in Hinv'. split; [|split; [done|discriminate]].
    change (foldl_opt ?f (d :: todo) ?b) with (b' ← f b d; foldl_opt f todo b').
    rewrite Hstep. exact Hst'.
Qed.

(** The search over the last [k] entries. *)
Lemma recurseMinSpaceGrid_spec (k : nat) :
  forall nprocs pre tail,
    (1 <= k)%nat -> length tail = k ->
    (length pre + k <= length tensor_dims)%nat ->
    1 <= nprocs -> Forall (fun g => 1 <= g) pre -> prod pre * nprocs = N ->
    exists best,
      recurseMinSpaceGrid k nprocs (pre ++ tail) tensor_dims
      = Some (pre ++ best)
      /\ search_result k nprocs pre best.
Proof using N_range dims_nonneg no_overflow.
  induction k as [|k IH]; intros nprocs pre tail Hk Htail Hlen Hn Hpre Hprod;
    [lia|].
  destruct k as [|k].
  - destruct tail as [|x [|? ?]]; try done.
    exists [nprocs]. rewrite recurseMinSpaceGrid_last. split; [done|].
    unfold search_result. split; [done|].
    split; [constructor; [lia|constructor]|].
    split; [unfold prod; cbn; lia|].
    cbn [candidates].
    split; [by apply list_elem_of_singleton|].
    intros c Hc. apply list_elem_of_singleton in Hc as ->. lia.
  - rewrite recurseMinSpaceGrid_search.
    rewrite length_app, Htail.
    destruct (Nat.ltb_spec (length pre + S (S k)) (S (S k))) as [?|_]; [lia|].
    replace (length pre + S (S k) - S (S k))%nat with (length pre) by lia.
    rewrite divisors_of_spec by done. cbn [mbind option_bind].
    destruct (search_loop k nprocs pre) with
      (todo := divisors_of nprocs) (done := @nil Z)
      (st := (pre ++ tail, pre ++ tail, INT64_MAX))
      as (st' & Hst' & Hinv' & _); try done.
    { intros nprocs' pre' tail' Ht' Hl' Hn' Hp' Hpr'.
      apply IH; try done; lia. }
    { unfold loop_inv. split; [by exists tail|]. by left. }
    rewrite Hst'. cbn [mbind option_bind].
    destruct st' as [[g t] m]. cbn [fst]. cbn [app] in Hinv'.
    destruct Hinv' as [_ [[Hnil _]|(b & -> & Hl & Hf & Hp & Hm & Hin & Hmin)]].
    { by apply divisors_of_nonempty in Hnil. }
    exists b. split; [done|]. unfold search_result.
    split; [done|]. split; [done|]. split; [done|]. split; [exact Hin|].
    intros c Hc. rewrite <- Hm. by apply Hmin.
Qed.

End Search.

Lemma candidates_valid (k : nat) :
  forall nprocs c,
    1 <= nprocs -> c ∈ candidates k nprocs ->
    length c = k /\ Forall (fun g => 1 <= g) c /\ prod c = nprocs.
Proof.
  induction k as [|k IH]; intros nprocs c Hn Hc; [by apply elem_of_nil in Hc|].
  destruct k as [|k].
  - apply list_elem_of_singleton in Hc as ->.
    split; [done|]. split; [constructor; [lia|constructor]|].
    unfold prod. cbn. lia.
  - cbn [candidates] in Hc.
    apply list_elem_of_In, in_flat_map in Hc as (d & Hd & Hc).
    apply list_elem_of_In in Hd, Hc.
    apply list_elem_of_fmap in Hc as (c' & -> & Hc').
    destruct (divisors_of_elems nprocs d Hn Hd) as (Hd1 & Hd2 & Hd3).
    destruct (IH _ _ Hd3 Hc') as (Hl & Hf & Hp).
    split; [cbn; lia|]. split; [constructor; [lia|done]|].
    unfold prod in *. cbn [fold_right]. nia.
Qed.

Lemma elem_divides_prod (g : Z) (l : list Z) : g ∈ l -> (g | prod l).
Proof.
  unfold prod. induction 1 as [g l|g h l _ IH]; cbn [fold_right].
  - by exists (fold_right Z.mul 1 l); lia.
  - destruct IH as [q Hq]. exists (h * q). lia.
Qed.

(** The grid [ProcessorMap] asks for uses every process: for a positive
    number of processes and at least one mode, [CartGrid] returns one
    positive extent per mode, each a divisor of the number of processes,
    and their product is the number of processes. *)
Theorem CartGrid_uses_all_processes (nprocs : Z) (tensor_dims : list Z)
    (strat : CartGridStratagy) :
  1 <= nprocs <= INT_MAX ->
  tensor_dims <> [] ->
  Forall (fun t => 0 <= t) tensor_dims ->
  nprocs * sum tensor_dims < INT64_MAX ->
  exists grid,
    CartGrid nprocs tensor_dims strat = Some grid /\
    length grid = length tensor_dims /\
    Forall (fun g => 1 <= g /\ (g | nprocs)) grid /\
    prod grid = nprocs.
Proof.
  intros Hn Hne Hd Hb.
  destruct (recurseMinSpaceGrid_spec nprocs tensor_dims Hn Hd Hb
              (length tensor_dims) nprocs [] (repeat 0 (length tensor_dims)))
    as (best & Hrec & Hl & Hf & Hp & _).
  { destruct tensor_dims; [done|cbn; lia]. }
  { by rewrite repeat_length. }
  { cbn. lia. }
  { lia. }
  { constructor. }
  { unfold prod. cbn. lia. }
  exists best. split.
  { destruct strat; exact Hrec. }
  split; [done|]. split; [|done].
  apply Forall_forall. intros g Hg. split.
  - by apply (proj1 (Forall_forall _ _) Hf).
  - rewrite <- Hp. by apply elem_divides_prod.
Qed.

(** Of the grids the search visits, none stores less than the one
    [minFactorSpaceGrid] returns, by the code's own count
    [nelementsForRank1Factors]. *)
Theorem minFactorSpaceGrid_minimal (nprocs : Z) (tensor_dims : list Z) :
  1 <= nprocs <= INT_MAX ->
  tensor_dims <> [] ->
  Forall (fun t => 0 <= t) tensor_dims ->
  nprocs * sum tensor_dims < INT64_MAX ->
  exists grid s,
    minFactorSpaceGrid nprocs tensor_dims = Some grid /\
    grid ∈ candidates (length tensor_dims) nprocs /\
    nelementsForRank1Factors grid tensor_dims = Some s /\
    forall c,
      c ∈ candidates (length tensor_dims) nprocs ->
      exists s', nelementsForRank1Factors c tensor_dims = Some s' /\ s <= s'.
Proof.
  intros Hn Hne Hd Hb.
  destruct (recurseMinSpaceGrid_spec nprocs tensor_dims Hn Hd Hb
              (length tensor_dims) nprocs [] (repeat 0 (length tensor_dims)))
    as (best & Hrec & Hl & Hf & Hp & Hin & Hmin).
  { destruct tensor_dims; [done|cbn; lia]. }
  { by rewrite repeat_length. }
  { cbn. lia. }
  { lia. }
  { constructor. }
  { unfold prod. cbn. lia. }
  cbn [app] in Hrec, Hmin.
  exists best, (storage nprocs best tensor_dims).
  split; [exact Hrec|]. split; [done|].
  split.
  { apply (nelements_complete nprocs tensor_dims Hn Hd Hb); [lia|done|done]. }
  intros c Hc. exists (storage nprocs c tensor_dims).
  split; [|by apply Hmin].
  destruct (candidates_valid (length tensor_dims) nprocs c ltac:(lia) Hc)
    as (Hcl & Hcf & Hcp).
  apply (nelements_complete nprocs tensor_dims Hn Hd Hb); [lia|done|done].
Qed.

Lemma divisors_sound_witness :
  exists ds,
    divisors 12 = Some ds /\
    Sorted Z.le ds /\
    1 ∈ ds /\ 12 ∈ ds /\
    forall d, d ∈ ds -> 1 <= d <= 12 /\ (d | 12).
Proof. apply (divisors_sound 12). lia. Defined.

Lemma divisors_misses_cofactor_witness :
  exists ds,
    divisors (3 * (3 + 1)) = Some ds /\
    (3 + 1 | 3 * (3 + 1)) /\
    3 + 1 ∉ ds.
Proof. apply (divisors_misses_cofactor 3). lia. Defined.

Lemma CartGrid_uses_all_processes_witness :
  exists grid,
    CartGrid 6 [30; 20] MinFactorSpace = Some grid /\
    length grid = length [30; 20] /\
    Forall (fun g => 1 <= g /\ (g | 6)) grid /\
    prod grid = 6.
Proof.
  apply (CartGrid_uses_all_processes 6 [30; 20] MinFactorSpace).
  - unfold INT_MAX. lia.
  - discriminate.
  - repeat constructor; lia.
  - vm_compute. reflexivity.
Defined.

Lemma minFactorSpaceGrid_minimal_witness :
  exists grid s,
    minFactorSpaceGrid 6 [30; 20] = Some grid /\
    grid ∈ candidates (length [30; 20]) 6 /\
    nelementsForRank1Factors grid [30; 20] = Some s /\
    forall c,
      c ∈ candidates (length [30; 20]) 6 ->
      exists s', nelementsForRank1Factors c [30; 20] = Some s' /\ s <= s'.
Proof.
  apply (minFactorSpaceGrid_minimal 6 [30; 20]).
  - unfold INT_MAX. lia.
  - discriminate.
  - repeat constructor; lia.
  - vm_compute. reflexivity.
Defined.

End CartGrid.

(** ** Distributed GCP (DistGCP) *)

Module DistGCP.
Import Pmap.

(** A [KokkosVector]: one flat array holding, mode after mode, the
    entries of the factor matrices.  [getKtensor] returns views into that
    array, so the Ktensor [ut] and the vector [u] are one object: the
    model keeps the vector, split by mode, and no second copy. *)
Abbreviation Vec E := (list (list E)).

(** The stepper interface of Genten_GCP_SGD_Step.hpp. *)
Class GCP_SGD_Step (E Stp : Type) : Type := {
  setStep : E -> Stp -> Stp;
  update : Stp -> Stp;
  (** [eval(g, u)] updates [u] in place and may change the stepper *)
  eval : Vec E -> Vec E -> Stp -> Vec E * Stp;
  setPassed : Stp -> Stp;
  setFailed : Stp -> Stp
}.

(** The annealer interface of Genten_Annealer.hpp. *)
Class Annealer (E A : Type) : Type := {
  (** [annealer(e)], the learning rate of epoch [e] *)
  anneal : Z -> A -> E * A;
  success : A -> A;
  failed : A -> A
}.

(** What the loops ask of the sampler and of the value kernel: the state
    [P] holds the local tensor, the generator and the value samples
    [X_val], [w_val] drawn once before the loop. *)
Class FusedSampler (E P : Type) : Type := {
  (** [sampler.fusedGradient(ut, loss, GFac, ..)]: adds into [GFac] *)
  fusedGradient : Vec E -> Vec E -> P -> Vec E * P;
  (** [Impl::gcp_value(X_val, ut, w_val, loss)] *)
  gcp_value : Vec E -> P -> E
}.

(** The variables of one rank that both training loops keep. *)
Record Rank (E Stp A P : Type) : Type := mkRank {
  u : Vec E;
  u_best : Vec E;
  g : Vec E;
  stepper : Stp;
  annealer : A;
  sampler : P;
  fest_prev : E;
  fest_best : E
}.
Arguments mkRank {E Stp A P}.
Arguments u {E Stp A P}.
Arguments u_best {E Stp A P}.
Arguments g {E Stp A P}.
Arguments stepper {E Stp A P}.
Arguments annealer {E Stp A P}.
Arguments sampler {E Stp A P}.
Arguments fest_prev {E Stp A P}.
Arguments fest_best {E Stp A P}.

(** What [fedOpt] keeps on top of that. *)
Record FedRank (E Stp A P MS : Type) : Type := mkFedRank {
  base : Rank E Stp A P;
  meta_u : Vec E;
  diff : Vec E;
  meta_stepper : MS
}.
Arguments mkFedRank {E Stp A P MS}.
Arguments base {E Stp A P MS}.
Arguments meta_u {E Stp A P MS}.
Arguments diff {E Stp A P MS}.
Arguments meta_stepper {E Stp A P MS}.

Section Collectives.
Context {E : Type} `{Real E}.
Variable pm : ProcessorMap.

(** [KokkosVector::zero] and [plus(x, alpha)]: [v(i) += alpha * x(i)]. *)
Definition zero (v : Vec E) : Vec E := map (map (fun _ => of_Z 0)) v.
Definition plus (v x : Vec E) (alpha : E) : Vec E :=
  zip_with (zip_with (fun vi xi => radd vi (rmul alpha xi))) v x.

(** The buffer rank [q] passes for mode [i]. *)
Definition buffer (gs : list (Vec E)) (i q : nat) : list E :=
  (gs !!! q) !!! i.

(** Elementwise sum of the members' buffers, in rank order. *)
Definition sum_buffers (bufs : list (list E)) : list E :=
  match bufs with
  | [] => []
  | b :: bs => fold_left (zip_with radd) bs b
  end.

(** [MPI_Allreduce(MPI_IN_PLACE, fac_ptr, fac_size, .., MPI_SUM, subComm)]
    as rank [r] sees it. *)
Definition MPI_Allreduce_SUM (gs : list (Vec E)) (i r : nat) : list E :=
  sum_buffers (map (buffer gs i) (subComm pm i r)).

(** [ttb_real(1.0 / gridSizes[d])] *)
Definition grid_scale (r d : nat) : E :=
  rdiv (of_Z 1) (of_Z (Z.of_nat (subCommSizes pm r d))).

(** [allReduceKT(g, divide_by_grid_size)] on rank [r]; [gs] are the
    Ktensors the ranks pass in. *)
Definition allReduceKT_rank (divide_by_grid_size : bool)
    (gs : list (Vec E)) (r : nat) (g_r : Vec E) : Vec E :=
  if (gridSize pm =? 1)%nat then g_r else
  let g_r :=
    imap (fun i fac =>
            if (subCommSizes pm r i =? 1)%nat then fac
            else MPI_Allreduce_SUM gs i r) g_r in
  if divide_by_grid_size then
    imap (fun d fac => map (fun x => rmul x (grid_scale r d)) fac) g_r
  else g_r.

(** The collective call: every rank of the grid takes part. *)
Definition allReduceKT (divide_by_grid_size : bool) (gs : list (Vec E))
    : list (Vec E) :=
  imap (allReduceKT_rank divide_by_grid_size gs) gs.

(** [pmap().gridAllReduce(x)]: the sum over the grid, in rank order. *)
Definition gridAllReduce (xs : list E) : E :=
  match xs with
  | [] => of_Z 0
  | x :: xs => fold_left radd xs x
  end.

End Collectives.

Section Loops.
Context {E Stp A P MS : Type}.
Context `{Real E} `{GCP_SGD_Step E Stp} `{Annealer E A} `{FusedSampler E P}.
Context `{GCP_SGD_Step E MS}.
Variable pm : ProcessorMap.
(** [algParams.epoch_iters] *)
Variable epochIters : nat.

Definition set_u (st : Rank E Stp A P) (v : Vec E) : Rank E Stp A P :=
  mkRank v (u_best st) (g st) (stepper st) (annealer st) (sampler st)
    (fest_prev st) (fest_best st).

(** [epoch_lr = annealer(e); stepper.setStep(epoch_lr)] *)
Definition begin_epoch (e : Z) (st : Rank E Stp A P) : Rank E Stp A P :=
  let '(epoch_lr, a) := anneal e (annealer st) in
  mkRank (u st) (u_best st) (g st) (setStep epoch_lr (stepper st)) a
    (sampler st) (fest_prev st) (fest_best st).

(** [g.zero(); sampler.fusedGradient(ut, loss, GFac, ..)] *)
Definition local_gradient (st : Rank E Stp A P) : Rank E Stp A P :=
  let '(G, smp) := fusedGradient (u st) (zero (g st)) (sampler st) in
  mkRank (u st) (u_best st) G (stepper st) (annealer st) smp
    (fest_prev st) (fest_best st).

(** [stepper.eval(g, u)] with [g] holding [G] *)
Definition apply_step (st : Rank E Stp A P) (G : Vec E) : Rank E Stp A P :=
  let '(v, stp) := eval G (u st) (stepper st) in
  mkRank v (u_best st) G stp (annealer st) (sampler st)
    (fest_prev st) (fest_best st).

(** [fest_diff > -0.001 * fest_best], with [fest_diff = fest_prev - fest]. *)
Definition accepts (fest : E) (st : Rank E Stp A P) : bool :=
  rltb (rmul (ropp (rdiv (of_Z 1) (of_Z 1000))) (fest_best st))
    (rsub (fest_prev st) fest).

(** [gridAllReduce(Impl::gcp_value(X_val, ut, w_val, loss))] *)
Definition estimate_fit (w : list (Rank E Stp A P)) : E :=
  gridAllReduce (map (fun st => gcp_value (u st) (sampler st)) w).

(** *** [allReduceTrad] *)

Definition do_update (st : Rank E Stp A P) : Rank E Stp A P :=
  mkRank (u st) (u_best st) (g st) (update (stepper st)) (annealer st)
    (sampler st) (fest_prev st) (fest_best st).

(** One pass of the inner loop on every rank: [stepper.update()], the
    local gradient, [allReduceKT(GFac, false)], [stepper.eval(g, u)]. *)
Definition trad_iter (w : list (Rank E Stp A P)) : list (Rank E Stp A P) :=
  let w := map (fun st => local_gradient (do_update st)) w in
  let Gs := allReduceKT pm false (map g w) in
  zip_with apply_step w Gs.

(** The accept/reject block that ends an epoch. *)
Definition trad_epoch_end (fest : E) (st : Rank E Stp A P) : Rank E Stp A P :=
  if accepts fest st then
    let best := rltb fest (fest_best st) in
    mkRank (u st) (if best then u st else u_best st) (g st)
      (setPassed (stepper st)) (success (annealer st)) (sampler st)
      fest (if best then fest else fest_best st)
  else
    mkRank (u_best st) (u_best st) (g st)
      (setFailed (stepper st)) (failed (annealer st)) (sampler st)
      (fest_prev st) (fest_best st).

(** The work of epoch [e] up to the fit estimate. *)
Definition trad_epoch_body (e : Z) (w : list (Rank E Stp A P))
    : list (Rank E Stp A P) :=
  Nat.iter epochIters trad_iter (map (begin_epoch e) w).

Definition trad_epoch (e : Z) (w : list (Rank E Stp A P))
    : list (Rank E Stp A P) :=
  let w := trad_epoch_body e w in
  let fest := estimate_fit w in
  map (trad_epoch_end fest) w.

(** [for (e = 0; e < maxEpochs; ++e)], [n] epochs from epoch [e] on. *)
Fixpoint trad_epochs (n : nat) (e : Z) (w : list (Rank E Stp A P))
    : list (Rank E Stp A P) :=
  match n with
  | O => w
  | S n => trad_epochs n (e + 1) (trad_epoch e w)
  end.

(** The state before the first epoch; a rank comes with its [Kfac_], its
    stepper, annealer and initialised sampler. *)
Definition initial_ranks (starts : list (Vec E * Stp * A * P))
    : list (Rank E Stp A P) :=
  let w := map (fun '(Kfac, stp, a, smp) =>
                  mkRank Kfac Kfac (zero Kfac) stp a smp (of_Z 0) (of_Z 0))
             starts in
  let fest := estimate_fit w in
  map (fun st => mkRank (u st) (u_best st) (g st) (stepper st)
                   (annealer st) (sampler st) fest fest) w.

(** [allReduceTrad]: what each rank returns and leaves in [Kfac_]. *)
Definition allReduceTrad (dump_ : bool) (maxEpochs : nat)
    (starts : list (Vec E * Stp * A * P)) : list (E * Vec E) :=
  if dump_ then map (fun '(Kfac, _, _, _) => (ropp (of_Z 1), Kfac)) starts
  else
    let w := trad_epochs maxEpochs 0 (initial_ranks starts) in
    map (fun st => (fest_prev st, u_best st)) w.

(** *** [fedOpt] *)

Definition on_base (f : Rank E Stp A P -> Rank E Stp A P)
    (st : FedRank E Stp A P MS) : FedRank E Stp A P MS :=
  mkFedRank (f (base st)) (meta_u st) (diff st) (meta_stepper st).

(** [do_epoch_iter]: the local gradient and a local step. *)
Definition do_epoch_iter (st : Rank E Stp A P) : Rank E Stp A P :=
  let st := local_gradient st in
  apply_step st (g st).

(** [(i + 1) % dp_iters == 0 || i == (epochIters - 1)] *)
Definition sync_due (dp_iters : Z) (i : nat) : bool :=
  (Z.rem (Z.of_nat i + 1) dp_iters =? 0)
  || (Z.of_nat i =? Z.of_nat epochIters - 1).

(** Synchronisation with [fedavg]: [allReduceKT(ut, true)]. *)
Definition sync_fedavg (w : list (FedRank E Stp A P MS))
    : list (FedRank E Stp A P MS) :=
  let us := allReduceKT pm true (map (fun st => u (base st)) w) in
  zip_with (fun st v => on_base (fun b => set_u b v) st) w us.

(** Synchronisation through the meta-gradient. *)
Definition sync_meta (meta_lr : E) (w : list (FedRank E Stp A P MS))
    : list (FedRank E Stp A P MS) :=
  let w := map (fun st =>
                  mkFedRank (base st) (meta_u st)
                    (plus (meta_u st) (u (base st)) (ropp (of_Z 1)))
                    (meta_stepper st)) w in
  let ds := allReduceKT pm true (map diff w) in
  zip_with (fun st D =>
              let ms := setStep meta_lr (update (meta_stepper st)) in
              let '(mu, ms) := eval D (meta_u st) ms in
              mkFedRank (set_u (base st) mu) mu D ms) w ds.

(** Pass [i] of the inner loop on every rank. *)
Definition fed_iter (dp_iters : Z) (fedavg : bool) (meta_lr : E) (i : nat)
    (w : list (FedRank E Stp A P MS)) : list (FedRank E Stp A P MS) :=
  let w := map (on_base do_epoch_iter) w in
  if sync_due dp_iters i then
    if fedavg then sync_fedavg w else sync_meta meta_lr w
  else w.

Definition fed_inner_loop (dp_iters : Z) (fedavg : bool) (meta_lr : E)
    (w : list (FedRank E Stp A P MS)) : list (FedRank E Stp A P MS) :=
  fold_left (fun w i => fed_iter dp_iters fedavg meta_lr i w)
    (seq 0 epochIters) w.

(** The accept/reject block of [fedOpt]. *)
Definition fed_epoch_end (fest : E) (st : FedRank E Stp A P MS)
    : FedRank E Stp A P MS :=
  let b := base st in
  if accepts fest b then
    let best := rltb fest (fest_best b) in
    mkFedRank
      (mkRank (u b) (if best then u b else u_best b) (g b)
         (setPassed (stepper b)) (success (annealer b)) (sampler b)
         fest (if best then fest else fest_best b))
      (meta_u st) (diff st) (setPassed (meta_stepper st))
  else
    mkFedRank
      (mkRank (u_best b) (u_best b) (g b)
         (setFailed (stepper b)) (failed (annealer b)) (sampler b)
         (fest_prev b) (fest_best b))
      (meta_u st) (diff st) (setFailed (meta_stepper st)).

(** The work of epoch [e] up to the fit estimate. *)
Definition fed_epoch_body (dp_iters : Z) (fedavg : bool) (meta_lr : E)
    (e : Z) (w : list (FedRank E Stp A P MS)) : list (FedRank E Stp A P MS) :=
  fed_inner_loop dp_iters fedavg meta_lr (map (on_base (begin_epoch e)) w).

(** [n] epochs from epoch [e] on; the result is what each rank returns.
    A NaN estimate returns [fest_best] from inside the loop. *)
Fixpoint fed_epochs (dp_iters : Z) (fedavg : bool) (meta_lr : E)
    (n : nat) (e : Z) (w : list (FedRank E Stp A P MS)) : list E :=
  match n with
  | O => map (fun st => fest_prev (base st)) w
  | S n =>
      let w := fed_epoch_body dp_iters fedavg meta_lr e w in
      let fest := estimate_fit (map base w) in
      if risnan fest then map (fun st => fest_best (base st)) w
      else fed_epochs dp_iters fedavg meta_lr n (e + 1)
             (map (fed_epoch_end fest) w)
  end.

(** The state before the first epoch: [allReduceKT(ut)] averages the
    starting factors over the grid. *)
Definition initial_fed_ranks (starts : list (Vec E * Stp * A * P * MS))
    : list (FedRank E Stp A P MS) :=
  let us := allReduceKT pm true (map (fun '(Kfac, _, _, _, _) => Kfac) starts) in
  let w := zip_with (fun '(_, stp, a, smp, ms) v =>
                       mkFedRank
                         (mkRank v v (zero v) stp a smp (of_Z 0) (of_Z 0))
                         v (zero v) ms)
             starts us in
  let fest := estimate_fit (map base w) in
  map (on_base (fun st => mkRank (u st) (u_best st) (g st) (stepper st)
                            (annealer st) (sampler st) fest fest)) w.

Definition fedOpt (dp_iters : Z) (fedavg : bool) (meta_lr : E)
    (maxEpochs : nat) (starts : list (Vec E * Stp * A * P * MS)) : list E :=
  fed_epochs dp_iters fedavg meta_lr maxEpochs 0 (initial_fed_ranks starts).

End Loops.


(** *** Steppers, annealers and samplers for the examples *)

(** Modelled from the spec: [Impl::SGDStep] of Genten_GCP_SGD_Step.hpp is
    not among the sources.  "SGD: param -= rate * grad"; the state is the
    rate set by [setStep], and passing or failing leaves it alone. *)
Record SGDStep (E : Type) : Type := mkSGDStep { step : E }.
Arguments mkSGDStep {E}.
Arguments step {E}.

Definition SGDStep_eval `{Real E} (G v : Vec E) (s : SGDStep E)
    : Vec E * SGDStep E :=
  (zip_with (zip_with (fun vi gi => rsub vi (rmul (step s) gi))) v G, s).

#[export] Instance SGDStep_Step `{Real E} : GCP_SGD_Step E (SGDStep E) := {|
  setStep := fun rate _ => mkSGDStep rate;
  update := fun s => s;
  eval := SGDStep_eval;
  setPassed := fun s => s;
  setFailed := fun s => s
|}.

(** An annealer for the examples: it hands out its current rate, halves
    it on a failed epoch, and counts the notices it gets. *)
Record HalvingAnnealer (E : Type) : Type := mkHalving {
  rate : E;
  successes : nat;
  failures : nat
}.
Arguments mkHalving {E}.
Arguments rate {E}.
Arguments successes {E}.
Arguments failures {E}.

#[export] Instance HalvingAnnealer_Annealer `{Real E}
    : Annealer E (HalvingAnnealer E) := {|
  anneal := fun _ a => (rate a, a);
  success := fun a => mkHalving (rate a) (Datatypes.S (successes a)) (failures a);
  failed := fun a =>
    mkHalving (rdiv (rate a) (of_Z 2)) (successes a) (Datatypes.S (failures a))
|}.

(** A sampler for the examples: its gradient estimate is the fixed
    [local_grad], its value kernel the function [fit]. *)
Record ScriptedSampler (E : Type) : Type := mkScripted {
  local_grad : Vec E;
  fit : Vec E -> E
}.
Arguments mkScripted {E}.
Arguments local_grad {E}.
Arguments fit {E}.

#[export] Instance ScriptedSampler_Sampler `{Real E}
    : FusedSampler E (ScriptedSampler E) := {|
  fusedGradient := fun _ G p => (plus G (local_grad p) (of_Z 1), p);
  gcp_value := fun v p => fit p v
|}.


(** *** The end of an epoch *)

Section EpochEnd.
Context {E Stp A P MS : Type}.
Context `{Real E} `{GCP_SGD_Step E Stp} `{Annealer E A} `{FusedSampler E P}.
Context `{GCP_SGD_Step E MS}.

(** C1 as the code has it.  In both loops the epoch is accepted exactly
    when [fest_diff > -0.001 * fest_best].  An accepted epoch notifies the
    stepper(s) and the annealer of success, keeps [u] and makes [fest] the
    previous fit; it records [u] as the best snapshot only when
    [fest < fest_best].  A rejected epoch restores [u] from the best
    snapshot and notifies the stepper(s) and the annealer of failure. *)
Theorem epoch_end_accept_or_rollback (fest : E) (st : Rank E Stp A P)
    (fs : FedRank E Stp A P MS) :
  let st' := trad_epoch_end fest st in
  let fs' := fed_epoch_end fest fs in
  (accepts fest st = true ->
   stepper st' = setPassed (stepper st) /\
   annealer st' = success (annealer st) /\
   fest_prev st' = fest /\ u st' = u st /\
   (rltb fest (fest_best st) = true ->
    u_best st' = u st /\ fest_best st' = fest) /\
   (rltb fest (fest_best st) = false ->
    u_best st' = u_best st /\ fest_best st' = fest_best st)) /\
  (accepts fest st = false ->
   u st' = u_best st /\ u_best st' = u_best st /\
   stepper st' = setFailed (stepper st) /\
   annealer st' = failed (annealer st) /\
   fest_prev st' = fest_prev st /\ fest_best st' = fest_best st) /\
  (accepts fest (base fs) = true ->
   stepper (base fs') = setPassed (stepper (base fs)) /\
   meta_stepper fs' = setPassed (meta_stepper fs) /\
   annealer (base fs') = success (annealer (base fs)) /\
   fest_prev (base fs') = fest /\ u (base fs') = u (base fs) /\
   (rltb fest (fest_best (base fs)) = true ->
    u_best (base fs') = u (base fs) /\ fest_best (base fs') = fest) /\
   (rltb fest (fest_best (base fs)) = false ->
    u_best (base fs') = u_best (base fs) /\
    fest_best (base fs') = fest_best (base fs))) /\
  (accepts fest (base fs) = false ->
   u (base fs') = u_best (base fs) /\
   u_best (base fs') = u_best (base fs) /\
   stepper (base fs') = setFailed (stepper (base fs)) /\
   meta_stepper fs' = setFailed (meta_stepper fs) /\
   annealer (base fs') = failed (annealer (base fs)) /\
   fest_prev (base fs') = fest_prev (base fs) /\
   fest_best (base fs') = fest_best (base fs)).
Proof.
  cbv zeta. unfold trad_epoch_end, fed_epoch_end.
  destruct (accepts fest st), (accepts fest (base fs)),
    (rltb fest (fest_best st)), (rltb fest (fest_best (base fs)));
    cbn; intuition congruence.
Qed.

End EpochEnd.

(** A rank whose parameters moved from the best snapshot [0] to [1] while
    the fit stayed at 4. *)
Definition example_flat_epoch
    : Rank binary64 (SGDStep binary64) (HalvingAnnealer binary64)
        (ScriptedSampler binary64) :=
  mkRank [[b64_of_Z 1]] [[b64_of_Z 0]] [[b64_of_Z 0]]
    (mkSGDStep (b64_of_Z 1)) (mkHalving (b64_of_Z 1) 0 0)
    (mkScripted [[b64_of_Z 0]] (fun _ => b64_of_Z 4))
    (b64_of_Z 4) (b64_of_Z 4).

(** C1 as stated fails: the epoch with an unchanged fit is accepted
    ([0 > -0.004]), the annealer is told of a success, and the best
    snapshot is still the old one, not [u]. *)
Lemma accepted_epoch_keeps_old_snapshot_counterexample :
  let st := example_flat_epoch in
  let st' := trad_epoch_end (b64_of_Z 4) st in
  accepts (b64_of_Z 4) st = true /\
  successes (annealer st') = 1%nat /\
  u st' = [[b64_of_Z 1]] /\
  u_best st' = [[b64_of_Z 0]] /\
  u_best st' <> u st'.
Proof. cbv zeta. repeat split; vm_compute; congruence. Qed.


(** *** What the collective calls compute, entry by entry *)

Section CollectiveFacts.
Context {E : Type} `{Real E}.
Variable pm : ProcessorMap.

(** The sum of a list, left to right from its head. *)
Definition rsum (xs : list E) : E :=
  match xs with
  | [] => of_Z 0
  | x :: xs => fold_left radd xs x
  end.

(** Entry [k] of the mode-[i] buffers of the ranks of [comm]. *)
Definition entries (gs : list (Vec E)) (i k : nat) (comm : list nat)
    : list E :=
  map (fun q => default (of_Z 0) (buffer gs i q !! k)) comm.

Lemma fold_zip_with_lookup (bs : list (list E)) :
  forall (b : list E) (k : nat) (x : E),
    b !! k = Some x ->
    Forall (fun c => is_Some (c !! k)) bs ->
    fold_left (zip_with radd) bs b !! k
    = Some (fold_left radd (map (fun c => default (of_Z 0) (c !! k)) bs) x).
Proof.
  induction bs as [|c bs IH]; intros b k x Hb Hall; simpl; [done|].
  inversion Hall as [|? ? [y Hy] Hall']; subst.
  apply IH; [|done].
  rewrite lookup_zip_with, Hb, Hy. reflexivity.
Qed.

Lemma sum_buffers_lookup (bufs : list (list E)) (k : nat) :
  bufs <> [] ->
  Forall (fun c => is_Some (c !! k)) bufs ->
  sum_buffers bufs !! k
  = Some (rsum (map (fun c => default (of_Z 0) (c !! k)) bufs)).
Proof.
  destruct bufs as [|b bs]; [done|]. intros _ Hall.
  inversion Hall as [|? ? [x Hx] Hall']; subst. simpl.
  rewrite Hx. simpl. by apply fold_zip_with_lookup.
Qed.

Lemma subComm_self (i r : nat) :
  (r < gridSize pm)%nat -> r ∈ subComm pm i r.
Proof.
  intros Hr. unfold subComm. apply list_elem_of_filter.
  split; [reflexivity|]. apply elem_of_seq. lia.
Qed.

Lemma subComm_singleton (i r : nat) :
  (r < gridSize pm)%nat -> subCommSizes pm r i = 1%nat ->
  subComm pm i r = [r].
Proof.
  intros Hr Hlen. pose proof (subComm_self i r Hr) as Hin.
  unfold subCommSizes in Hlen.
  destruct (subComm pm i r) as [|q [|q' l]]; simplify_eq/=.
  by apply list_elem_of_singleton in Hin as ->.
Qed.

Lemma subComm_grid_of_one (i r : nat) :
  (r < gridSize pm)%nat -> gridSize pm = 1%nat -> subComm pm i r = [r].
Proof.
  intros Hr H1. assert (r = 0%nat) as -> by lia.
  unfold subComm. rewrite H1. change (seq 0 1) with [0%nat].
  rewrite filter_cons_True by reflexivity. reflexivity.
Qed.

Lemma allReduceKT_lookup (divide : bool) (gs : list (Vec E)) (r : nat) :
  allReduceKT pm divide gs !! r
  = allReduceKT_rank pm divide gs r <$> gs !! r.
Proof. unfold allReduceKT. apply list_lookup_imap. Qed.

Lemma length_allReduceKT (divide : bool) (gs : list (Vec E)) :
  length (allReduceKT pm divide gs) = length gs.
Proof. unfold allReduceKT. apply length_imap. Qed.

Lemma buffer_own (gs : list (Vec E)) (i r : nat) (g_r : Vec E)
    (fac : list E) :
  gs !! r = Some g_r -> g_r !! i = Some fac -> buffer gs i r = fac.
Proof.
  intros Hr Hi. unfold buffer.
  rewrite (list_lookup_total_correct gs r g_r Hr).
  by apply list_lookup_total_correct.
Qed.

(** Entry [k] of mode [i] after [allReduceKT]: the sum, in rank order, of
    that entry over the mode's sub-communicator; with
    [divide_by_grid_size], and more than one process, times
    [1.0 / gridSizes[i]]. *)
Lemma allReduceKT_rank_entry (divide : bool) (gs : list (Vec E))
    (r i k : nat) (g_r : Vec E) (fac : list E) (x : E) :
  (r < gridSize pm)%nat ->
  gs !! r = Some g_r -> g_r !! i = Some fac -> fac !! k = Some x ->
  (forall q, q ∈ subComm pm i r -> is_Some (buffer gs i q !! k)) ->
  allReduceKT_rank pm divide gs r g_r !! i ≫= (.!! k)
  = Some (let s := rsum (entries gs i k (subComm pm i r)) in
          if (gridSize pm =? 1)%nat then s
          else if divide then rmul s (grid_scale pm r i) else s).
Proof.
  intros Hr Hgs Hi Hk Hall. cbv zeta.
  pose proof (buffer_own gs i r g_r fac Hgs Hi) as Hown.
  assert (forall c, c = [r] -> rsum (entries gs i k c) = x) as Hone.
  { intros c ->. simpl. rewrite Hown, Hk. reflexivity. }
  assert (Hsum : MPI_Allreduce_SUM pm gs i r !! k
                 = Some (rsum (entries gs i k (subComm pm i r)))).
  { unfold MPI_Allreduce_SUM, entries.
    rewrite sum_buffers_lookup.
    - by rewrite map_map.
    - pose proof (subComm_self i r Hr) as Hin.
      destruct (subComm pm i r); [by apply elem_of_nil in Hin|done].
    - apply Forall_forall. intros c Hc.
      apply list_elem_of_fmap in Hc as (q & -> & Hq).
      by apply Hall. }
  unfold allReduceKT_rank.
  destruct (Nat.eqb_spec (gridSize pm) 1) as [H1|H1].
  { rewrite Hi. simpl. rewrite Hk.
    by rewrite (Hone _ (subComm_grid_of_one i r Hr H1)). }
  assert (Hfirst :
    imap (fun i fac =>
            if (subCommSizes pm r i =? 1)%nat then fac
            else MPI_Allreduce_SUM pm gs i r) g_r !! i ≫= (.!! k)
    = Some (rsum (entries gs i k (subComm pm i r)))).
  { rewrite list_lookup_imap, Hi. simpl.
    destruct (Nat.eqb_spec (subCommSizes pm r i) 1) as [Hs|Hs].
    - rewrite Hk. by rewrite (Hone _ (subComm_singleton i r Hr Hs)).
    - exact Hsum. }
  destruct divide; [|exact Hfirst].
  rewrite list_lookup_imap.
  destruct (imap _ g_r !! i) as [fac'|] eqn:Hfac'; [|done].
  simpl in *. rewrite list_lookup_fmap, Hfirst. reflexivity.
Qed.

End CollectiveFacts.


(** *** The traditional all-reduce iteration *)

Section TradIter.
Context {E Stp A P : Type}.
Context `{Real E} `{GCP_SGD_Step E Stp} `{Annealer E A} `{FusedSampler E P}.
Variable pm : ProcessorMap.

(** The gradient a rank computes locally in one pass. *)
Definition local_G (st : Rank E Stp A P) : Vec E :=
  g (local_gradient (do_update st)).

Lemma local_gradient_keeps (st : Rank E Stp A P) :
  u (local_gradient st) = u st /\
  stepper (local_gradient st) = stepper st /\
  u_best (local_gradient st) = u_best st /\
  annealer (local_gradient st) = annealer st /\
  fest_prev (local_gradient st) = fest_prev st /\
  fest_best (local_gradient st) = fest_best st.
Proof.
  unfold local_gradient. destruct (fusedGradient _ _ _). by cbn.
Qed.

Lemma apply_step_spec (st : Rank E Stp A P) (G : Vec E) :
  g (apply_step st G) = G /\
  (u (apply_step st G), stepper (apply_step st G))
  = eval G (u st) (stepper st) /\
  u_best (apply_step st G) = u_best st /\
  annealer (apply_step st G) = annealer st /\
  fest_prev (apply_step st G) = fest_prev st /\
  fest_best (apply_step st G) = fest_best st.
Proof.
  unfold apply_step. destruct (eval G (u st) (stepper st)). by cbn.
Qed.

Lemma trad_iter_lookup (w : list (Rank E Stp A P)) (r : nat)
    (st : Rank E Stp A P) :
  w !! r = Some st ->
  trad_iter pm w !! r
  = Some (apply_step (local_gradient (do_update st))
            (allReduceKT_rank pm false (map local_G w) r (local_G st))).
Proof.
  intros Hr. unfold trad_iter.
  rewrite lookup_zip_with, list_lookup_fmap, Hr. simpl.
  rewrite allReduceKT_lookup, list_lookup_fmap, list_lookup_fmap, Hr. simpl.
  rewrite map_map. reflexivity.
Qed.

(** C2. In every pass of [allReduceTrad]'s inner loop, on every rank, the
    gradient that [stepper.eval] consumes holds, at each entry of each
    mode, the sum over that mode's sub-communicator of the entries the
    ranks computed locally in this pass: summed, not scaled.  (Where the
    sub-communicator is the rank alone the sum is the rank's own entry and
    the call is skipped.) *)
Theorem trad_iter_consumes_summed_gradient (w : list (Rank E Stp A P))
    (r : nat) (st : Rank E Stp A P) :
  w !! r = Some st -> (r < gridSize pm)%nat ->
  exists st',
    trad_iter pm w !! r = Some st' /\
    (u st', stepper st') = eval (g st') (u st) (update (stepper st)) /\
    forall (i k : nat) (x : E),
      local_G st !! i ≫= (.!! k) = Some x ->
      (forall q, q ∈ subComm pm i r ->
                 is_Some (buffer (map local_G w) i q !! k)) ->
      g st' !! i ≫= (.!! k)
      = Some (rsum (entries (map local_G w) i k (subComm pm i r))).
Proof.
  intros Hr Hlt. eexists. split; [by apply trad_iter_lookup|].
  set (G := allReduceKT_rank pm false (map local_G w) r (local_G st)).
  destruct (apply_step_spec (local_gradient (do_update st)) G)
    as (Hg & Heval & _).
  destruct (local_gradient_keeps (do_update st)) as (Hu & Hstp & _).
  split.
  { rewrite Heval, Hg, Hu, Hstp. reflexivity. }
  intros i k x Hx Hall. rewrite Hg. unfold G.
  destruct (local_G st !! i) as [fac|] eqn:Hfac; [|done]. simpl in Hx.
  rewrite (allReduceKT_rank_entry pm false (map local_G w) r i k
             (local_G st) fac x); auto.
  - cbv zeta. by destruct (gridSize pm =? 1)%nat.
  - by rewrite list_lookup_fmap, Hr.
Qed.

End TradIter.

(** Two processes on a 2 x 1 grid: each owns its rows of mode 0 and both
    hold mode 1.  Parameters 0, local gradient entries 1, step 1. *)
Definition example_rank
    : Rank binary64 (SGDStep binary64) (HalvingAnnealer binary64)
        (ScriptedSampler binary64) :=
  mkRank [[b64_of_Z 0]; [b64_of_Z 0]] [[b64_of_Z 0]; [b64_of_Z 0]]
    [[b64_of_Z 0]; [b64_of_Z 0]]
    (mkSGDStep (b64_of_Z 1)) (mkHalving (b64_of_Z 1) 0 0)
    (mkScripted [[b64_of_Z 1]; [b64_of_Z 1]] (fun _ => b64_of_Z 0))
    (b64_of_Z 0) (b64_of_Z 0).

Definition example_grid : ProcessorMap := mkPmap [2; 1]%nat.

Example trad_iter_2x1 :
  map u (trad_iter example_grid [example_rank; example_rank])
  = [[[b64_of_Z (-1)]; [b64_of_Z (-2)]]; [[b64_of_Z (-1)]; [b64_of_Z (-2)]]].
Proof. vm_compute. reflexivity. Qed.

(** The theorem at rank 0 of the 2 x 1 example. *)
Lemma trad_iter_consumes_summed_gradient_witness :
  exists st',
    trad_iter example_grid [example_rank; example_rank] !! 0%nat = Some st' /\
    (u st', stepper st')
    = eval (g st') (u example_rank) (update (stepper example_rank)) /\
    forall (i k : nat) (x : binary64),
      local_G example_rank !! i ≫= (.!! k) = Some x ->
      (forall q, q ∈ subComm example_grid i 0 ->
                 is_Some (buffer (map local_G [example_rank; example_rank])
                            i q !! k)) ->
      g st' !! i ≫= (.!! k)
      = Some (rsum (entries (map local_G [example_rank; example_rank]) i k
                      (subComm example_grid i 0))).
Proof.
  apply (trad_iter_consumes_summed_gradient example_grid
           [example_rank; example_rank] 0 example_rank);
    [reflexivity | vm_compute; lia].
Defined.


(** *** A fit estimate that is not a number *)

(** What the loops need to know about NaN: it propagates through the
    subtraction and compares false. *)
Class NaNLaws (E : Type) `{Real E} : Prop := {
  rsub_nan_r : forall a b : E, risnan b = true -> risnan (rsub a b) = true;
  rltb_nan_r : forall a b : E, risnan b = true -> rltb a b = false
}.

#[export] Instance binary64_NaNLaws : NaNLaws binary64.
Proof.
  split.
  - intros a b Hb. destruct b; try discriminate. by destruct a.
  - intros a b Hb. destruct b; try discriminate. by destruct a.
Qed.

#[export] Instance Qc_NaNLaws : NaNLaws Qc.
Proof. split; intros a b Hb; discriminate Hb. Qed.

Section NaNFit.
Context {E Stp A P MS : Type}.
Context `{Real E} `{GCP_SGD_Step E Stp} `{Annealer E A} `{FusedSampler E P}.
Context `{GCP_SGD_Step E MS}.
Variable pm : ProcessorMap.
Variable epochIters : nat.

(** The rejected branch of [trad_epoch_end]. *)
Definition rollback (st : Rank E Stp A P) : Rank E Stp A P :=
  mkRank (u_best st) (u_best st) (g st) (setFailed (stepper st))
    (failed (annealer st)) (sampler st) (fest_prev st) (fest_best st).

Lemma accepts_nan `{!NaNLaws E} (fest : E) (st : Rank E Stp A P) :
  risnan fest = true -> accepts fest st = false.
Proof.
  intros Hnan. unfold accepts. apply rltb_nan_r. by apply rsub_nan_r.
Qed.

Lemma map_zip_with_keeps {X Y Z : Type} (f : X -> Y -> X) (h : X -> Z)
    (l : list X) (k : list Y) :
  length k = length l -> (forall a b, h (f a b) = h a) ->
  map h (zip_with f l k) = map h l.
Proof.
  intros Hlen Hf. revert k Hlen.
  induction l as [|a l IH]; intros [|b k] Hlen; simplify_eq/=; [done|].
  rewrite Hf. f_equal. by apply IH.
Qed.

Lemma map_map_keeps {X Z : Type} (f : X -> X) (h : X -> Z) (l : list X) :
  (forall a, h (f a) = h a) -> map h (map f l) = map h l.
Proof. intros Hf. rewrite map_map. apply map_ext. exact Hf. Qed.

Local Abbreviation best := (fun st : FedRank E Stp A P MS => fest_best (base st)).

Lemma begin_epoch_best e (st : Rank E Stp A P) :
  fest_best (begin_epoch e st) = fest_best st.
Proof. unfold begin_epoch. by destruct (anneal e (annealer st)). Qed.

Lemma do_epoch_iter_best (st : Rank E Stp A P) :
  fest_best (do_epoch_iter st) = fest_best st.
Proof.
  unfold do_epoch_iter.
  destruct (apply_step_spec (local_gradient st) (g (local_gradient st)))
    as (_ & _ & _ & _ & _ & ->).
  apply local_gradient_keeps.
Qed.

Lemma fed_iter_best dp_iters fedavg meta_lr i
    (w : list (FedRank E Stp A P MS)) :
  map best (fed_iter pm epochIters dp_iters fedavg meta_lr i w) = map best w.
Proof.
  unfold fed_iter.
  assert (map best (map (on_base do_epoch_iter) w) = map best w) as Hloc.
  { apply map_map_keeps. intros st. apply do_epoch_iter_best. }
  destruct (sync_due epochIters dp_iters i); [|exact Hloc].
  destruct fedavg.
  - unfold sync_fedavg. rewrite map_zip_with_keeps; [exact Hloc| |done].
    by rewrite length_allReduceKT, !length_map.
  - unfold sync_meta. rewrite map_zip_with_keeps.
    + rewrite map_map_keeps; [exact Hloc|done].
    + by rewrite length_allReduceKT, !length_map.
    + intros st D. cbn. by destruct (eval D (meta_u st) _).
Qed.

Lemma fed_epoch_body_best dp_iters fedavg meta_lr e
    (w : list (FedRank E Stp A P MS)) :
  map best (fed_epoch_body pm epochIters dp_iters fedavg meta_lr e w)
  = map best w.
Proof.
  unfold fed_epoch_body, fed_inner_loop.
  transitivity (map best (map (on_base (begin_epoch e)) w)).
  - generalize (map (on_base (begin_epoch e)) w) as w0.
    generalize (seq 0 epochIters) as idxs.
    induction idxs as [|i idxs IH]; intros w0; simpl; [done|].
    rewrite IH. apply fed_iter_best.
  - apply map_map_keeps. intros st. apply begin_epoch_best.
Qed.

(** C6 as the code has it.  In [fedOpt] a NaN estimate after an epoch's
    fit evaluation makes every rank return at once, whatever epochs
    remain, the best fit it knew before that epoch.  [allReduceTrad] has
    no such test: the NaN estimate fails the acceptance test, the epoch is
    rolled back and the loop goes on with the next epoch. *)
Theorem nan_fit_returns_in_fedOpt_rolls_back_in_allReduceTrad
    `{!NaNLaws E} (dp_iters : Z) (fedavg : bool) (meta_lr : E) (n : nat)
    (e : Z) (wf : list (FedRank E Stp A P MS))
    (wt : list (Rank E Stp A P)) :
  (risnan (estimate_fit
             (map base (fed_epoch_body pm epochIters dp_iters fedavg
                          meta_lr e wf))) = true ->
   fed_epochs pm epochIters dp_iters fedavg meta_lr (Datatypes.S n) e wf
   = map (fun st => fest_best (base st)) wf) /\
  (risnan (estimate_fit (trad_epoch_body pm epochIters e wt)) = true ->
   trad_epochs pm epochIters (Datatypes.S n) e wt
   = trad_epochs pm epochIters n (e + 1)
       (map rollback (trad_epoch_body pm epochIters e wt))).
Proof.
  split; intros Hnan.
  - cbn [fed_epochs]. cbv zeta. rewrite Hnan.
    apply fed_epoch_body_best.
  - cbn [trad_epochs]. unfold trad_epoch. cbv zeta. f_equal.
    apply map_ext. intros st. unfold trad_epoch_end.
    by rewrite (accepts_nan _ st Hnan).
Qed.

End NaNFit.


(** A single process ([1]-grid), one parameter starting at 0, local
    gradient -1, rate 1 halved on failure, one pass per epoch.  The full
    step lands on 1, half a step on 0.5.  The value kernel yields 4 at the
    start, 1 after half a step and [bad] after a full step. *)
Definition diverging_fit (bad : binary64) (v : Vec binary64) : binary64 :=
  match v with
  | [[a]] =>
      if rltb a (rdiv (of_Z 1) (of_Z 4)) then b64_of_Z 4
      else if rltb a (rdiv (of_Z 3) (of_Z 4)) then b64_of_Z 1
      else bad
  | _ => bad
  end.

Definition diverging_start (bad : binary64)
    : Vec binary64 * SGDStep binary64 * HalvingAnnealer binary64
      * ScriptedSampler binary64 :=
  ([[b64_of_Z 0]], mkSGDStep (b64_of_Z 1), mkHalving (b64_of_Z 1) 0 0,
   mkScripted [[b64_of_Z (-1)]] (diverging_fit bad)).

Definition diverging_fed_start (bad : binary64)
    : Vec binary64 * SGDStep binary64 * HalvingAnnealer binary64
      * ScriptedSampler binary64 * SGDStep binary64 :=
  (diverging_start bad, mkSGDStep (b64_of_Z 1)).

Definition single_process : ProcessorMap := mkPmap [1%nat].

Definition diverging_ranks (bad : binary64) :=
  initial_ranks [diverging_start bad].

Definition diverging_fed_ranks (bad : binary64) :=
  initial_fed_ranks single_process [diverging_fed_start bad].

Definition plus_infinity : binary64 := S754_infinity false.

(** C6 as stated fails.  In [allReduceTrad] the first epoch's estimate is
    NaN while the best known fit is 4, yet the run goes on to the second
    epoch and returns its fit 1.  In [fedOpt] an infinite estimate is not
    tested either: the run goes on and returns 1. *)
Lemma non_finite_fit_does_not_abort_counterexample :
  (risnan (estimate_fit
             (trad_epoch_body single_process 1 0 (diverging_ranks S754_nan)))
   = true /\
   map fest_best (diverging_ranks S754_nan) = [b64_of_Z 4] /\
   map fst (allReduceTrad single_process 1 false 2 [diverging_start S754_nan])
   = [b64_of_Z 1]) /\
  (estimate_fit
     (map base (fed_epoch_body single_process 1 1 true (b64_of_Z 1) 0
                  (diverging_fed_ranks plus_infinity)))
   = plus_infinity /\
   map (fun st => fest_best (base st)) (diverging_fed_ranks plus_infinity)
   = [b64_of_Z 4] /\
   fedOpt single_process 1 1 true (b64_of_Z 1) 2
     [diverging_fed_start plus_infinity]
   = [b64_of_Z 1]).
Proof. repeat split; vm_compute; reflexivity. Qed.

(** The theorem on the diverging runs: [fedOpt] returns the best fit 4
    from the first of its two epochs, [allReduceTrad] rolls back and runs
    its second epoch. *)
Lemma nan_fit_returns_in_fedOpt_rolls_back_in_allReduceTrad_witness :
  fed_epochs single_process 1 1 true (b64_of_Z 1) 2 0
    (diverging_fed_ranks S754_nan)
  = [b64_of_Z 4] /\
  trad_epochs single_process 1 2 0 (diverging_ranks S754_nan)
  = trad_epochs single_process 1 1 (0 + 1)
      (map rollback
         (trad_epoch_body single_process 1 0 (diverging_ranks S754_nan))).
Proof.
  destruct (nan_fit_returns_in_fedOpt_rolls_back_in_allReduceTrad
              single_process 1 1 true (b64_of_Z 1) 1 0
              (diverging_fed_ranks S754_nan) (diverging_ranks S754_nan))
    as [Hfed Htrad].
  split.
  - rewrite Hfed; vm_compute; reflexivity.
  - apply Htrad. vm_compute. reflexivity.
Defined.


(** *** Federated averaging at every pass *)

Section FedAvgFacts.
Context {E A P MS : Type}.
Context `{Real E} `{Annealer E A} `{FusedSampler E P}.
Context `{GCP_SGD_Step E MS}.
Variable pm : ProcessorMap.
Variable epochIters : nat.

Lemma buffer_entry (gs : list (Vec E)) (i q k : nat) (v : Vec E) :
  gs !! q = Some v -> buffer gs i q !! k = v !! i ≫= (.!! k).
Proof.
  intros Hq. unfold buffer. rewrite (list_lookup_total_correct gs q v Hq).
  destruct (v !! i) as [fac|] eqn:Hi.
  - by rewrite (list_lookup_total_correct v i fac Hi).
  - rewrite list_lookup_total_alt, Hi. reflexivity.
Qed.

Lemma entries_ext (gs : list (Vec E)) (i k : nat) (comm : list nat)
    (f : nat -> E) :
  (forall q, q ∈ comm -> buffer gs i q !! k = Some (f q)) ->
  entries gs i k comm = map f comm.
Proof.
  intros Hf. unfold entries. apply map_ext_in. intros q Hq.
  rewrite Hf by (by apply list_elem_of_In). reflexivity.
Qed.

Lemma SGDStep_eval_entry (G v : Vec E) (s : SGDStep E) (i k : nat)
    (x gx : E) :
  v !! i ≫= (.!! k) = Some x -> G !! i ≫= (.!! k) = Some gx ->
  (SGDStep_eval G v s).1 !! i ≫= (.!! k)
  = Some (rsub x (rmul (step s) gx)).
Proof.
  intros Hx Hg. unfold SGDStep_eval. simpl.
  rewrite lookup_zip_with.
  destruct (v !! i) as [vi|]; [|done].
  destruct (G !! i) as [gi|]; [|done]. simpl in *.
  rewrite lookup_zip_with, Hx, Hg. reflexivity.
Qed.

Lemma do_update_SGD (st : Rank E (SGDStep E) A P) : do_update st = st.
Proof. by destruct st. Qed.

Lemma do_epoch_iter_SGD (st : Rank E (SGDStep E) A P) :
  u (do_epoch_iter st)
  = (SGDStep_eval (g (local_gradient st)) (u st) (stepper st)).1.
Proof.
  unfold do_epoch_iter.
  destruct (apply_step_spec (local_gradient st) (g (local_gradient st)))
    as (_ & Heval & _).
  destruct (local_gradient_keeps st) as (Hu & Hstp & _).
  rewrite Hu, Hstp in Heval. simpl in Heval.
  by rewrite <- Heval.
Qed.

(** With [dp_iters = 1] every pass synchronises. *)
Lemma sync_due_every_pass (i : nat) : sync_due epochIters 1 i = true.
Proof. unfold sync_due. by rewrite Z.rem_1_r. Qed.

Lemma fed_iter_fedavg_lookup (meta_lr : E) (j r : nat)
    (wf : list (FedRank E (SGDStep E) A P MS))
    (fs : FedRank E (SGDStep E) A P MS) :
  wf !! r = Some fs ->
  let us := map (fun fq => u (do_epoch_iter (base fq))) wf in
  (fun fs' => u (base fs'))
    <$> fed_iter pm epochIters 1 true meta_lr j wf !! r
  = Some (allReduceKT_rank pm true us r (u (do_epoch_iter (base fs)))).
Proof.
  intros Hr. cbv zeta. unfold fed_iter.
  rewrite sync_due_every_pass. unfold sync_fedavg.
  rewrite lookup_zip_with, list_lookup_fmap, Hr. simpl.
  rewrite allReduceKT_lookup, !list_lookup_fmap, Hr. simpl.
  rewrite map_map. reflexivity.
Qed.

End FedAvgFacts.


(** *** Federated averaging against the traditional pass, in exact
    arithmetic *)

Lemma Q2Qc_inject_Z_add (a b : Z) :
  Q2Qc (inject_Z (a + b)) = (Q2Qc (inject_Z a) + Q2Qc (inject_Z b))%Qc.
Proof.
  rewrite inject_Z_plus. unfold Qcplus. apply Q2Qc_eq_iff.
  cbn [this Q2Qc]. rewrite !Qred_correct. reflexivity.
Qed.

Lemma Qc_of_nat_S (n : nat) :
  (of_Z (Z.of_nat (Datatypes.S n)) : Qc) = (of_Z (Z.of_nat n) + 1)%Qc.
Proof. simpl of_Z. rewrite Nat2Z.inj_succ, <- Z.add_1_r. apply Q2Qc_inject_Z_add. Qed.

Lemma Qc_of_nat_pos (n : nat) :
  (of_Z (Z.of_nat (Datatypes.S n)) : Qc) <> 0%Qc.
Proof.
  simpl of_Z. intros Heq. apply Q2Qc_eq_iff in Heq.
  unfold Qeq in Heq. simpl in Heq. lia.
Qed.

Lemma fold_Qcplus_affine (f : nat -> Qc) (x lr : Qc) (l : list nat) :
  forall (n : nat) (a : Qc),
    fold_left Qcplus (map (fun q => x - lr * f q)%Qc l)
      (of_Z (Z.of_nat n) * x - lr * a)%Qc
    = (of_Z (Z.of_nat (n + length l)) * x
       - lr * fold_left Qcplus (map f l) a)%Qc.
Proof.
  induction l as [|q l IH]; intros n a; cbn [fold_left map length].
  - by rewrite Nat.add_0_r.
  - replace (of_Z (Z.of_nat n) * x - lr * a + (x - lr * f q))%Qc
      with (of_Z (Z.of_nat (Datatypes.S n)) * x - lr * (a + f q))%Qc
      by (rewrite Qc_of_nat_S; ring).
    rewrite IH. by rewrite Nat.add_succ_comm.
Qed.

(** The sum of [x - lr * f q] over a non-empty communicator. *)
Lemma rsum_affine (f : nat -> Qc) (x lr : Qc) (comm : list nat) :
  comm <> [] ->
  rsum (map (fun q => x - lr * f q)%Qc comm)
  = (of_Z (Z.of_nat (length comm)) * x - lr * rsum (map f comm))%Qc.
Proof.
  destruct comm as [|q l]; [done|]. intros _. cbn [rsum map length].
  pose proof (fold_Qcplus_affine f x lr l 1 (f q)) as Hfold.
  replace (of_Z (Z.of_nat 1) * x - lr * f q)%Qc with (x - lr * f q)%Qc
    in Hfold by (change (of_Z (Z.of_nat 1) : Qc) with 1%Qc; ring).
  exact Hfold.
Qed.


Section FedAvgExact.
Context {A P MS : Type}.
Context `{Annealer Qc A} `{FusedSampler Qc P} `{GCP_SGD_Step Qc MS}.
Variable pm : ProcessorMap.
Variable epochIters : nat.

(** The gradient a rank of [fedOpt] computes locally in one pass. *)
Definition fed_local_G (fq : FedRank Qc (SGDStep Qc) A P MS) : Vec Qc :=
  g (local_gradient (base fq)).

Lemma local_G_SGD (wf : list (FedRank Qc (SGDStep Qc) A P MS)) :
  map local_G (map base wf) = map fed_local_G wf.
Proof.
  rewrite map_map. apply map_ext. intros fq.
  unfold local_G, fed_local_G. by rewrite do_update_SGD.
Qed.

(** C7 as the code has it, in exact arithmetic.  Take a pass that starts
    from parameters and a rate that agree over the sub-communicator of
    mode [i].  With [downpour_iters = 1] and [fedavg = true], [fedOpt]
    moves entry [k] of mode [i] by the rate times the mean over the
    sub-communicator of the local gradient entries; [allReduceTrad] with
    the SGD stepper moves it by the rate times their sum. *)
Theorem fedavg_every_pass_steps_by_mean_gradient
    (wf : list (FedRank Qc (SGDStep Qc) A P MS)) (meta_lr : Qc)
    (j r i k : nat) (fs : FedRank Qc (SGDStep Qc) A P MS) (x lr : Qc) :
  (r < gridSize pm)%nat ->
  wf !! r = Some fs ->
  (forall q, q ∈ subComm pm i r ->
     exists fq, wf !! q = Some fq /\
                step (stepper (base fq)) = lr /\
                u (base fq) !! i ≫= (.!! k) = Some x /\
                is_Some (fed_local_G fq !! i ≫= (.!! k))) ->
  let sumG := rsum (entries (map fed_local_G wf) i k (subComm pm i r)) in
  let size := of_Z (Z.of_nat (subCommSizes pm r i)) in
  (exists fs',
      fed_iter pm epochIters 1 true meta_lr j wf !! r = Some fs' /\
      u (base fs') !! i ≫= (.!! k) = Some (x - lr * (sumG / size))%Qc) /\
  (exists st',
      trad_iter pm (map base wf) !! r = Some st' /\
      u st' !! i ≫= (.!! k) = Some (x - lr * sumG)%Qc).
Proof.
  intros Hr Hfs Hcomm. cbv zeta.
  set (Gs := map fed_local_G wf).
  set (Gf := fun q => default (of_Z 0 : Qc) (buffer Gs i q !! k)).
  pose proof (subComm_self pm i r Hr) as Hself.
  assert (HG : forall q fq, q ∈ subComm pm i r -> wf !! q = Some fq ->
                 fed_local_G fq !! i ≫= (.!! k) = Some (Gf q)).
  { intros q fq Hq Hfq.
    destruct (Hcomm q Hq) as (fq' & Hfq' & _ & _ & [gx Hgx]).
    assert (fq' = fq) as -> by congruence.
    unfold Gf. rewrite (buffer_entry Gs i q k (fed_local_G fq)).
    - by rewrite Hgx.
    - unfold Gs. by rewrite list_lookup_fmap, Hfq. }
  assert (Hsum : rsum (entries Gs i k (subComm pm i r))
                 = rsum (map Gf (subComm pm i r))) by reflexivity.
  rewrite Hsum.
  destruct (Hcomm r Hself) as (fs0 & Hfs0 & Hstep & Hx & _).
  assert (fs0 = fs) as -> by congruence.
  split.
  - (* fedOpt *)
    pose proof (fed_iter_fedavg_lookup pm epochIters meta_lr j r wf fs Hfs)
      as Hlook. cbv zeta in Hlook.
    set (us := map (fun fq => u (do_epoch_iter (base fq))) wf) in *.
    apply fmap_Some in Hlook as (fs' & Hfs' & Hu').
    exists fs'. split; [exact Hfs'|]. cbn beta in Hu'. rewrite <- Hu'.
    assert (Hus : forall q, q ∈ subComm pm i r ->
               buffer us i q !! k = Some (x - lr * Gf q)%Qc).
    { intros q Hq.
      destruct (Hcomm q Hq) as (fq & Hfq & Hsq & Hxq & _).
      rewrite (buffer_entry us i q k (u (do_epoch_iter (base fq))))
        by (unfold us; by rewrite list_lookup_fmap, Hfq).
      rewrite do_epoch_iter_SGD.
      rewrite (SGDStep_eval_entry _ _ _ i k x (Gf q) Hxq (HG q fq Hq Hfq)).
      by rewrite Hsq. }
    pose proof (Hus r Hself) as Hown.
    rewrite (buffer_entry us i r k (u (do_epoch_iter (base fs)))) in Hown
      by (unfold us; by rewrite list_lookup_fmap, Hfs).
    destruct (u (do_epoch_iter (base fs)) !! i) as [fac|] eqn:Hfac;
      [|done]. simpl in Hown.
    rewrite (allReduceKT_rank_entry pm true us r i k
               (u (do_epoch_iter (base fs))) fac (x - lr * Gf r)%Qc Hr);
      auto.
    + cbv zeta. f_equal.
      rewrite (entries_ext us i k _ (fun q => x - lr * Gf q)%Qc Hus).
      assert (subComm pm i r <> []) as Hne
        by (intros Hnil; rewrite Hnil in Hself; by apply elem_of_nil in Hself).
      rewrite (rsum_affine Gf x lr _ Hne).
      unfold grid_scale, subCommSizes.
      destruct (length (subComm pm i r)) as [|n] eqn:Hlen;
        [by destruct (subComm pm i r)|].
      pose proof (Qc_of_nat_pos n) as Hpos.
      change (of_Z 1 : Qc) with 1%Qc.
      destruct (gridSize pm =? 1)%nat eqn:Hgrid.
      * apply Nat.eqb_eq in Hgrid.
        rewrite (subComm_grid_of_one pm i r Hr Hgrid) in Hlen.
        simpl in Hlen. assert (n = 0%nat) as -> by lia.
        change (of_Z (Z.of_nat 1) : Qc) with 1%Qc. simpl rmul.
        field. exact Q_apart_0_1.
      * remember (of_Z (Z.of_nat (Datatypes.S n)) : Qc) as c.
        cbn [rmul rdiv Qc_Real]. field. exact Hpos.
    + unfold us. by rewrite list_lookup_fmap, Hfs.
    + intros q Hq. rewrite (Hus q Hq). by eexists.
  - (* allReduceTrad *)
    assert (Hbase : map base wf !! r = Some (base fs))
      by (by rewrite list_lookup_fmap, Hfs).
    rewrite (trad_iter_lookup pm (map base wf) r (base fs) Hbase).
    eexists. split; [reflexivity|].
    rewrite local_G_SGD. fold Gs. unfold local_G. rewrite do_update_SGD.
    set (G := allReduceKT_rank pm false Gs r (g (local_gradient (base fs)))).
    destruct (apply_step_spec (local_gradient (base fs)) G)
      as (_ & Heval & _).
    destruct (local_gradient_keeps (base fs)) as (Hu & Hstp & _).
    rewrite Hu, Hstp in Heval.
    replace (u (apply_step (local_gradient (base fs)) G))
      with (SGDStep_eval G (u (base fs)) (stepper (base fs))).1
      by (simpl in Heval; by rewrite <- Heval).
    rewrite (SGDStep_eval_entry G _ _ i k x
               (rsum (map Gf (subComm pm i r))) Hx).
    + by rewrite Hstep.
    + pose proof (HG r fs Hself Hfs) as Hown. fold (fed_local_G fs) in G.
      destruct (fed_local_G fs !! i) as [fac|] eqn:Hfac; [|done].
      simpl in Hown. unfold G.
      rewrite (allReduceKT_rank_entry pm false Gs r i k
                 (fed_local_G fs) fac (Gf r) Hr); auto.
      * cbv zeta. rewrite Hsum. by destruct (gridSize pm =? 1)%nat.
      * unfold Gs. by rewrite list_lookup_fmap, Hfs.
      * intros q Hq. destruct (Hcomm q Hq) as (fq & Hfq & _).
        rewrite (buffer_entry Gs i q k (fed_local_G fq))
          by (unfold Gs; by rewrite list_lookup_fmap, Hfq).
        rewrite (HG q fq Hq Hfq). by eexists.
Qed.

End FedAvgExact.


(** The 2 x 1 example as a [fedOpt] world. *)
Definition example_fed_rank
    : FedRank binary64 (SGDStep binary64) (HalvingAnnealer binary64)
        (ScriptedSampler binary64) (SGDStep binary64) :=
  mkFedRank example_rank (u example_rank) (zero (u example_rank))
    (mkSGDStep (b64_of_Z 1)).

(** C7 as stated fails.  On the 2 x 1 grid, from parameters 0 with local
    gradient entries 1 and rate 1, one pass of [fedOpt] with
    [downpour_iters = 1] and [fedavg = true] leaves the shared mode 1 at
    -1 (the mean of the two local steps), one pass of [allReduceTrad] with
    the SGD stepper leaves it at -2 (a step along the summed gradient). *)
Lemma fedavg_every_pass_differs_from_trad_counterexample :
  let wf := [example_fed_rank; example_fed_rank] in
  let fed := map (fun fs => u (base fs))
               (fed_iter example_grid 1 1 true (b64_of_Z 1) 0 wf) in
  let trad := map u (trad_iter example_grid (map base wf)) in
  fed = [[[b64_of_Z (-1)]; [b64_of_Z (-1)]];
         [[b64_of_Z (-1)]; [b64_of_Z (-1)]]] /\
  trad = [[[b64_of_Z (-1)]; [b64_of_Z (-2)]];
          [[b64_of_Z (-1)]; [b64_of_Z (-2)]]] /\
  fed <> trad.
Proof. cbv zeta. repeat split; vm_compute; congruence. Qed.

(** The same world over the rationals. *)
Definition exact_rank
    : Rank Qc (SGDStep Qc) (HalvingAnnealer Qc) (ScriptedSampler Qc) :=
  mkRank [[0%Qc]; [0%Qc]] [[0%Qc]; [0%Qc]] [[0%Qc]; [0%Qc]]
    (mkSGDStep 1%Qc) (mkHalving 1%Qc 0 0)
    (mkScripted [[1%Qc]; [1%Qc]] (fun _ => 0%Qc)) 0%Qc 0%Qc.

Definition exact_fed_rank
    : FedRank Qc (SGDStep Qc) (HalvingAnnealer Qc) (ScriptedSampler Qc)
        (SGDStep Qc) :=
  mkFedRank exact_rank (u exact_rank) (zero (u exact_rank)) (mkSGDStep 1%Qc).

(** The theorem at rank 0 and the shared mode 1 of the 2 x 1 world. *)
Lemma fedavg_every_pass_steps_by_mean_gradient_witness :
  let wf := [exact_fed_rank; exact_fed_rank] in
  let sumG := rsum (entries (map fed_local_G wf) 1 0
                      (subComm example_grid 1 0)) in
  let size := of_Z (Z.of_nat (subCommSizes example_grid 0 1)) in
  (exists fs',
      fed_iter example_grid 1 1 true 1%Qc 0 wf !! 0%nat = Some fs' /\
      u (base fs') !! 1%nat ≫= (.!! 0%nat)
      = Some (0 - 1 * (sumG / size))%Qc) /\
  (exists st',
      trad_iter example_grid (map base wf) !! 0%nat = Some st' /\
      u st' !! 1%nat ≫= (.!! 0%nat) = Some (0 - 1 * sumG)%Qc).
Proof.
  apply (fedavg_every_pass_steps_by_mean_gradient example_grid 1
           [exact_fed_rank; exact_fed_rank] 1%Qc 0 0 1 0 exact_fed_rank
           0%Qc 1%Qc).
  - vm_compute. lia.
  - reflexivity.
  - intros q Hq. exists exact_fed_rank.
    change (subComm example_grid 1 0) with [0; 1]%nat in Hq.
    apply elem_of_cons in Hq as [->|Hq];
      [|apply list_elem_of_singleton in Hq as ->];
      (split; [reflexivity|]); (split; [reflexivity|]);
      (split; [reflexivity|]); by eexists.
Defined.

(** *** Agreement after [allReduceKT] *)

Section Agreement.
Context {E : Type} `{Real E}.
Variable pm : ProcessorMap.

(** Ranks with the same coordinate in mode [i] are in the same
    sub-communicator of the mode. *)
Lemma subComm_same_coord (i r q : nat) :
  coord pm q !! i = coord pm r !! i -> subComm pm i q = subComm pm i r.
Proof.
  intros Hc. unfold subComm. apply list_filter_iff. intros x.
  by rewrite Hc.
Qed.

(** After [allReduceKT] the ranks of a sub-communicator hold the same
    factor matrix of its mode: two ranks with the same coordinate in mode
    [i] end with equal factors [i]. *)
Theorem allReduceKT_agreement (divide : bool) (gs : list (Vec E))
    (i r q : nat) (g_r g_q out_r out_q : Vec E) :
  (r < gridSize pm)%nat -> (q < gridSize pm)%nat ->
  coord pm q !! i = coord pm r !! i ->
  (1 < gridSize pm)%nat ->
  gs !! r = Some g_r -> gs !! q = Some g_q ->
  is_Some (g_r !! i) -> is_Some (g_q !! i) ->
  allReduceKT pm divide gs !! r = Some out_r ->
  allReduceKT pm divide gs !! q = Some out_q ->
  out_r !! i = out_q !! i.
Proof.
  intros Hr Hq Hcoord Hgrid Hgr Hgq [fr Hfr] [fq Hfq] Hor Hoq.
  rewrite allReduceKT_lookup, Hgr in Hor. injection Hor as <-.
  rewrite allReduceKT_lookup, Hgq in Hoq. injection Hoq as <-.
  pose proof (subComm_same_coord i r q Hcoord) as Hcomm.
  assert (subCommSizes pm q i = subCommSizes pm r i) as Hsize
    by (unfold subCommSizes; by rewrite Hcomm).
  assert (MPI_Allreduce_SUM pm gs i q = MPI_Allreduce_SUM pm gs i r) as Hsum
    by (unfold MPI_Allreduce_SUM; by rewrite Hcomm).
  assert (grid_scale pm q i = grid_scale pm r i) as Hscale
    by (unfold grid_scale; by rewrite Hsize).
  assert (subCommSizes pm r i = 1%nat -> fq = fr) as Hone.
  { intros H1. pose proof (subComm_singleton pm i r Hr H1) as Hsr.
    pose proof (subComm_self pm i q Hq) as Hin. rewrite Hcomm, Hsr in Hin.
    apply list_elem_of_singleton in Hin as ->. congruence. }
  unfold allReduceKT_rank.
  destruct (Nat.eqb_spec (gridSize pm) 1) as [?|_]; [lia|].
  assert (imap (fun i fac =>
                  if (subCommSizes pm r i =? 1)%nat then fac
                  else MPI_Allreduce_SUM pm gs i r) g_r !! i
          = imap (fun i fac =>
                    if (subCommSizes pm q i =? 1)%nat then fac
                    else MPI_Allreduce_SUM pm gs i q) g_q !! i) as Hfirst.
  { rewrite !list_lookup_imap, Hfr, Hfq, Hsize, Hsum. cbn.
    destruct (Nat.eqb_spec (subCommSizes pm r i) 1) as [H1|_]; [|done].
    by rewrite Hone. }
  set (a := imap _ g_r) in *. set (b := imap _ g_q) in *.
  destruct divide; [|exact Hfirst].
  rewrite !list_lookup_imap, Hfirst, Hscale. done.
Qed.

End Agreement.

(** Six ranks on a 2 x 3 grid, two modes of one entry each. *)
Definition example_2x3 : list (Vec binary64) :=
  map (fun r => [[b64_of_Z r]; [b64_of_Z (10 * r)]]) [0; 1; 2; 3; 4; 5].

(** Ranks 3 and 5 share the coordinate of mode 0. *)
Lemma allReduceKT_agreement_witness :
  (allReduceKT (mkPmap [2; 3]%nat) true example_2x3 !!! 3%nat) !! 0%nat
  = (allReduceKT (mkPmap [2; 3]%nat) true example_2x3 !!! 5%nat) !! 0%nat.
Proof.
  apply (allReduceKT_agreement (mkPmap [2; 3]%nat) true example_2x3 0 3 5
           [[b64_of_Z 3]; [b64_of_Z 30]] [[b64_of_Z 5]; [b64_of_Z 50]]);
    try reflexivity; try (cbn; lia); by eexists.
Defined.

End DistGCP.

(** ** The initial guess ([DistGCP::init_factors] and [driver]) *)

Module InitialGuess.
Import Pmap.

Section Ktensor.
Context {E : Type} `{Real E}.
(** [std::sqrt] and [std::pow]. *)
Variable sqrt : E -> E.
Variable pow : E -> E -> E.

(** [KtensorT(nc, nd, sz)] followed by [setWeights(1.0)] and
    [setMatricesScatter(..)]: [scatter] are the matrices the random
    generator fills in. *)
Definition random_Ktensor (nc : nat) (scatter : list (FacMatrixT E))
    : KtensorT E :=
  mkKtensor (repeat (of_Z 1) nc) scatter.

(** [weights().times(c)]: every weight times [c]. *)
Definition weights_times (K : KtensorT E) (c : E) : KtensorT E :=
  mkKtensor (map (fun l => rmul l c) (lambda K)) (data K).

(** [data[i].colScale(lambda, false)]: column [j] times [lambda[j]]. *)
Definition colScale (A : FacMatrixT E) (v : list E) : FacMatrixT E :=
  map (fun row => zip_with rmul row v) A.

(** [KtensorT::distribute()]: the [nd]-th root of each weight goes into
    every factor matrix, the weights are reset to one. *)
Definition distribute (K : KtensorT E) : KtensorT E :=
  let nd := kt_ndims K in
  let root := map (fun l => pow l (rdiv (of_Z 1) (of_Z (Z.of_nat nd))))
                (lambda K) in
  mkKtensor (map (fun _ => of_Z 1) root)
    (map (fun A => colScale A root) (data K)).

(** Modelled from the spec: [FacMatrixT::gramian] is not among the
    sources; [normFsq] describes its result as the "RxR matrix of dot
    products between all factor column vectors" of a mode. *)
Definition gramian (n : nat) (A : FacMatrixT E) : FacMatrixT E :=
  map (fun r =>
         map (fun q =>
                fold_left (fun acc row =>
                             radd acc (rmul (default (of_Z 0) (row !! r))
                                         (default (of_Z 0) (row !! q))))
                  A (of_Z 0))
           (seq 0 n))
    (seq 0 n).

(** [cH.times(cG)]: the Hadamard product. *)
Definition hadamard (A B : FacMatrixT E) : FacMatrixT E :=
  zip_with (zip_with rmul) A B.

(** [KtensorT::normFsq()]: [cH] is the Hadamard product of the Gram
    matrices, the result [lambda' H lambda], summed row by row over the
    upper triangle. *)
Definition normFsq (K : KtensorT E) : E :=
  let n := ncomponents K in
  let ones := repeat (repeat (of_Z 1) n) n in
  let cH := fold_left (fun cH A => hadamard cH (gramian n A)) (data K) ones in
  let l := lambda K in
  let at_ (r q : nat) := default (of_Z 0) (entry cH r q) in
  let w (r : nat) := default (of_Z 0) (l !! r) in
  fold_left
    (fun d r =>
       let d := radd d (rmul (rmul (w r) (w r)) (at_ r r)) in
       fold_left
         (fun d q => radd d (rmul (rmul (rmul (of_Z 2) (w r)) (w q)) (at_ r q)))
         (seq (Datatypes.S r) (n - Datatypes.S r)) d)
    (seq 0 n) (of_Z 0).

(** [SptensorT::norm()]: "sqrt of the sum of the squares of all
    entries". *)
Definition sptensor_norm (X : SptensorT E) : E :=
  sqrt (fold_left (fun acc v => radd acc (rmul v v)) (values X) (of_Z 0)).

(** *** [DistGCP::init_factors] *)

(** Up to [Kfac_.distribute()], on one rank: [nc] is the rank of the
    decomposition, [X] the local tensor. *)
Definition init_factors_local (nc : nat) (scatter : list (FacMatrixT E))
    (X : SptensorT E) : KtensorT E :=
  let Kfac := random_Ktensor nc scatter in
  let norm_x := sptensor_norm X in
  let Kfac := weights_times Kfac (rdiv (of_Z 1) norm_x) in
  distribute Kfac.

(** A factor matrix as the flat array [MPI_Allreduce] works on, and
    back. *)
Definition flatten (A : FacMatrixT E) : list E := concat A.

Fixpoint unflatten (rows nc : nat) (flat : list E) : FacMatrixT E :=
  match rows with
  | O => []
  | Datatypes.S rows => take nc flat :: unflatten rows nc (drop nc flat)
  end.

(** [init_factors] on every rank of the grid; beyond one process the
    factors are averaged with [allReduceKT(Kfac_)]. *)
Definition init_factors (pm : ProcessorMap) (nc : nat)
    (locals : list (list (FacMatrixT E) * SptensorT E))
    : list (KtensorT E) :=
  let Ks := map (fun '(scatter, X) => init_factors_local nc scatter X)
              locals in
  if (1 <? gridSize pm)%nat then
    let reduced :=
      DistGCP.allReduceKT pm true (map (fun K => map flatten (data K)) Ks) in
    zip_with
      (fun K flat =>
         mkKtensor (lambda K)
           (zip_with (fun A f => unflatten (length A) nc f) (data K) flat))
      Ks reduced
  else Ks.

(** *** [driver] *)

(** The start of [driver]: an empty [u_init] is replaced by a random
    Ktensor whose weights are scaled by [norm_x / norm_u]; a given
    [u_init] is used as it is. *)
Definition driver_initial_guess (u_init : KtensorT E) (nc : nat)
    (scatter : list (FacMatrixT E)) (X : SptensorT E) : KtensorT E :=
  if (ncomponents u_init =? 0)%nat && (kt_ndims u_init =? 0)%nat then
    let u_init := random_Ktensor nc scatter in
    let norm_x := sptensor_norm X in
    let norm_u := sqrt (normFsq u_init) in
    weights_times u_init (rdiv norm_x norm_u)
  else u_init.

End Ktensor.


(** *** The initial guess on a one-entry tensor *)

Definition b64_sqrt : binary64 -> binary64 := SFsqrt 53 1024.

(** [n / 2^k] as a double. *)
Definition dyadic (n k : Z) : binary64 := rdiv (of_Z n) (of_Z (2 ^ k)).

(** A 1 x 1 tensor whose only entry is 4: its norm is 4. *)
Definition one_entry_tensor : SptensorT binary64 :=
  mkSptensor [1; 1] [[0; 0]] [b64_of_Z 4] true.

(** The generator fills both 1 x 1 factor matrices with 1/2. *)
Definition one_entry_scatter : list (FacMatrixT binary64) :=
  [[[dyadic 1 1]]; [[dyadic 1 1]]].

Example one_entry_tensor_norm :
  sptensor_norm b64_sqrt one_entry_tensor = b64_of_Z 4.
Proof. vm_compute. reflexivity. Qed.

(** [driver] on that tensor, with no initial guess: the weight becomes
    [4 / (1/4) = 16] and the Ktensor's norm is 4, the norm of the data. *)
Example driver_initial_guess_one_entry :
  let K := driver_initial_guess b64_sqrt (mkKtensor [] []) 1
             one_entry_scatter one_entry_tensor in
  K = mkKtensor [b64_of_Z 16] one_entry_scatter /\
  b64_sqrt (normFsq K) = sptensor_norm b64_sqrt one_entry_tensor.
Proof. cbv zeta. split; vm_compute; reflexivity. Qed.

(** *** [driver] in exact arithmetic *)

Section DriverExact.
Variable sqrt : Qc -> Qc.

Lemma fold_add_scale {A} (g g' : A -> Qc) (k : Qc) (xs : list A) (d : Qc) :
  (forall x, g' x = k * g x)%Qc ->
  fold_left (fun d x => d + g' x)%Qc xs (k * d)%Qc
  = (k * fold_left (fun d x => d + g x)%Qc xs d)%Qc.
Proof.
  intros Hg. revert d. induction xs as [|x xs IH]; intros d; [reflexivity|].
  cbn [fold_left]. rewrite Hg, <- IH. f_equal. ring.
Qed.

Lemma fold_fold_add_scale {A B} (diag diag' : A -> Qc) (h h' : A -> B -> Qc)
    (qs : A -> list B) (k : Qc) (rs : list A) (d : Qc) :
  (forall r, diag' r = k * diag r)%Qc ->
  (forall r q, h' r q = k * h r q)%Qc ->
  fold_left
    (fun d r => fold_left (fun d q => d + h' r q)%Qc (qs r) (d + diag' r)%Qc)
    rs (k * d)%Qc
  = (k * fold_left
       (fun d r => fold_left (fun d q => d + h r q)%Qc (qs r) (d + diag r)%Qc)
       rs d)%Qc.
Proof.
  intros Hd Hh. revert d. induction rs as [|r rs IH]; intros d; [reflexivity|].
  cbn [fold_left]. rewrite <- IH. f_equal.
  rewrite <- (fold_add_scale (h r) (h' r) k) by apply Hh.
  f_equal. rewrite Hd. ring.
Qed.

(** The squared norm is homogeneous of degree two in the weights. *)
Lemma normFsq_weights_times (K : KtensorT Qc) (c : Qc) :
  normFsq (weights_times K c) = (c * c * normFsq K)%Qc.
Proof.
  unfold normFsq, weights_times, ncomponents. cbn [lambda data].
  rewrite length_map.
  set (n := length (lambda K)).
  set (cH := fold_left _ (data K) _).
  set (w := fun r : nat => default 0%Qc (lambda K !! r)).
  set (w' := fun r : nat =>
               default 0%Qc (map (fun l : Qc => l * c)%Qc (lambda K) !! r)).
  set (at_ := fun r q : nat => default 0%Qc (entry cH r q)).
  assert (forall r, w' r = w r * c)%Qc as Hw.
  { intros r. unfold w', w. rewrite list_lookup_fmap.
    destruct (lambda K !! r); simpl; ring. }
  pose proof (fold_fold_add_scale
                (fun r => w r * w r * at_ r r)%Qc
                (fun r => w' r * w' r * at_ r r)%Qc
                (fun r q => Q2Qc (inject_Z 2) * w r * w q * at_ r q)%Qc
                (fun r q => Q2Qc (inject_Z 2) * w' r * w' q * at_ r q)%Qc
                (fun r => seq (Datatypes.S r) (n - Datatypes.S r))
                (c * c)%Qc (seq 0 n) 0%Qc) as Hf.
  replace (c * c * 0)%Qc with 0%Qc in Hf by ring.
  apply Hf.
  - intros r. rewrite Hw. ring.
  - intros r q. rewrite !Hw. ring.
Qed.

(** C9 at [driver]: with no initial guess given, the squared norm of the
    Ktensor [driver] starts from is the squared norm of the data, whenever
    the square root taken of the random Ktensor's squared norm is exact
    and not zero. *)
Lemma driver_initial_guess_normFsq (nc : nat)
    (scatter : list (FacMatrixT Qc)) (X : SptensorT Qc) :
  let u := random_Ktensor nc scatter in
  (sqrt (normFsq u) * sqrt (normFsq u) = normFsq u)%Qc ->
  sqrt (normFsq u) <> 0%Qc ->
  normFsq (driver_initial_guess sqrt (mkKtensor [] []) nc scatter X)
  = (sptensor_norm sqrt X * sptensor_norm sqrt X)%Qc.
Proof.
  intros u Hsq Hne. unfold driver_initial_guess.
  cbn [ncomponents kt_ndims lambda data length Nat.eqb andb]. fold u.
  rewrite normFsq_weights_times. cbn [rdiv Qc_Real].
  rewrite <- Hsq at 3. field. exact Hne.
Qed.

End DriverExact.

(** The square root of a fraction of two squares. *)
Definition Qc_sqrt (x : Qc) : Qc :=
  Q2Qc (Z.sqrt (Qnum x) # Pos.sqrt (Qden x)).

Definition Qc_one_entry_tensor : SptensorT Qc :=
  mkSptensor [1; 1] [[0; 0]] [of_Z 4] true.

Definition Qc_one_entry_scatter : list (FacMatrixT Qc) :=
  [[[rdiv (of_Z 1) (of_Z 2)]]; [[rdiv (of_Z 1) (of_Z 2)]]].

Example driver_initial_guess_normFsq_one_entry :
  normFsq (driver_initial_guess Qc_sqrt (mkKtensor [] []) 1
             Qc_one_entry_scatter Qc_one_entry_tensor)
  = (sptensor_norm Qc_sqrt Qc_one_entry_tensor
     * sptensor_norm Qc_sqrt Qc_one_entry_tensor)%Qc
  /\ sptensor_norm Qc_sqrt Qc_one_entry_tensor = of_Z 4.
Proof.
  split.
  - apply driver_initial_guess_normFsq.
    + apply Qc_is_canon. vm_compute. reflexivity.
    + intros Heq. apply (f_equal this) in Heq. vm_compute in Heq.
      discriminate.
  - apply Qc_is_canon. vm_compute. reflexivity.
Qed.

Section InitFactorsOneEntry.
Variable pow : binary64 -> binary64 -> binary64.

Lemma init_factors_local_one_entry :
  init_factors_local b64_sqrt pow 1 one_entry_scatter one_entry_tensor
  = mkKtensor [b64_of_Z 1]
      [[[rmul (dyadic 1 1) (pow (dyadic 1 2) (dyadic 1 1))]];
       [[rmul (dyadic 1 1) (pow (dyadic 1 2) (dyadic 1 1))]]].
Proof.
  unfold init_factors_local, distribute, weights_times, random_Ktensor,
    colScale, kt_ndims, one_entry_scatter.
  cbn [lambda data map length repeat zip_with].
  rewrite one_entry_tensor_norm.
  replace (rmul (of_Z 1) (rdiv (of_Z 1) (b64_of_Z 4))) with (dyadic 1 2)
    by (vm_compute; reflexivity).
  replace (rdiv (of_Z 1) (of_Z (Z.of_nat 2)) : binary64) with (dyadic 1 1)
    by (vm_compute; reflexivity).
  reflexivity.
Qed.

(** C9 at [init_factors] on a single process, for the one-entry tensor of
    norm 4 and rank 1: the weight is scaled by [1 / 4], its square root
    [1/2] goes into both factor matrices, and the Ktensor that enters the
    epoch loop has norm [1/16], not 4.  ([pow] is [std::pow]; all that is
    asked of it is the square root of 1/4.) *)
Theorem init_factors_misses_data_norm :
  pow (dyadic 1 2) (dyadic 1 1) = dyadic 1 1 ->
  let Ks := init_factors b64_sqrt pow (mkPmap [1; 1]%nat) 1
              [(one_entry_scatter, one_entry_tensor)] in
  Ks = [mkKtensor [b64_of_Z 1] [[[dyadic 1 2]]; [[dyadic 1 2]]]] /\
  map (fun K => b64_sqrt (normFsq K)) Ks = [dyadic 1 4] /\
  sptensor_norm b64_sqrt one_entry_tensor = b64_of_Z 4 /\
  map (fun K => b64_sqrt (normFsq K)) Ks
  <> [sptensor_norm b64_sqrt one_entry_tensor].
Proof.
  intros Hpow. cbv zeta.
  assert (init_factors b64_sqrt pow (mkPmap [1; 1]%nat) 1
            [(one_entry_scatter, one_entry_tensor)]
          = [mkKtensor [b64_of_Z 1] [[[dyadic 1 2]]; [[dyadic 1 2]]]])
    as ->.
  { unfold init_factors. cbn [map]. rewrite init_factors_local_one_entry.
    rewrite Hpow. vm_compute. reflexivity. }
  repeat split; vm_compute; congruence.
Qed.

End InitFactorsOneEntry.

(** The theorem with the square root standing in for the power 1/2. *)
Lemma init_factors_misses_data_norm_witness :
  let Ks := init_factors b64_sqrt (fun x _ => b64_sqrt x)
              (mkPmap [1; 1]%nat) 1
              [(one_entry_scatter, one_entry_tensor)] in
  Ks = [mkKtensor [b64_of_Z 1] [[[dyadic 1 2]]; [[dyadic 1 2]]]] /\
  map (fun K => b64_sqrt (normFsq K)) Ks = [dyadic 1 4] /\
  sptensor_norm b64_sqrt one_entry_tensor = b64_of_Z 4 /\
  map (fun K => b64_sqrt (normFsq K)) Ks
  <> [sptensor_norm b64_sqrt one_entry_tensor].
Proof.
  apply (init_factors_misses_data_norm (fun x _ => b64_sqrt x)).
  vm_compute. reflexivity.
Defined.

End InitialGuess.

(** ** Comparing within a tolerance (Genten_Util.cpp) *)

Module Util.

(** [1.0]. *)
Definition one : binary64 := of_Z 1.

(** [Genten::isEqualToTol]; [fabs] clears the sign. *)
Definition isEqualToTol (d1 d2 dTol : binary64) : bool :=
  let dDiff := SFabs (rsub d1 d2) in
  let dAbs1 := SFabs d1 in
  let dAbs2 := SFabs d2 in
  let dD :=
    if rltb one dAbs1 || rltb one dAbs2
    then (if rltb dAbs2 dAbs1 then dAbs1 else dAbs2)
    else one in
  let dRelDiff := rdiv dDiff dD in
  rltb dRelDiff dTol.

Example isEqualToTol_close :
  isEqualToTol (of_Z 1000) (of_Z 1001) (rdiv (of_Z 1) (of_Z 100)) = true.
Proof. vm_compute. reflexivity. Qed.

Example isEqualToTol_far :
  isEqualToTol (of_Z 1) (of_Z 2) (rdiv (of_Z 1) (of_Z 100)) = false.
Proof. vm_compute. reflexivity. Qed.

Lemma SFltb_nan_l (x : binary64) : SFltb S754_nan x = false.
Proof. by destruct x. Qed.

Lemma SFltb_nan_r (x : binary64) : SFltb x S754_nan = false.
Proof. by destruct x as [| | |[] ? ?]. Qed.

Lemma SFdiv_nan_l (x : binary64) : SFdiv 53 1024 S754_nan x = S754_nan.
Proof. by destruct x. Qed.

Lemma SFsub_nan_l (x : binary64) : SFsub 53 1024 S754_nan x = S754_nan.
Proof. by destruct x. Qed.

Lemma SFsub_nan_r (x : binary64) : SFsub 53 1024 x S754_nan = S754_nan.
Proof. by destruct x. Qed.

(** A finite number minus itself is a zero. *)
Lemma SFsub_diag (x : binary64) :
  (exists s, x = S754_zero s) \/ (exists s m e, x = S754_finite s m e) ->
  exists s, SFsub 53 1024 x x = S754_zero s.
Proof.
  intros [[s ->]|(s & m & e & ->)].
  - destruct s; by eexists.
  - exists false. unfold SFsub. rewrite Z.min_id, Z.sub_diag. reflexivity.
Qed.

(** The denominator: 1 or the larger magnitude. *)
Definition dD (d1 d2 : binary64) : binary64 :=
  if rltb one (SFabs d1) || rltb one (SFabs d2)
  then (if rltb (SFabs d2) (SFabs d1) then SFabs d1 else SFabs d2)
  else one.

Lemma isEqualToTol_dD (d1 d2 dTol : binary64) :
  isEqualToTol d1 d2 dTol
  = SFltb (SFdiv 53 1024 (SFabs (SFsub 53 1024 d1 d2)) (dD d1 d2)) dTol.
Proof. reflexivity. Qed.

(** Positive and finite, or NaN when an argument is NaN or both are
    infinite. *)
Lemma dD_finite (d : binary64) :
  (exists s, d = S754_zero s) \/ (exists s m e, d = S754_finite s m e) ->
  dD d d = one \/ exists m e, dD d d = S754_finite false m e.
Proof.
  intros [[s ->]|(s & m & e & ->)]; unfold dD; cbn [SFabs].
  - by left.
  - destruct (rltb one (S754_finite false m e) || _); [|by left].
    right. destruct (rltb _ _); by eexists _, _.
Qed.

Definition b64_is_finite (d : binary64) : bool :=
  match d with
  | S754_zero _ | S754_finite _ _ _ => true
  | _ => false
  end.

(** Not negative: a zero, a finite number or an infinity with the sign
    bit clear, or NaN. *)
Definition sign_clear (r : binary64) : Prop :=
  match r with
  | S754_zero s | S754_infinity s | S754_finite s _ _ => s = false
  | S754_nan => True
  end.

Lemma sign_clear_SFabs (r : binary64) : sign_clear (SFabs r).
Proof. by destruct r. Qed.

Lemma sign_clear_dD (d1 d2 : binary64) : sign_clear (dD d1 d2).
Proof.
  unfold dD. destruct (_ || _); [|done].
  destruct (rltb _ _); apply sign_clear_SFabs.
Qed.

Lemma sign_clear_round (m e : Z) (l : location) :
  sign_clear (binary_round_aux 53 1024 false m e l).
Proof.
  unfold binary_round_aux. destruct (shr_fexp _ _ _ _ _) as [mrs e'].
  destruct (shr_fexp _ _ _ _ _) as [mrs' e''].
  destruct (shr_m mrs'); [done| |done]. by destruct (_ <=? _).
Qed.

Lemma sign_clear_SFdiv (x y : binary64) :
  sign_clear x -> sign_clear y -> sign_clear (SFdiv 53 1024 x y).
Proof.
  destruct x as [sx|sx| |sx mx ex], y as [sy|sy| |sy my ey]; cbn;
    intros Hx Hy; subst; try done.
  destruct (SFdiv_core_binary _ _ _ _ _ _) as [[mz ez] lz].
  apply sign_clear_round.
Qed.

Lemma SFltb_sign_clear (r dTol : binary64) :
  sign_clear r -> SFltb (S754_zero false) dTol = false -> SFltb r dTol = false.
Proof.
  destruct r as [s|s| |s m e], dTol as [s'|s'| |s' m' e']; cbn;
    intros Hr Htol; subst; try done; by destruct s'.
Qed.

(** [isEqualToTol] is false as soon as an argument is NaN, for two equal
    infinities, and whatever the numbers when the tolerance is not
    positive; a finite number equals itself within every positive
    tolerance. *)
Theorem isEqualToTol_edges :
  (forall d2 dTol, isEqualToTol S754_nan d2 dTol = false) /\
  (forall d1 dTol, isEqualToTol d1 S754_nan dTol = false) /\
  (forall d1 d2, isEqualToTol d1 d2 S754_nan = false) /\
  (forall s dTol,
     isEqualToTol (S754_infinity s) (S754_infinity s) dTol = false) /\
  (forall d1 d2 dTol,
     rltb (of_Z 0) dTol = false -> isEqualToTol d1 d2 dTol = false) /\
  (forall d dTol,
     b64_is_finite d = true -> rltb (of_Z 0) dTol = true ->
     isEqualToTol d d dTol = true).
Proof.
  split; [|split; [|split; [|split; [|split]]]].
  - intros d2 dTol. rewrite isEqualToTol_dD, SFsub_nan_l. cbn [SFabs].
    by rewrite SFdiv_nan_l, SFltb_nan_l.
  - intros d1 dTol. rewrite isEqualToTol_dD, SFsub_nan_r. cbn [SFabs].
    by rewrite SFdiv_nan_l, SFltb_nan_l.
  - intros d1 d2. rewrite isEqualToTol_dD. apply SFltb_nan_r.
  - intros s dTol. rewrite isEqualToTol_dD.
    assert (SFsub 53 1024 (S754_infinity s) (S754_infinity s) = S754_nan)
      as -> by (by destruct s).
    cbn [SFabs]. by rewrite SFdiv_nan_l, SFltb_nan_l.
  - intros d1 d2 dTol Htol. rewrite isEqualToTol_dD.
    apply SFltb_sign_clear; [|exact Htol].
    apply sign_clear_SFdiv; [apply sign_clear_SFabs|apply sign_clear_dD].
  - intros d dTol Hfin Htol. rewrite isEqualToTol_dD.
    assert ((exists s, d = S754_zero s)
            \/ (exists s m e, d = S754_finite s m e)) as Hd.
    { destruct d as [s| | |s m e]; try done; [left|right]; by eauto. }
    destruct (SFsub_diag d Hd) as [s0 ->]. cbn [SFabs].
    assert (SFdiv 53 1024 (S754_zero false) (dD d d) = S754_zero false)
      as ->.
    { destruct (dD_finite d Hd) as [->|(m & e & ->)]; reflexivity. }
    exact Htol.
Qed.

End Util.

(** ** Team kernels (Genten_Ktensor.hpp, Genten_Tensor.cpp,
    Genten_GCP_SGD_Iter_Async.hpp) *)

Module Kernels.

(** [unsigned] is a 32-bit integer. *)
Definition unsigned_wrap (x : Z) : Z := x mod 2 ^ 32.

(** The threads of a team policy [Policy(N, TeamSize, ..)], team after
    team: the pairs of [league_rank] and [team_rank]. *)
Definition threads (N TeamSize : Z) : list (nat * nat) :=
  league_rank ← seq 0 (Z.to_nat N);
  team_rank ← seq 0 (Z.to_nat TeamSize);
  [(league_rank, team_rank)].

Section Value.
Context {E : Type} `{Real E}.

(** [compute_Ktensor_value(M, ind)], the version for flat parallelism;
    [None] where a read leaves [ind] or a factor matrix. *)
Definition compute_Ktensor_value (M : KtensorT E) (ind : list nat)
    : option E :=
  let nd := kt_ndims M in
  let nc := ncomponents M in
  foldl_opt
    (fun m_val j =>
       w ← lambda M !! j;
       tmp ← foldl_opt
               (fun tmp m =>
                  A ← data M !! m;
                  k ← ind !! m;
                  a ← entry A k j;
                  Some (rmul tmp a))
               (seq 0 nd) w;
       Some (radd m_val tmp))
    (seq 0 nc) (of_Z 0).

(** *** [Impl::copyFromKtensor] (Genten_Tensor.cpp) *)

(** [x.ind2sub(sub, i)], the subscripts of entry [i] of the dense
    tensor. *)
Variable ind2sub : nat -> list nat.

(** [(256+nc-1)/nc] on Cuda, 1 elsewhere. *)
Definition copy_TeamSize (is_cuda : bool) (nc : Z) : option Z :=
  if is_cuda then
    if nc =? 0 then None
    else Some (unsigned_wrap (unsigned_wrap (256 + nc) - 1) / nc)
  else Some 1.

(** One thread: entry [i] of [x] becomes the value of [src] there; the
    inner loops are those of [compute_Ktensor_value].  The [VectorSize]
    lanes of a thread share the sum over the components, which is taken
    here in the order of the components. *)
Definition copy_thread (ne : Z) (src : KtensorT E) (team_size : Z)
    (x : list E) (thread : nat * nat) : option (list E) :=
  let '(league_rank, team_rank) := thread in
  let i :=
    unsigned_wrap (unsigned_wrap (Z.of_nat league_rank * team_size)
                   + Z.of_nat team_rank) in
  if ne <=? i then Some x
  else
    src_val ← compute_Ktensor_value src (ind2sub (Z.to_nat i));
    if (Z.to_nat i <? length x)%nat
    then Some (<[Z.to_nat i := src_val]> x)
    else None.

(** [x] are the values of the dense tensor, [ne = x.numel()] their
    number.  [None] where a size computation divides by zero or a thread
    reads or writes outside an array. *)
Definition copyFromKtensor (is_cuda : bool) (x : list E) (src : KtensorT E)
    : option (list E) :=
  let ne := Z.of_nat (length x) in
  let nc := unsigned_wrap (Z.of_nat (ncomponents src)) in
  TeamSize ← copy_TeamSize is_cuda nc;
  if TeamSize =? 0 then None
  else
    let N := indx_wrap (indx_wrap (ne + TeamSize) - 1) / TeamSize in
    foldl_opt (copy_thread ne src TeamSize) (threads N TeamSize) x.

End Value.

Example copy_2x2 :
  copyFromKtensor (fun i => [(i / 2)%nat; (i mod 2)%nat]) false
    (map b64_of_Z [0; 0; 0; 0])
    (mkKtensor [b64_of_Z 2]
       [[[b64_of_Z 1]; [b64_of_Z 3]]; [[b64_of_Z 5]; [b64_of_Z 7]]])
  = Some (map b64_of_Z [10; 14; 30; 42]).
Proof. vm_compute. reflexivity. Qed.

(** The threads in the order of their entry
    [league_rank * team_size + team_rank]. *)
Definition thread_entry (team_size : nat) (thread : nat * nat) : nat :=
  (thread.1 * team_size + thread.2)%nat.

Lemma team_entries (league_rank team_size : nat) :
  forall T t0,
    map (thread_entry team_size)
      (team_rank ← seq t0 T; [(league_rank, team_rank)])
    = seq (league_rank * team_size + t0) T.
Proof.
  induction T as [|T IH]; intros t0; [done|].
  cbn [seq mbind list_bind app map]. rewrite IH.
  unfold thread_entry at 1. cbn [fst snd]. f_equal. f_equal. lia.
Qed.

Lemma threads_entries (N TeamSize : Z) :
  map (thread_entry (Z.to_nat TeamSize)) (threads N TeamSize)
  = seq 0 (Z.to_nat N * Z.to_nat TeamSize).
Proof.
  unfold threads. generalize (Z.to_nat TeamSize) as T.
  generalize (Z.to_nat N) as n. intros n T.
  induction n as [|n IH]; [done|].
  rewrite seq_S, bind_app, map_app, IH. cbn [mbind list_bind Nat.add].
  rewrite app_nil_r, team_entries, Nat.add_0_r.
  replace (S n * T)%nat with (n * T + T)%nat by lia.
  by rewrite seq_app.
Qed.

Lemma foldl_opt_ext_in {A B} (f g : B -> A -> option B) (l : list A) :
  (forall a b, a ∈ l -> f b a = g b a) ->
  forall b, foldl_opt f l b = foldl_opt g l b.
Proof.
  induction l as [|a l IH]; intros Hfg b; [done|]. cbn [foldl_opt].
  rewrite Hfg by left. destruct (g b a) as [b'|]; [|done]. cbn.
  apply IH. intros a' b'' Ha'. apply Hfg. by right.
Qed.


Section CopyFacts.
Context {E : Type} `{Real E}.
Variable ind2sub : nat -> list nat.
Variable src : KtensorT E.
Variable val : nat -> E.
Variable x0 : list E.
Hypothesis values :
  forall i, (i < length x0)%nat ->
            compute_Ktensor_value src (ind2sub i) = Some (val i).







End CopyFacts.




(** *** [Impl::gcp_sgd_iter_async_kernel]
    (Genten_GCP_SGD_Iter_Async.hpp) *)

(** [min(unsigned(128), unsigned(pow(2.0, floor(log2(nc)))))] on Cuda, 1
    elsewhere; for [nc >= 1] the power is the largest power of two not
    above [nc], for [nc = 0] it is [pow(2.0, -inf) = 0]. *)
Definition async_VectorSize (is_cuda : bool) (nc : Z) : Z :=
  if is_cuda then Z.min 128 (if nc =? 0 then 0 else 2 ^ Z.log2 nc) else 1.

(** [128/VectorSize] on Cuda, 1 elsewhere. *)
Definition async_TeamSize (is_cuda : bool) (VectorSize : Z) : option Z :=
  if is_cuda then
    if VectorSize =? 0 then None else Some (128 / VectorSize)
  else Some 1.

(** The league size [N] and [RowsPerTeam]; [None] where the code divides
    by zero. *)
Definition async_league (is_cuda : bool) (nc nsz nsnz epoch_iters
    RowBlockSize : Z) : option (Z * Z * Z) :=
  let num_samples := indx_mul (indx_add nsz nsnz) epoch_iters in
  TeamSize ← async_TeamSize is_cuda (async_VectorSize is_cuda nc);
  let RowsPerTeam := unsigned_wrap (TeamSize * RowBlockSize) in
  if RowsPerTeam =? 0 then None
  else
    let N :=
      indx_wrap (indx_wrap (num_samples + RowsPerTeam) - 1) / RowsPerTeam in
    Some (N, TeamSize, RowsPerTeam).

(** The samples of a launch: every thread of every team runs the loop
    over [ii]. *)
Definition sample_sites (N TeamSize RowBlockSize : Z)
    : list (nat * nat * nat) :=
  thread ← threads N TeamSize;
  ii ← seq 0 (Z.to_nat RowBlockSize);
  [(thread, ii)].

Section Async.
Context {E : Type} `{Real E}.

(** [f.deriv(x, m)] of the loss function and
    [stepper.eval_async(n, k, j, tmp, u)], which updates [u] in place. *)
Variable f_deriv : E -> E -> E.
Variable eval_async : nat -> nat -> nat -> E -> KtensorT E -> KtensorT E.

Variable X : SptensorT E.
Variables nsz nsnz : Z.
Variables wz wnz : E.

(** What [Rand::draw] returns at a sample: the choice of the stratum, the
    nonzero, and the subscripts of a zero sample. *)
Variable draw_idx : nat * nat * nat -> Z.
Variable draw_nonzero : nat * nat * nat -> nat.
Variable draw_zero : nat * nat * nat -> list nat.

(** "Read u": [team_ktn(team_rank, m, j) = u[m].entry(k, j)]. *)
Definition read_u (u : KtensorT E) (ind : list nat)
    : option (list (list E)) :=
  mapM (fun m =>
          k ← ind !! m;
          A ← data u !! m;
          mapM (fun j => entry A k j) (seq 0 (ncomponents u)))
    (seq 0 (kt_ndims u)).

Definition team_ktn (ktn : list (list E)) (m j : nat) : E :=
  default (of_Z 0) (row ← ktn !! m; row !! j).

(** "Compute Ktensor value", the sum over the components in their
    order. *)
Definition async_m_val (nd nc : nat) (ktn : list (list E)) : E :=
  fold_left
    (fun mv j =>
       let tmp :=
         fold_left (fun tmp m => rmul tmp (team_ktn ktn m j)) (seq 0 nd)
           (of_Z 1) in
       radd mv tmp)
    (seq 0 nc) (of_Z 0).

(** "Compute Y value". *)
Definition async_y_val (nonzero_sample : bool) (x_val m_val : E) : E :=
  if nonzero_sample
  then rmul wnz (rsub (f_deriv x_val m_val) (f_deriv (of_Z 0) m_val))
  else rmul wz (f_deriv (of_Z 0) m_val).

(** "Compute gradient contribution". *)
Definition async_gradient (nd nc : nat) (ind : list nat)
    (ktn : list (list E)) (y_val : E) (u : KtensorT E)
    : option (KtensorT E) :=
  foldl_opt
    (fun u n =>
       k ← ind !! n;
       Some (fold_left
               (fun u j =>
                  let tmp :=
                    fold_left
                      (fun tmp m =>
                         if (m =? n)%nat then tmp
                         else rmul tmp (team_ktn ktn m j))
                      (seq 0 nd) y_val in
                  eval_async n k j tmp u)
               (seq 0 nc) u))
    (seq 0 nd) u.

(** One pass of the loop over [ii]; [None] where a read leaves an
    array. *)
Definition async_sample (u : KtensorT E) (site : nat * nat * nat)
    : option (KtensorT E) :=
  let nd := kt_ndims u in
  let nc := ncomponents u in
  let idx := draw_idx site in
  let nonzero_sample := idx <? nsnz in
  '(ind, x_val) ←
    (if nonzero_sample then
       let i := draw_nonzero site in
       ind ← subs X !! i;
       xv ← values X !! i;
       Some (map Z.to_nat ind, xv)
     else Some (draw_zero site, of_Z 0));
  ktn ← read_u u ind;
  let m_val := async_m_val nd nc ktn in
  let y_val := async_y_val nonzero_sample x_val m_val in
  async_gradient nd nc ind ktn y_val u.

(** The kernel, the samples one after the other. *)
Definition gcp_sgd_iter_async_kernel (is_cuda : bool)
    (epoch_iters RowBlockSize : Z) (u : KtensorT E) : option (KtensorT E) :=
  let nc := unsigned_wrap (Z.of_nat (ncomponents u)) in
  '(N, TeamSize, _) ←
    async_league is_cuda nc nsz nsnz epoch_iters RowBlockSize;
  foldl_opt async_sample (sample_sites N TeamSize RowBlockSize) u.

End Async.

Lemma length_threads (N TeamSize : Z) :
  length (threads N TeamSize) = (Z.to_nat N * Z.to_nat TeamSize)%nat.
Proof.
  rewrite <- (length_map (thread_entry (Z.to_nat TeamSize))).
  by rewrite threads_entries, length_seq.
Qed.

Lemma length_sample_sites (N TeamSize RowBlockSize : Z) :
  length (sample_sites N TeamSize RowBlockSize)
  = (Z.to_nat N * Z.to_nat TeamSize * Z.to_nat RowBlockSize)%nat.
Proof.
  unfold sample_sites. rewrite <- length_threads.
  induction (threads N TeamSize) as [|thread l IH]; [done|].
  cbn [mbind list_bind]. rewrite length_app, IH. cbn [length].
  assert (forall m k,
            length (seq k m ≫= fun ii => [(thread, ii)]) = m) as ->.
  { induction m as [|m IHm]; intros k; [done|].
    cbn [seq mbind list_bind app length]. f_equal. apply IHm. }
  lia.
Qed.

Lemma async_TeamSize_bounds (is_cuda : bool) (nc : Z) :
  (is_cuda = true -> 1 <= nc) ->
  exists TeamSize,
    async_TeamSize is_cuda (async_VectorSize is_cuda nc) = Some TeamSize /\
    1 <= TeamSize <= 128.
Proof.
  intros Hnc. unfold async_TeamSize, async_VectorSize.
  destruct is_cuda; [|exists 1; split; [done|lia]].
  specialize (Hnc eq_refl).
  destruct (Z.eqb_spec nc 0) as [?|_]; [lia|].
  assert (1 <= 2 ^ Z.log2 nc).
  { pose proof (Z.log2_nonneg nc).
    pose proof (Z.pow_pos_nonneg 2 (Z.log2 nc) ltac:(lia) ltac:(lia)). lia. }
  set (V := Z.min 128 (2 ^ Z.log2 nc)).
  assert (1 <= V <= 128) by lia.
  destruct (Z.eqb_spec V 0) as [?|_]; [lia|].
  eexists. split; [done|]. split.
  - apply Z.div_le_lower_bound; lia.
  - apply Z.div_le_upper_bound; nia.
Qed.

(** The kernel has no guard on the sample number: it takes
    [N * RowsPerTeam] samples, the number asked for rounded up to a
    multiple of [RowsPerTeam]. *)
Theorem async_kernel_rounds_samples_up (is_cuda : bool)
    (nc nsz nsnz epoch_iters RowBlockSize : Z) :
  (is_cuda = true -> 1 <= nc) ->
  0 <= nsz -> 0 <= nsnz -> 0 <= epoch_iters ->
  0 < RowBlockSize -> 128 * RowBlockSize < 2 ^ 32 ->
  (nsz + nsnz) * epoch_iters + 128 * RowBlockSize < 2 ^ 64 ->
  let num_samples := (nsz + nsnz) * epoch_iters in
  exists N TeamSize RowsPerTeam,
    async_league is_cuda nc nsz nsnz epoch_iters RowBlockSize
    = Some (N, TeamSize, RowsPerTeam) /\
    Z.of_nat (length (sample_sites N TeamSize RowBlockSize))
    = N * RowsPerTeam /\
    num_samples <= N * RowsPerTeam < num_samples + RowsPerTeam /\
    (N * RowsPerTeam = num_samples <-> (RowsPerTeam | num_samples)).
Proof.
  intros Hnc Hsz Hsnz Hep HR HR32 Hfit num_samples.
  unfold async_league.
  destruct (async_TeamSize_bounds is_cuda nc Hnc) as (T & -> & HT).
  cbn [mbind option_bind].
  assert (0 <= num_samples) as Hns by (unfold num_samples; nia).
  assert (0 < T * RowBlockSize <= 128 * RowBlockSize) as HTR by nia.
  assert (unsigned_wrap (T * RowBlockSize) = T * RowBlockSize) as ->
    by (apply Z.mod_small; lia).
  set (R := T * RowBlockSize) in *.
  destruct (Z.eqb_spec R 0) as [?|_]; [lia|].
  assert (indx_mul (indx_add nsz nsnz) epoch_iters = num_samples) as ->.
  { unfold indx_mul, indx_add, indx_wrap.
    rewrite Z.mul_mod_idemp_l by lia. apply Z.mod_small.
    fold num_samples in Hfit. lia. }
  assert (indx_wrap (indx_wrap (num_samples + R) - 1) = num_samples + R - 1)
    as ->.
  { fold num_samples in Hfit. rewrite (indx_wrap_small (_ + _)) by lia.
    apply indx_wrap_small. lia. }
  set (N := (num_samples + R - 1) / R).
  pose proof (Z.div_mod (num_samples + R - 1) R ltac:(lia)) as Hdm.
  pose proof (Z.mod_pos_bound (num_samples + R - 1) R ltac:(lia)) as Hmod.
  fold N in Hdm.
  assert (0 <= N) as HN0 by (apply Z.div_pos; lia).
  exists N, T, R. split; [done|]. split.
  { rewrite length_sample_sites, !Nat2Z.inj_mul, !Z2Nat.id by lia.
    unfold R. lia. }
  split; [lia|]. split.
  - intros Heq. exists N. lia.
  - intros [q Hq].
    assert (q = N); [|lia].
    apply (Z.div_unique (num_samples + R - 1) R q (R - 1)); lia.
Qed.

Lemma async_kernel_rounds_samples_up_witness :
  exists N TeamSize RowsPerTeam,
    async_league false 16 5 5 7 128 = Some (N, TeamSize, RowsPerTeam) /\
    Z.of_nat (length (sample_sites N TeamSize 128)) = N * RowsPerTeam /\
    (5 + 5) * 7 <= N * RowsPerTeam < (5 + 5) * 7 + RowsPerTeam /\
    (N * RowsPerTeam = (5 + 5) * 7 <-> (RowsPerTeam | (5 + 5) * 7)).
Proof.
  apply (async_kernel_rounds_samples_up false 16 5 5 7 128);
    try done; try lia.
Defined.

Lemma foldl_opt_Some {A B} (F : B -> A -> B) (l : list A) (b : B) :
  foldl_opt (fun b a => Some (F b a)) l b = Some (fold_left F l b).
Proof. revert b. induction l as [|a l IH]; intros b; [done|]. apply IH. Qed.

Section AsyncValue.
Context {E : Type} `{Real E}.

(** What "Read u" has read is what [compute_Ktensor_value] reads. *)
Lemma read_u_entry (u : KtensorT E) (ind : list nat) (ktn : list (list E))
    (m j : nat) :
  read_u u ind = Some ktn ->
  (m < kt_ndims u)%nat -> (j < ncomponents u)%nat ->
  exists A k,
    data u !! m = Some A /\ ind !! m = Some k /\
    entry A k j = Some (team_ktn ktn m j).
Proof.
  intros Hread Hm Hj. unfold read_u in Hread.
  apply mapM_Some_1 in Hread.
  destruct (Forall2_lookup_l _ _ _ m m Hread) as (row & Hrow & Hm');
    [by apply lookup_seq_lt|].
  destruct (ind !! m) as [k|]; [|done].
  destruct (data u !! m) as [A|]; [|done]. cbn in Hm'.
  apply mapM_Some_1 in Hm'.
  destruct (Forall2_lookup_l _ _ _ j j Hm') as (a & Ha & Hj');
    [by apply lookup_seq_lt|].
  exists A, k. split; [done|]. split; [done|].
  rewrite Hj'. unfold team_ktn. rewrite Hrow. cbn. by rewrite Ha.
Qed.

(** The kernel's model value leaves the weights out: it is the value
    [compute_Ktensor_value] computes where every weight is 1. *)
Theorem async_m_val_unit_weights (u : KtensorT E) (ind : list nat)
    (ktn : list (list E)) :
  read_u u ind = Some ktn ->
  Forall (fun w => w = of_Z 1) (lambda u) ->
  compute_Ktensor_value u ind
  = Some (async_m_val (kt_ndims u) (ncomponents u) ktn).
Proof.
  intros Hread Hw. unfold compute_Ktensor_value, async_m_val.
  rewrite <- foldl_opt_Some. apply foldl_opt_ext_in.
  intros j mv Hj. apply elem_of_seq in Hj.
  destruct (lookup_lt_is_Some_2 (lambda u) j) as [w Hwj];
    [unfold ncomponents in Hj; lia|].
  rewrite Hwj. cbn [mbind option_bind].
  rewrite (Forall_lookup_1 _ _ _ _ Hw Hwj).
  rewrite (foldl_opt_ext_in _
             (fun tmp m => Some (rmul tmp (team_ktn ktn m j)))).
  - by rewrite foldl_opt_Some.
  - intros m tmp Hm. apply elem_of_seq in Hm.
    destruct (read_u_entry u ind ktn m j Hread) as (A & k & -> & -> & Ha);
      [lia|lia|].
    cbn [mbind option_bind]. by rewrite Ha.
Qed.

End AsyncValue.

(** Weights 1 and two 1 x 1 factors 3 and 5. *)
Lemma async_m_val_unit_weights_witness :
  compute_Ktensor_value
    (mkKtensor [b64_of_Z 1] [[[b64_of_Z 3]]; [[b64_of_Z 5]]]) [0; 0]%nat
  = Some (async_m_val 2 1 [[b64_of_Z 3]; [b64_of_Z 5]]).
Proof.
  apply (async_m_val_unit_weights
           (mkKtensor [b64_of_Z 1] [[[b64_of_Z 3]]; [[b64_of_Z 5]]])
           [0; 0]%nat [[b64_of_Z 3]; [b64_of_Z 5]]).
  - reflexivity.
  - by repeat constructor.
Defined.

(** With a weight 2 the two differ: 30 against 15. *)
Example async_m_val_ignores_weights :
  compute_Ktensor_value
    (mkKtensor [b64_of_Z 2] [[[b64_of_Z 3]]; [[b64_of_Z 5]]]) [0; 0]%nat
  = Some (b64_of_Z 30) /\
  async_m_val 2 1 [[b64_of_Z 3]; [b64_of_Z 5]] = b64_of_Z 15.
Proof. split; vm_compute; reflexivity. Qed.

End Kernels.

(** ** A Ktensor as a vector (Genten_GCP_KokkosVector.hpp) *)

Module KokkosVector.
Import InitialGuess.

(** [nc] components, [sz[i]] rows in mode [i], and the flat array [v];
    [nd] is the length of [sz]. *)
Record KokkosVector (E : Type) : Type := mkKokkosVector {
  nc : nat;
  sz : list nat;
  v : list E
}.
Arguments mkKokkosVector {E}.
Arguments nc {E}.
Arguments sz {E}.
Arguments v {E}.

Section KokkosVector.
Context {E : Type} `{Real E}.

(** The length [initialize] gives [v]: the sum of [sz[i]*nc]. *)
Definition initial_dimension (nc : nat) (sz : list nat) : nat :=
  fold_left (fun n s => (n + s * nc)%nat) sz 0%nat.

(** [KokkosVector(V_)]: the sizes of [V_] and an array [v] of that
    length, whose entries the constructor leaves as they are in memory:
    [fill]. *)
Definition of_Ktensor (V_ : KtensorT E) (fill : list E) : KokkosVector E :=
  let nc := ncomponents V_ in
  let sz := map (fun A => length A) (data V_) in
  mkKokkosVector nc sz (take (initial_dimension nc sz) fill).

(** [dimension()]. *)
Definition dimension (x : KokkosVector E) : nat := length (v x).

(** The loop of [getKtensor]: factor [i] is the view of [nr * nc]
    entries at [offset], stored by row. *)
Fixpoint factor_views (nc : nat) (sz : list nat) (d : list E)
    : list (FacMatrixT E) :=
  match sz with
  | [] => []
  | nr :: sz =>
      unflatten nr nc (take (nr * nc) d)
        :: factor_views nc sz (drop (nr * nc) d)
  end.

(** [getKtensor()]: the factors are views of [v], the weights are 1. *)
Definition getKtensor (x : KokkosVector E) : KtensorT E :=
  mkKtensor (replicate (nc x) (of_Z 1)) (factor_views (nc x) (sz x) (v x)).

(** What [deep_copy] asks of a view and its source: the same extents. *)
Definition same_extents (A B : FacMatrixT E) : bool :=
  bool_decide (length A = length B)
  && bool_decide (map (fun row => length row) A
                  = map (fun row => length row) B).

(** [deep_copy(dst, src)] of Ktensors: the weights and the factors are
    copied into the arrays of [dst]; [None] where extents differ. *)
Definition deep_copy (dst src : KtensorT E) : option (KtensorT E) :=
  if bool_decide (length (lambda dst) = length (lambda src))
     && bool_decide (length (data dst) = length (data src))
     && forallb (fun '(A, B) => same_extents A B) (zip (data dst) (data src))
  then Some (mkKtensor (lambda src) (data src))
  else None.

(** [copyFromKtensor(Kt)]: the copy goes into the views [getKtensor]
    returns, that is into [v]; the weights land in the temporary
    Ktensor. *)
Definition copyFromKtensor (x : KokkosVector E) (Kt : KtensorT E)
    : option (KokkosVector E) :=
  V ← deep_copy (getKtensor x) Kt;
  Some (mkKokkosVector (nc x) (sz x)
          (concat (map flatten (data V))
           ++ drop (initial_dimension (nc x) (sz x)) (v x))).

(** [copyToKtensor(Kt)]: [Kt] after the call. *)
Definition copyToKtensor (x : KokkosVector E) (Kt : KtensorT E)
    : option (KtensorT E) :=
  Kt ← deep_copy Kt (getKtensor x);
  Some (mkKtensor (map (fun _ => of_Z 1) (lambda Kt)) (data Kt)).

End KokkosVector.

Section RoundTrip.
Context {E : Type} `{Real E}.

(** A factor matrix of [nr] rows of [nc] entries. *)
Definition has_shape (nc nr : nat) (A : FacMatrixT E) : Prop :=
  length A = nr /\ Forall (fun row => length row = nc) A.

Lemma length_flatten (nc nr : nat) (A : FacMatrixT E) :
  has_shape nc nr A -> length (flatten A) = (nr * nc)%nat.
Proof.
  intros [<- Hrows]. unfold flatten.
  induction Hrows as [|row A Hrow _ IH]; [done|].
  cbn [concat length]. rewrite length_app, IH, Hrow. lia.
Qed.

Lemma unflatten_flatten (nc nr : nat) (A : FacMatrixT E) (rest : list E) :
  has_shape nc nr A -> unflatten nr nc (flatten A ++ rest) = A.
Proof.
  intros [<- Hrows]. unfold flatten.
  induction Hrows as [|row A Hrow _ IH]; [done|].
  cbn [concat length unflatten]. rewrite <- app_assoc.
  rewrite take_app_length' by done. rewrite drop_app_length' by done.
  by rewrite IH.
Qed.

Lemma unflatten_take (nc nr : nat) (d : list E) :
  unflatten nr nc (take (nr * nc) d) = unflatten nr nc d.
Proof.
  revert d. induction nr as [|nr IH]; intros d; [done|].
  cbn [unflatten]. rewrite take_take, Nat.min_l by (cbn; lia).
  f_equal. rewrite <- IH, <- (IH (drop nc d)). f_equal.
  rewrite !take_drop_commute, take_take. do 2 f_equal. cbn. lia.
Qed.

Lemma has_shape_unflatten (nc nr : nat) (d : list E) :
  (nr * nc <= length d)%nat -> has_shape nc nr (unflatten nr nc d).
Proof.
  revert d. induction nr as [|nr IH]; intros d Hd; [by split|].
  cbn [unflatten]. destruct (IH (drop nc d)) as [Hlen Hrows];
    [rewrite length_drop; lia|].
  split; [cbn; by rewrite Hlen|].
  constructor; [rewrite length_take; lia|done].
Qed.

Lemma initial_dimension_from (nc : nat) (sz : list nat) (a : nat) :
  fold_left (fun n s => (n + s * nc)%nat) sz a
  = (a + initial_dimension nc sz)%nat.
Proof.
  unfold initial_dimension. revert a.
  induction sz as [|s sz IH]; intros a; cbn [fold_left]; [lia|].
  rewrite (IH (a + s * nc)%nat), (IH (0 + s * nc)%nat). lia.
Qed.

Lemma initial_dimension_cons (nc nr : nat) (sz : list nat) :
  initial_dimension nc (nr :: sz) = (nr * nc + initial_dimension nc sz)%nat.
Proof.
  unfold initial_dimension at 1. cbn [fold_left].
  by rewrite initial_dimension_from.
Qed.

(** The views [getKtensor] takes have the sizes of the vector. *)
Lemma factor_views_shape (nc : nat) (sz : list nat) :
  forall d, (initial_dimension nc sz <= length d)%nat ->
    Forall2 (has_shape nc) sz (factor_views nc sz d).
Proof.
  induction sz as [|nr sz IH]; intros d Hd; [constructor|].
  rewrite initial_dimension_cons in Hd. cbn [factor_views].
  constructor.
  - rewrite unflatten_take. apply has_shape_unflatten. lia.
  - apply IH. rewrite length_drop. lia.
Qed.

(** The views of the concatenated factors are the factors. *)
Lemma factor_views_flatten (nc : nat) (As : list (FacMatrixT E)) :
  forall sz rest,
    Forall2 (has_shape nc) sz As ->
    factor_views nc sz (concat (map flatten As) ++ rest) = As.
Proof.
  intros sz rest Hshape. revert rest.
  induction Hshape as [|nr A sz As HA _ IH]; intros rest; [done|].
  cbn [map concat factor_views]. rewrite <- app_assoc.
  rewrite take_app_length' by (by rewrite (length_flatten nc nr)).
  rewrite drop_app_length' by (by rewrite (length_flatten nc nr)).
  rewrite <- (app_nil_r (flatten A)), unflatten_flatten by done.
  by rewrite IH.
Qed.

Lemma length_concat_flatten (nc : nat) (sz : list nat)
    (As : list (FacMatrixT E)) :
  Forall2 (has_shape nc) sz As ->
  length (concat (map flatten As)) = initial_dimension nc sz.
Proof.
  induction 1 as [|nr A sz As HA _ IH]; [done|].
  cbn [map concat]. rewrite length_app, initial_dimension_cons, IH.
  by rewrite (length_flatten nc nr).
Qed.

Lemma same_extents_shape (nc nr : nat) (A B : FacMatrixT E) :
  has_shape nc nr A -> has_shape nc nr B -> same_extents A B = true.
Proof.
  intros [HA HrA] [HB HrB]. unfold same_extents.
  rewrite bool_decide_eq_true_2 by congruence. cbn [andb].
  apply bool_decide_eq_true_2.
  assert (forall C : FacMatrixT E,
            Forall (fun row => length row = nc) C ->
            map (fun row => length row) C = replicate (length C) nc) as Hrep.
  { induction 1 as [|row C Hrow _ IH]; [done|]. cbn. by rewrite Hrow, IH. }
  rewrite (Hrep A HrA), (Hrep B HrB). congruence.
Qed.

(** [copyFromKtensor] followed by [getKtensor] gives the factor matrices
    back and weights 1: the vector holds the factors only, the weights of
    the Ktensor copied in are not kept.  The vector keeps its length. *)
Theorem copyFromKtensor_getKtensor (x : KokkosVector E) (Kt : KtensorT E) :
  ncomponents Kt = nc x ->
  Forall2 (has_shape (nc x)) (sz x) (data Kt) ->
  dimension x = initial_dimension (nc x) (sz x) ->
  exists x',
    copyFromKtensor x Kt = Some x' /\
    getKtensor x' = mkKtensor (replicate (nc x) (of_Z 1)) (data Kt) /\
    dimension x' = dimension x.
Proof.
  intros Hnc Hshape Hdim. unfold copyFromKtensor, deep_copy.
  pose proof (factor_views_shape (nc x) (sz x) (v x)
                ltac:(unfold dimension in Hdim; lia)) as Hviews.
  cbn [getKtensor lambda data].
  rewrite length_replicate.
  rewrite bool_decide_eq_true_2 by (unfold ncomponents in Hnc; lia).
  rewrite bool_decide_eq_true_2
    by (rewrite <- (Forall2_length _ _ _ Hviews);
        apply (Forall2_length _ _ _ Hshape)).
  cbn [andb].
  assert (forallb (fun '(A, B) => same_extents A B)
            (zip (factor_views (nc x) (sz x) (v x)) (data Kt)) = true) as ->.
  { clear Hdim. revert Hviews Hshape.
    generalize (factor_views (nc x) (sz x) (v x)) as Vs.
    generalize (data Kt) as As. generalize (sz x) as s.
    intros s As Vs Hviews. revert As.
    induction Hviews as [|nr V s Vs HV _ IH]; intros As HAs; [done|].
    inversion HAs as [|? A ? As' HA HAs']; subst. cbn [zip zip_with forallb].
    rewrite (same_extents_shape (nc x) nr V A HV HA). by apply IH. }
  cbn [mbind option_bind data]. eexists. split; [reflexivity|].
  unfold getKtensor, dimension. cbn [nc sz v].
  rewrite (factor_views_flatten (nc x) (data Kt) (sz x)) by done.
  split; [done|].
  rewrite length_app, (length_concat_flatten (nc x) (sz x)) by done.
  rewrite length_drop. unfold dimension in Hdim. lia.
Qed.

End RoundTrip.

(** A vector for two components and modes of 2 and 1 rows; a Ktensor
    with weights 7 and 9. *)
Lemma copyFromKtensor_getKtensor_witness :
  exists x',
    copyFromKtensor (mkKokkosVector 2 [2; 1]%nat (map b64_of_Z [0; 0; 0; 0; 0; 0]))
      (mkKtensor (map b64_of_Z [7; 9])
         [map (map b64_of_Z) [[1; 2]; [3; 4]]; map (map b64_of_Z) [[5; 6]]])
    = Some x' /\
    getKtensor x'
    = mkKtensor (replicate 2 (of_Z 1))
        [map (map b64_of_Z) [[1; 2]; [3; 4]]; map (map b64_of_Z) [[5; 6]]] /\
    dimension x' = 6%nat.
Proof.
  apply (copyFromKtensor_getKtensor
           (mkKokkosVector 2 [2; 1]%nat (map b64_of_Z [0; 0; 0; 0; 0; 0]))
           (mkKtensor (map b64_of_Z [7; 9])
              [map (map b64_of_Z) [[1; 2]; [3; 4]];
               map (map b64_of_Z) [[5; 6]]])).
  - reflexivity.
  - repeat constructor.
  - reflexivity.
Defined.

End KokkosVector.

(** ** Moving the nonzeros to their owners
    ([rankInGridThatOwns], [redistributeTensor]) *)

Module Redistribute.
Import TensorBlockSystem Pmap.

(** [MPI_Cart_rank] on a grid without periodic dimensions: the inverse
    of [MPI_Cart_coords], row-major. *)
Fixpoint cart_rank (dims coords : list nat) : nat :=
  match dims, coords with
  | _ :: ds, c :: cs =>
      (c * fold_right Nat.mul 1 ds + cart_rank ds cs)%nat
  | _, _ => 0%nat
  end.

(** The loop filling [GridPos], from mode [i]; [None] where
    [blockInThatDim] does not return. *)
Fixpoint GridPos (fuel : nat) (COO : list Z) (i : nat)
    (ElementRanges : list (list Z)) : option (list nat) :=
  match ElementRanges with
  | [] => Some []
  | range :: rest =>
      match blockInThatDim fuel (COO !!! i) range with
      | Block b => cons b <$> GridPos fuel COO (S i) rest
      | _ => None
      end
  end.

Definition rankInGridThatOwns (fuel : nat) (COO : list Z)
    (pm : ProcessorMap) (ElementRanges : list (list Z)) : option nat :=
  cart_rank (dimension_sizes pm) <$> GridPos fuel COO 0 ElementRanges.

Example owner_in_2x3 :
  rankInGridThatOwns 5 [2; 5] (mkPmap [2; 3]%nat) [[0; 2; 4]; [0; 2; 4; 6]]
  = Some 5%nat.
Proof. reflexivity. Qed.

Lemma cart_rank_coords (dims coords : list nat) :
  Forall2 lt coords dims ->
  (cart_rank dims coords < fold_right Nat.mul 1 dims)%nat /\
  cart_coords dims (cart_rank dims coords) = coords.
Proof.
  induction 1 as [|c d cs ds Hcd Hrest [IHlt IHeq]];
    cbn [cart_rank cart_coords fold_right]; [split; [lia|done]|].
  set (stride := fold_right Nat.mul 1%nat ds) in *.
  set (rest := cart_rank ds cs) in *.
  split; [nia|].
  assert ((c * stride + rest) / stride = c)%nat as ->.
  { rewrite Nat.div_add_l by lia. rewrite Nat.div_small by lia. lia. }
  assert ((c * stride + rest) mod stride = rest)%nat as ->.
  { rewrite Nat.add_comm, Nat.Div0.mod_add. apply Nat.mod_small. lia. }
  by rewrite IHeq.
Qed.

(** The blocks of the coordinates, mode by mode. *)
Lemma GridPos_boundaries (fuel : nat) (COO : list Z) :
  forall (Ms Ps : list Z) (i : nat),
    Forall2 (fun M P => 1 <= P <= M /\ (Z.to_nat P <= fuel)%nat) Ms Ps ->
    (forall j M, Ms !! j = Some M -> 0 <= COO !!! (i + j)%nat < M) ->
    exists pos,
      GridPos fuel COO i
        (zip_with (fun M P => boundaries M P (Z.to_nat P)) Ms Ps) = Some pos /\
      Forall2 lt pos (map Z.to_nat Ps) /\
      forall j M P b,
        Ms !! j = Some M -> Ps !! j = Some P -> pos !! j = Some b ->
        boundary M P b <= COO !!! (i + j)%nat < boundary M P (S b).
Proof.
  intros Ms Ps i HMP. revert i.
  induction HMP as [|M P Ms Ps [HP Hfuel] HMP IH]; intros i HCOO.
  - exists []. split; [done|]. split; [constructor|]. intros. done.
  - cbn [zip_with GridPos].
    pose proof (HCOO 0%nat M eq_refl) as He. rewrite Nat.add_0_r in He.
    destruct (blockInThatDim_boundaries M P (COO !!! i) fuel HP He Hfuel)
      as (b & -> & Hb & Hin).
    destruct (IH (S i)) as (pos & -> & Hlt & Hpos).
    { intros j M' HM'. replace (S i + j)%nat with (i + S j)%nat by lia.
      by apply (HCOO (S j)). }
    exists (b :: pos). split; [done|]. split.
    + cbn [map]. constructor; [lia|done].
    + intros [|j] M' P' b' HM' HP' Hb'; cbn in HM', HP', Hb'.
      * simplify_eq. by rewrite Nat.add_0_r.
      * replace (i + S j)%nat with (S i + j)%nat by lia.
        by apply (Hpos j M' P' b').
Qed.

Lemma generateMediumGrainBlocking_closed_form (fuel : nat) (Ms Ps : list Z) :
  Forall2 (fun M P => 1 <= P <= M /\ M <= INT_MAX /\
                      (Z.to_nat P < fuel)%nat) Ms Ps ->
  generateMediumGrainBlocking fuel Ms Ps
  = map Returned (zip_with (fun M P => boundaries M P (Z.to_nat P)) Ms Ps).
Proof.
  induction 1 as [|M P Ms Ps (HP & HM & Hfuel) _ IH]; [done|].
  cbn [generateMediumGrainBlocking zip_with map].
  by rewrite singleDimMediumGrainBlocking_closed_form, IH.
Qed.

(** The rank that owns an element sits, in every mode, at the grid
    coordinate of the block that holds the element's coordinate. *)
Theorem rankInGridThatOwns_coords (fuel : nat) (COO : list Z)
    (pm : ProcessorMap) (Ms Ps : list Z) :
  Forall2 (fun M P => 1 <= P <= M /\ M <= INT_MAX /\
                      (Z.to_nat P < fuel)%nat) Ms Ps ->
  dimension_sizes pm = map Z.to_nat Ps ->
  (forall j M, Ms !! j = Some M -> 0 <= COO !!! j < M) ->
  exists blocking rank,
    generateMediumGrainBlocking fuel Ms Ps = map Returned blocking /\
    rankInGridThatOwns fuel COO pm blocking = Some rank /\
    (rank < gridSize pm)%nat /\
    forall j M P,
      Ms !! j = Some M -> Ps !! j = Some P ->
      exists b,
        coord pm rank !! j = Some b /\
        boundary M P b <= COO !!! j < boundary M P (S b).
Proof.
  intros HMP Hdims HCOO.
  destruct (GridPos_boundaries fuel COO Ms Ps 0) as (pos & Hpos & Hlt & Hin).
  { eapply Forall2_impl; [exact HMP|]. cbn. intros M P (? & ? & ?).
    split; [done|lia]. }
  { intros j M HM. by apply HCOO. }
  destruct (cart_rank_coords (map Z.to_nat Ps) pos Hlt) as [Hrank Hcoords].
  exists (zip_with (fun M P => boundaries M P (Z.to_nat P)) Ms Ps),
    (cart_rank (map Z.to_nat Ps) pos).
  split; [by apply generateMediumGrainBlocking_closed_form|].
  split; [unfold rankInGridThatOwns; by rewrite Hpos, Hdims|].
  split; [unfold gridSize; by rewrite Hdims|].
  intros j M P HM HP.
  unfold coord. rewrite Hdims, Hcoords.
  destruct (lookup_lt_is_Some_2 pos j) as [b Hb].
  { rewrite (Forall2_length _ _ _ Hlt), length_map.
    by apply lookup_lt_Some in HP. }
  exists b. split; [done|]. by apply (Hin j M P b).
Qed.

Lemma rankInGridThatOwns_coords_witness :
  exists blocking rank,
    generateMediumGrainBlocking 5 [4; 6] [2; 3] = map Returned blocking /\
    rankInGridThatOwns 5 [2; 5] (mkPmap [2; 3]%nat) blocking = Some rank /\
    (rank < gridSize (mkPmap [2; 3]%nat))%nat /\
    forall j M P,
      [4; 6] !! j = Some M -> [2; 3] !! j = Some P ->
      exists b,
        coord (mkPmap [2; 3]%nat) rank !! j = Some b /\
        boundary M P b <= [2; 5] !!! j < boundary M P (S b).
Proof.
  apply (rankInGridThatOwns_coords 5 [2; 5] (mkPmap [2; 3]%nat)
           [4; 6] [2; 3]).
  - repeat constructor; unfold INT_MAX; simpl; lia.
  - reflexivity.
  - intros [|[|j]] M HM; cbn in HM; simplify_eq; cbn; lia.
Defined.

(** *** [redistributeTensor] *)

(** [MPI_Exscan(sendbuf, recvbuf, .., MPI_INT, MPI_SUM, ..)] on rank
    [rank], the ranks passing the rows of [sendbufs]: the sum over the
    ranks before it; rank 0 keeps what its [recvbuf] held. *)
Definition MPI_Exscan_SUM (sendbufs : list (list Z)) (rank : nat)
    (recvbuf : list Z) : list Z :=
  match take rank sendbufs with
  | [] => recvbuf
  | b :: bs => fold_left (zip_with int_add) bs b
  end.

(** [MPI_Reduce_scatter_block(sendbuf, recvbuf, 1, MPI_INT, MPI_SUM, ..)]
    on rank [rank]: entry [rank] of the sum over all ranks. *)
Definition MPI_Reduce_scatter_block_SUM (sendbufs : list (list Z))
    (rank : nat) : Z :=
  match sendbufs with
  | [] => 0
  | b :: bs => fold_left (zip_with int_add) bs b !!! rank
  end.

Section RedistributeTensor.
Context {T : Type}.

(** [elem.coo] of a [TDatatype], the grid, the blocking and
    [sizeof(TDatatype)]. *)
Variable coo : T -> list Z.
Variable pm : ProcessorMap.
Variable blocking : list (list Z).
Variable DataElemSize : Z.
Variable fuel : nat.

(** [Tvec] on every rank of the grid, in rank order. *)
Variable Tvecs : list (list T).

Definition nprocs : nat := gridSize pm.

Definition owner (elem : T) : option nat :=
  rankInGridThatOwns fuel (coo elem) pm blocking.

(** [elems_to_write[elem_owner_rank].push_back(elem)]; [None] where the
    owner is no index of [elems_to_write]. *)
Definition push_elem (elems_to_write : list (list T)) (elem : T)
    : option (list (list T)) :=
  elem_owner_rank ← owner elem;
  if (elem_owner_rank <? length elems_to_write)%nat
  then Some (alter (fun v => v ++ [elem]) elem_owner_rank elems_to_write)
  else None.

Definition elems_to_write (Tvec : list T) : option (list (list T)) :=
  foldl_opt push_elem Tvec (replicate nprocs []).

Definition amount_to_write (elems_to_write : list (list T)) : list Z :=
  map (fun v => int_wrap (Z.of_nat (length v))) elems_to_write.

(** [MPI_Put] of [amount] elements of [origin] at displacement [disp]
    (in elements) of a window; a slot of the window is [None] until it
    is written.  [None] where the byte count does not fit the [int]
    count or the data does not fit the window. *)
Definition MPI_Put (origin : list T) (amount disp : Z)
    (window : list (option T)) : option (list (option T)) :=
  let bytes_to_write := indx_mul DataElemSize (indx_wrap amount) in
  let data := take (Z.to_nat amount) origin in
  if negb (bytes_to_write <=? INT_MAX) then None
  else if (0 <=? disp)
          && (Z.to_nat disp + length data <=? length window)%nat
  then Some (take (Z.to_nat disp) window ++ (Some <$> data)
             ++ drop (Z.to_nat disp + length data) window)
  else None.

(** [redistributedData] on rank [rank]: every rank buckets its elements
    by owner, the collectives give the offsets and the size of the
    window, every rank puts its bucket for [rank] into the window of
    [rank], and the window is copied out.  [None] where a step above has
    no result or a slot of the window was never written. *)
Definition redistributeTensor (rank : nat) : option (list T) :=
  buckets ← mapM elems_to_write Tvecs;
  let amounts := map amount_to_write buckets in
  let amount_to_allocate_for_window :=
    MPI_Reduce_scatter_block_SUM amounts rank in
  window ←
    foldl_opt
      (fun window s =>
         let offset_to_write_at :=
           MPI_Exscan_SUM amounts s (replicate nprocs 0) in
         MPI_Put ((buckets !!! s) !!! rank) ((amounts !!! s) !!! rank)
           (offset_to_write_at !!! rank) window)
      (seq 0 nprocs)
      (replicate (Z.to_nat amount_to_allocate_for_window) None);
  mapM id window.

End RedistributeTensor.

(** Two ranks in a row over a mode of four fibers: each holds one element
    of the other. *)
Example redistribute_swap :
  let pm := mkPmap [2]%nat in
  let Tvecs := [[[3]; [0]]; [[1]; [2]]] in
  redistributeTensor id pm [[0; 2; 4]] 56 5 Tvecs 0 = Some [[0]; [1]] /\
  redistributeTensor id pm [[0; 2; 4]] 56 5 Tvecs 1 = Some [[3]; [2]].
Proof. split; reflexivity. Qed.

Section RedistributeFacts.
Context {T : Type}.
Variable coo : T -> list Z.
Variable pm : ProcessorMap.
Variable blocking : list (list Z).
Variable DataElemSize : Z.
Variable fuel : nat.

(** The elements of [Tvec] that [rank] owns, in the order of [Tvec]. *)
Definition owned (rank : nat) (Tvec : list T) : list T :=
  filter (fun elem => owner coo pm blocking fuel elem = Some rank) Tvec.

(** Every element has an owner in the grid. *)
Definition owners_in_grid (Tvec : list T) : Prop :=
  Forall (fun elem => exists o, owner coo pm blocking fuel elem = Some o /\
                                (o < nprocs pm)%nat) Tvec.

Lemma push_all (Tvec : list T) :
  owners_in_grid Tvec ->
  forall acc, length acc = nprocs pm ->
    foldl_opt (push_elem coo pm blocking fuel) Tvec acc
    = Some (imap (fun i v => v ++ owned i Tvec) acc).
Proof.
  induction 1 as [|e Tvec (o & Ho & Hlt) _ IH]; intros acc Hacc;
    cbn [foldl_opt].
  - f_equal. apply list_eq. intros i. rewrite list_lookup_imap.
    destruct (acc !! i); [|done]. cbn. by rewrite app_nil_r.
  - assert (push_elem coo pm blocking fuel acc e
            = Some (alter (fun v => v ++ [e]) o acc)) as ->.
    { unfold push_elem. rewrite Ho. cbn [mbind option_bind].
      by rewrite (proj2 (Nat.ltb_lt o (length acc))) by lia. }
    cbn [mbind option_bind].
    rewrite IH by (by rewrite length_alter). f_equal.
    apply list_eq. intros i. rewrite !list_lookup_imap.
    destruct (decide (i = o)) as [->|Hne].
    + rewrite list_lookup_alter_eq. destruct (acc !! o); [|done].
      cbn [fmap option_fmap option_map].
      unfold owned. rewrite filter_cons_True by done.
      by rewrite <- app_assoc.
    + rewrite list_lookup_alter_ne by done.
      destruct (acc !! i); [|done]. cbn [fmap option_fmap option_map].
      unfold owned. rewrite filter_cons_False; [done|]. congruence.
Qed.

Definition buckets_of (Tvec : list T) : list (list T) :=
  map (fun i => owned i Tvec) (seq 0 (nprocs pm)).

Lemma elems_to_write_spec (Tvec : list T) :
  owners_in_grid Tvec ->
  elems_to_write coo pm blocking fuel Tvec = Some (buckets_of Tvec).
Proof.
  intros Hown. unfold elems_to_write.
  rewrite push_all by (done || by rewrite length_replicate). f_equal.
  apply list_eq. intros i. unfold buckets_of.
  rewrite list_lookup_imap, list_lookup_fmap.
  destruct (decide (i < nprocs pm)%nat) as [Hi|Hi].
  - by rewrite lookup_replicate_2, lookup_seq_lt by done.
  - rewrite (proj1 (lookup_replicate_None _ _ _)) by lia.
    by rewrite lookup_seq_ge by lia.
Qed.

Lemma buckets_spec (Tvecs : list (list T)) :
  Forall owners_in_grid Tvecs ->
  mapM (elems_to_write coo pm blocking fuel) Tvecs
  = Some (map buckets_of Tvecs).
Proof.
  intros Hown. apply mapM_Some_2. apply Forall2_fmap_r.
  apply Forall_Forall2_diag. eapply Forall_impl; [exact Hown|].
  intros Tvec. apply elems_to_write_spec.
Qed.

(** What the ranks of [Tvecs] hold for [rank], in rank order. *)
Definition delivered (rank : nat) (Tvecs : list (list T)) : list T :=
  concat (map (owned rank) Tvecs).

Lemma delivered_app (rank : nat) (Tvs1 Tvs2 : list (list T)) :
  delivered rank (Tvs1 ++ Tvs2) = delivered rank Tvs1 ++ delivered rank Tvs2.
Proof. unfold delivered. by rewrite map_app, concat_app. Qed.

Lemma length_delivered_le (rank : nat) (Tvecs : list (list T)) :
  (length (delivered rank Tvecs) <= length (concat Tvecs))%nat.
Proof.
  induction Tvecs as [|Tvec Tvecs IH]; [done|].
  unfold delivered in *. cbn [map concat]. rewrite !length_app.
  pose proof (length_filter
    (fun elem => owner coo pm blocking fuel elem = Some rank) Tvec) as Hf.
  fold (owned rank Tvec) in Hf. lia.
Qed.

Lemma length_delivered_take (rank k : nat) (Tvecs : list (list T)) :
  (length (delivered rank (take k Tvecs))
   <= length (delivered rank Tvecs))%nat.
Proof.
  rewrite <- (take_drop k Tvecs) at 2. rewrite delivered_app, length_app. lia.
Qed.

Definition amount_row (Tvec : list T) : list Z :=
  amount_to_write (buckets_of Tvec).

Lemma amount_row_lookup (rank : nat) (Tvec : list T) :
  (rank < nprocs pm)%nat ->
  Z.of_nat (length (owned rank Tvec)) <= INT_MAX ->
  amount_row Tvec !! rank = Some (Z.of_nat (length (owned rank Tvec))).
Proof.
  intros Hrank Hle. unfold amount_row, amount_to_write, buckets_of.
  rewrite !list_lookup_fmap, lookup_seq_lt by done. cbn.
  rewrite int_wrap_small; [done|]. unfold INT_MIN, INT_MAX in *. lia.
Qed.

Lemma length_amount_row (Tvec : list T) :
  length (amount_row Tvec) = nprocs pm.
Proof.
  unfold amount_row, amount_to_write, buckets_of.
  by rewrite !length_map, length_seq.
Qed.

(** The sum of the rows of the ranks, entry [rank]. *)
Lemma sum_rows_lookup (rank : nat) (Tvecs : list (list T)) :
  (rank < nprocs pm)%nat ->
  forall (b : list Z) (x : Z),
    b !! rank = Some x -> 0 <= x ->
    x + Z.of_nat (length (delivered rank Tvecs)) <= INT_MAX ->
    fold_left (zip_with int_add) (map amount_row Tvecs) b !! rank
    = Some (x + Z.of_nat (length (delivered rank Tvecs))).
Proof.
  intros Hrank. induction Tvecs as [|Tvec Tvecs IH]; intros b x Hb Hx Hle.
  - cbn. rewrite Hb. f_equal. lia.
  - cbn [map fold_left].
    change (delivered rank (Tvec :: Tvecs))
      with (owned rank Tvec ++ delivered rank Tvecs) in *.
    rewrite length_app in *.
    rewrite (IH _ (x + Z.of_nat (length (owned rank Tvec)))); [f_equal; lia| |lia|lia].
    rewrite lookup_zip_with, Hb, amount_row_lookup by (done || lia). cbn.
    unfold int_add. rewrite int_wrap_small; [done|].
    unfold INT_MIN, INT_MAX in *. lia.
Qed.

Lemma reduce_scatter_spec (rank : nat) (Tvecs : list (list T)) :
  (rank < nprocs pm)%nat ->
  Z.of_nat (length (concat Tvecs)) <= INT_MAX ->
  MPI_Reduce_scatter_block_SUM (map amount_row Tvecs) rank
  = Z.of_nat (length (delivered rank Tvecs)).
Proof.
  intros Hrank Hle. pose proof (length_delivered_le rank Tvecs) as Hlen.
  destruct Tvecs as [|Tvec Tvecs]; [done|].
  unfold MPI_Reduce_scatter_block_SUM. cbn [map].
  change (delivered rank (Tvec :: Tvecs))
    with (owned rank Tvec ++ delivered rank Tvecs) in *.
  rewrite length_app in *.
  apply list_lookup_total_correct.
  rewrite (sum_rows_lookup rank Tvecs Hrank _
             (Z.of_nat (length (owned rank Tvec)))); [f_equal; lia| |lia|lia].
  apply amount_row_lookup; [done|lia].
Qed.

Lemma exscan_spec (rank s : nat) (Tvecs : list (list T)) :
  (rank < nprocs pm)%nat ->
  Z.of_nat (length (concat Tvecs)) <= INT_MAX ->
  MPI_Exscan_SUM (map amount_row Tvecs) s (replicate (nprocs pm) 0) !!! rank
  = Z.of_nat (length (delivered rank (take s Tvecs))).
Proof.
  intros Hrank Hle. unfold MPI_Exscan_SUM.
  pose proof (length_delivered_le rank Tvecs) as Hlen.
  pose proof (length_delivered_take rank s Tvecs) as Htake.
  rewrite <- fmap_take. destruct (take s Tvecs) as [|Tvec Tvs].
  - cbn. by rewrite lookup_total_replicate_2.
  - cbn [fmap list_fmap].
    change (delivered rank (Tvec :: Tvs))
      with (owned rank Tvec ++ delivered rank Tvs) in *.
    rewrite length_app in *.
    apply list_lookup_total_correct.
    rewrite (sum_rows_lookup rank Tvs Hrank _
               (Z.of_nat (length (owned rank Tvec)))); [f_equal; lia| |lia|lia].
    apply amount_row_lookup; [done|lia].
Qed.

(** The window of [rank] once the ranks before [k] have put their
    bucket. *)
Definition window_after (rank k : nat) (Tvecs : list (list T))
    : list (option T) :=
  (Some <$> delivered rank (take k Tvecs))
  ++ replicate (length (delivered rank Tvecs)
                - length (delivered rank (take k Tvecs))) None.

Lemma MPI_Put_window (rank k : nat) (Tvecs : list (list T)) (Tvec : list T) :
  0 < DataElemSize ->
  Z.of_nat (length (concat Tvecs)) * DataElemSize <= INT_MAX ->
  Tvecs !! k = Some Tvec ->
  MPI_Put DataElemSize (owned rank Tvec)
    (Z.of_nat (length (owned rank Tvec)))
    (Z.of_nat (length (delivered rank (take k Tvecs))))
    (window_after rank k Tvecs)
  = Some (window_after rank (S k) Tvecs).
Proof.
  intros Hsize Hbytes Hk.
  pose proof (length_delivered_le rank Tvecs) as Hlen.
  assert (delivered rank (take (S k) Tvecs)
          = delivered rank (take k Tvecs) ++ owned rank Tvec) as Hstep.
  { rewrite (take_S_r _ _ _ Hk), delivered_app. unfold delivered at 2.
    cbn. by rewrite app_nil_r. }
  pose proof (length_delivered_take rank (S k) Tvecs) as Htake.
  rewrite Hstep, length_app in Htake.
  set (d := length (delivered rank (take k Tvecs))) in *.
  set (len := length (owned rank Tvec)) in *.
  unfold MPI_Put. cbv zeta.
  rewrite Nat2Z.id, take_ge by (fold len; lia). fold len.
  unfold INT_MAX in *.
  assert (DataElemSize * Z.of_nat len
          <= Z.of_nat (length (concat Tvecs)) * DataElemSize) as Hmul.
  { rewrite Z.mul_comm. apply Z.mul_le_mono_nonneg_r; lia. }
  assert (Z.of_nat len <= DataElemSize * Z.of_nat len) as Hone by nia.
  assert (indx_mul DataElemSize (indx_wrap (Z.of_nat len))
          = DataElemSize * Z.of_nat len) as ->.
  { unfold indx_mul. rewrite (indx_wrap_small (Z.of_nat len)) by lia.
    by rewrite indx_wrap_small by lia. }
  destruct (Z.leb_spec (DataElemSize * Z.of_nat len) (2 ^ 31 - 1))
    as [_|?]; [|lia]. cbn [negb].
  destruct (Z.leb_spec 0 (Z.of_nat d)) as [_|?]; [|lia]. cbn [andb].
  assert (length (window_after rank k Tvecs)
          = length (delivered rank Tvecs)) as Hwin.
  { unfold window_after. rewrite length_app, length_fmap, length_replicate.
    fold d. pose proof (length_delivered_take rank k Tvecs). fold d in H. lia. }
  rewrite Hwin.
  destruct (Nat.leb_spec (d + len) (length (delivered rank Tvecs)))
    as [_|?]; [|lia].
  f_equal. unfold window_after. rewrite Hstep, length_app. fold d len.
  rewrite take_app_length' by (by rewrite length_fmap).
  rewrite drop_app_ge by (rewrite length_fmap; fold d; lia).
  rewrite length_fmap. fold d. rewrite drop_replicate.
  rewrite fmap_app, <- app_assoc. do 3 f_equal. lia.
Qed.

Lemma elements_fit (n : nat) :
  0 < DataElemSize -> Z.of_nat n * DataElemSize <= INT_MAX ->
  Z.of_nat n <= INT_MAX.
Proof. unfold INT_MAX. nia. Qed.

Section Window.
Variable Tvecs : list (list T).
Variable rank : nat.
Hypothesis size_pos : 0 < DataElemSize.
Hypothesis bytes_fit :
  Z.of_nat (length (concat Tvecs)) * DataElemSize <= INT_MAX.
Hypothesis one_per_rank : length Tvecs = nprocs pm.
Hypothesis rank_in_grid : (rank < nprocs pm)%nat.


Lemma puts_fill_window (m k : nat) :
  (k + m <= nprocs pm)%nat ->
  foldl_opt
    (fun window s =>
       MPI_Put DataElemSize
         ((map buckets_of Tvecs !!! s) !!! rank)
         ((map amount_to_write (map buckets_of Tvecs) !!! s) !!! rank)
         (MPI_Exscan_SUM (map amount_to_write (map buckets_of Tvecs)) s
            (replicate (nprocs pm) 0) !!! rank)
         window)
    (seq k m) (window_after rank k Tvecs)
  = Some (window_after rank (k + m) Tvecs).
Proof using size_pos bytes_fit one_per_rank rank_in_grid.
  revert k. induction m as [|m IH]; intros k Hk; cbn [seq foldl_opt].
  - by rewrite Nat.add_0_r.
  - destruct (lookup_lt_is_Some_2 Tvecs k) as [Tvec HTvec]; [lia|].
    pose proof (elements_fit _ size_pos bytes_fit) as Hfit.
    assert (Z.of_nat (length (owned rank Tvec)) <= INT_MAX) as Hown.
    { pose proof (length_delivered_le rank Tvecs) as Hle.
      rewrite <- (take_drop_middle _ _ _ HTvec) in Hle at 1.
      rewrite delivered_app in Hle.
      change (delivered rank (Tvec :: drop (S k) Tvecs))
        with (owned rank Tvec ++ delivered rank (drop (S k) Tvecs)) in Hle.
      rewrite !length_app in Hle. lia. }
    rewrite map_map. fold amount_row.
    rewrite (list_lookup_total_correct (map buckets_of Tvecs) k
               (buckets_of Tvec))
      by (by rewrite list_lookup_fmap, HTvec).
    rewrite (list_lookup_total_correct (map amount_row Tvecs) k
               (amount_row Tvec))
      by (by rewrite list_lookup_fmap, HTvec).
    rewrite (list_lookup_total_correct (buckets_of Tvec) rank
               (owned rank Tvec))
      by (unfold buckets_of; by rewrite list_lookup_fmap, lookup_seq_lt).
    rewrite (list_lookup_total_correct (amount_row Tvec) rank _
               (amount_row_lookup rank Tvec rank_in_grid Hown)).
    rewrite exscan_spec by done.
    rewrite MPI_Put_window by done. cbn [mbind option_bind].
    specialize (IH (S k) ltac:(lia)).
    rewrite map_map in IH. fold amount_row in IH.
    rewrite IH. f_equal. f_equal. lia.
Qed.

Lemma redistributeTensor_delivered :
  Forall owners_in_grid Tvecs ->
  redistributeTensor coo pm blocking DataElemSize fuel Tvecs rank
  = Some (delivered rank Tvecs).
Proof using size_pos bytes_fit one_per_rank rank_in_grid.
  intros Hown. unfold redistributeTensor.
  rewrite buckets_spec by done. cbn [mbind option_bind].
  pose proof (puts_fill_window (nprocs pm) 0 ltac:(lia)) as Hputs.
  rewrite map_map. fold amount_row.
  rewrite map_map in Hputs. fold amount_row in Hputs.
  rewrite reduce_scatter_spec
    by (done || apply (elements_fit _ size_pos bytes_fit)).
  rewrite Nat2Z.id.
  assert (window_after rank 0 Tvecs
          = replicate (length (delivered rank Tvecs)) None) as Hw0.
  { unfold window_after. rewrite take_0. cbn. by rewrite Nat.sub_0_r. }
  rewrite Hw0 in Hputs.
  rewrite Hputs. cbn [mbind option_bind Nat.add].
  unfold window_after. rewrite <- one_per_rank, firstn_all, Nat.sub_diag.
  cbn [replicate]. rewrite app_nil_r.
  by apply mapM_fmap_Some.
Qed.

End Window.

(** The buckets of the ranks split a vector. *)
Lemma owned_cons_partition (e : T) (l : list T) (o : nat) :
  owner coo pm blocking fuel e = Some o ->
  forall len start,
    Permutation
      (concat (map (fun r => owned r (e :: l)) (seq start len)))
      ((if decide (start <= o < start + len)%nat then [e] else [])
       ++ concat (map (fun r => owned r l) (seq start len))).
Proof.
  intros Ho. induction len as [|len IH]; intros start.
  - cbn [seq map concat]. by destruct (decide _); [lia|].
  - cbn [seq map concat]. rewrite (IH (S start)). unfold owned at 1.
    destruct (decide (start = o)) as [->|Hne].
    + rewrite filter_cons_True by done. fold (owned o l).
      destruct (decide (S o <= o < S o + len)%nat); [lia|].
      by destruct (decide (o <= o < o + S len)%nat); [|lia].
    + rewrite filter_cons_False by congruence. fold (owned start l).
      destruct (decide (S start <= o < S start + len)%nat);
        destruct (decide (start <= o < start + S len)%nat); try lia; [|done].
      cbn [app]. symmetry. apply Permutation_middle.
Qed.

Lemma owned_partition (l : list T) :
  owners_in_grid l ->
  Permutation (concat (map (fun r => owned r l) (seq 0 (nprocs pm)))) l.
Proof.
  induction 1 as [|e l (o & Ho & Hlt) _ IH].
  - induction (seq 0 (nprocs pm)) as [|r rs IHrs]; [done|]. by cbn.
  - rewrite (owned_cons_partition e l o Ho), IH.
    by destruct (decide (0 <= o < 0 + nprocs pm)%nat); [|lia].
Qed.

Lemma concat_map_app {A} (g h : nat -> list A) (rs : list nat) :
  Permutation (concat (map (fun r => g r ++ h r) rs))
    (concat (map g rs) ++ concat (map h rs)).
Proof.
  induction rs as [|r rs IH]; [done|]. cbn [map concat]. rewrite IH.
  rewrite <- !(assoc_L app). f_equiv. rewrite !(assoc_L app). f_equiv.
  apply Permutation_app_comm.
Qed.

Lemma delivered_partition (Tvecs : list (list T)) :
  Forall owners_in_grid Tvecs ->
  Permutation
    (concat (map (fun r => delivered r Tvecs) (seq 0 (nprocs pm))))
    (concat Tvecs).
Proof.
  induction 1 as [|Tvec Tvecs Hown _ IH].
  - induction (seq 0 (nprocs pm)) as [|r rs IHrs]; [done|]. by cbn.
  - change (fun r => delivered r (Tvec :: Tvecs))
      with (fun r => owned r Tvec ++ delivered r Tvecs).
    rewrite concat_map_app, IH, owned_partition by done. done.
Qed.

(** Where every element has an owner in the grid and the byte counts
    fit, [redistributeTensor] leaves on every rank the elements that rank
    owns, the buckets of the sending ranks in rank order and each in the
    sender's order; together the ranks hold the elements they started
    with, none lost and none twice. *)
Theorem redistributeTensor_delivers (Tvecs : list (list T)) :
  0 < DataElemSize ->
  Z.of_nat (length (concat Tvecs)) * DataElemSize <= INT_MAX ->
  length Tvecs = nprocs pm ->
  Forall owners_in_grid Tvecs ->
  exists out,
    length out = nprocs pm /\
    (forall rank data,
       out !! rank = Some data ->
       redistributeTensor coo pm blocking DataElemSize fuel Tvecs rank
       = Some data /\
       data = delivered rank Tvecs) /\
    Permutation (concat out) (concat Tvecs).
Proof.
  intros Hsize Hbytes Hlen Hown.
  exists (map (fun r => delivered r Tvecs) (seq 0 (nprocs pm))).
  split; [by rewrite length_map, length_seq|].
  split; [|by apply delivered_partition].
  intros rank data Hdata. rewrite list_lookup_fmap in Hdata.
  destruct (seq 0 (nprocs pm) !! rank) as [r|] eqn:Hr; [|done].
  apply lookup_seq in Hr as [-> Hr]. cbn in Hdata. injection Hdata as <-.
  split; [|done]. by apply redistributeTensor_delivered.
Qed.

End RedistributeFacts.

Lemma redistributeTensor_delivers_witness :
  exists out,
    length out = nprocs (mkPmap [2]%nat) /\
    (forall rank data,
       out !! rank = Some data ->
       redistributeTensor id (mkPmap [2]%nat) [[0; 2; 4]] 56 5
         [[[3]; [0]]; [[1]; [2]]] rank = Some data /\
       data = delivered id (mkPmap [2]%nat) [[0; 2; 4]] 5 rank
                [[[3]; [0]]; [[1]; [2]]]) /\
    Permutation (concat out) (concat [[[3]; [0]]; [[1]; [2]]]).
Proof.
  apply (redistributeTensor_delivers id (mkPmap [2]%nat) [[0; 2; 4]] 56 5
           [[[3]; [0]]; [[1]; [2]]]).
  - lia.
  - unfold INT_MAX. simpl. lia.
  - reflexivity.
  - repeat constructor; eexists; (split; [reflexivity|cbn; lia]).
Defined.

End Redistribute.

(** ** The parameters of a distributed run ([DistGCP::setAlgParams]) *)

Module SetAlgParams.

(** The keys of the [gcp] input read here; [None] is a missing key. *)
Record Input : Type := mkInput {
  max_epochs : option Z;
  batch_size_nz : option Z;
  batch_size_zero : option Z;
  value_size_nz : option Z;
  value_size_zero : option Z;
  epoch_size : option Z
}.

(** [pmap().gridAllReduce(x)] on [ttb_indx]: the sum over the grid. *)
Definition gridAllReduce_indx (xs : list Z) : Z := fold_left indx_add xs 0.

Section SetAlgParams.
Context {E : Type}.
Variable MTTKRP_Method_names : MTTKRP_Method.type -> string.
Variable MTTKRP_All_Method_names : MTTKRP_All_Method.type -> string.
Variable space_prop : SpaceProperties.

(** A default-constructed [AlgParams]. *)
Variable defaults : AlgParams E.

Variable input_ : Input.

(** [spTensor_.nprocs()], [spTensor_.globalNNZ()] and, for every rank of
    the grid, [spTensor_.localNNZ()] and [localNumel() - lnz]. *)
Variable np : Z.
Variable gnz : Z.
Variable lnzs : list Z.
Variable lzs : list Z.

Definition global_batch_size_nz_in : Z := default 128 (batch_size_nz input_).
Definition global_batch_size_z : Z :=
  default global_batch_size_nz_in (batch_size_zero input_).
Definition global_value_size_nz : Z := default 100000 (value_size_nz input_).
Definition global_value_size_z : Z :=
  default global_value_size_nz (value_size_zero input_).

(** [std::min(lnz, global_batch_size_nz / np)], stored in a [ttb_indx]. *)
Definition local_num_samples_nonzeros_grad (lnz : Z) : Z :=
  indx_wrap (Z.min lnz (Z.quot global_batch_size_nz_in np)).

(** "Reset the global_batch_size_nz to the value that we will actually
    use": the sum over the grid, stored in an [int]. *)
Definition global_batch_size_nz : Z :=
  int_wrap (gridAllReduce_indx (map local_num_samples_nonzeros_grad lnzs)).

(** The parameters rank [my_rank] returns; what rank 0 prints after [fixup]
    is left out.  [None] is a division by zero.  The minimum with [lz] is
    taken in the type of [localNumel()]; for numbers that are not
    negative it is the minimum of the integers. *)
Definition setAlgParams (my_rank : nat)
    : option (AlgParams E * list string) :=
  if np =? 0 then None
  else
    let lnz := lnzs !!! my_rank in
    let lz := lzs !!! my_rank in
    let maxiters := indx_wrap (default 1000 (max_epochs input_)) in
    let num_samples_nonzeros_grad := local_num_samples_nonzeros_grad lnz in
    let num_samples_zeros_grad :=
      indx_wrap (Z.min lz (Z.quot global_batch_size_z np)) in
    let num_samples_nonzeros_value :=
      indx_wrap (Z.min lnz (Z.quot global_value_size_nz np)) in
    let num_samples_zeros_value :=
      indx_wrap (Z.min lz (Z.quot global_value_size_z np)) in
    let mttkrp_all_method :=
      if 1 <? concurrency space_prop then MTTKRP_All_Method.Atomic
      else MTTKRP_All_Method.Single in
    epoch_iters ←
      match epoch_size input_ with
      | Some epoch_size => Some (indx_wrap epoch_size)
      | None =>
          if global_batch_size_nz =? 0 then None
          else Some (indx_wrap (Z.quot gnz global_batch_size_nz))
      end;
    let algParams :=
      mkAlgParams (method defaults) (rank defaults) maxiters
        MTTKRP_Method.Default mttkrp_all_method GCP_Sampling.SemiStratified
        epoch_iters num_samples_nonzeros_value num_samples_zeros_value
        num_samples_nonzeros_grad num_samples_zeros_grad
        (w_f_nz defaults) (w_f_z defaults) (w_g_nz defaults) (w_g_z defaults)
        (hash defaults) true in
    Some (fixup MTTKRP_Method_names MTTKRP_All_Method_names space_prop
            algParams []).

End SetAlgParams.

(** The sample counts and the epoch length. *)
Definition counts {E} (p : AlgParams E) : Z * Z * Z * Z * Z * Z :=
  (maxiters p, epoch_iters p, num_samples_nonzeros_value p,
   num_samples_zeros_value p, num_samples_nonzeros_grad p,
   num_samples_zeros_grad p).

Section FixupCounts.
Context {E : Type}.
Variable MTTKRP_Method_names : MTTKRP_Method.type -> string.
Variable MTTKRP_All_Method_names : MTTKRP_All_Method.type -> string.
Variable space_prop : SpaceProperties.

Lemma counts_fixup_default_mttkrp (p : AlgParams E) :
  counts (fixup_default_mttkrp space_prop p) = counts p.
Proof. unfold fixup_default_mttkrp. by repeat case_match. Qed.

Lemma counts_fixup_default_mttkrp_all (p : AlgParams E) :
  counts (fixup_default_mttkrp_all space_prop p) = counts p.
Proof. unfold fixup_default_mttkrp_all. by repeat case_match. Qed.

Lemma counts_fixup_cuda_mttkrp (p : AlgParams E) (out : list string) :
  counts (fst (fixup_cuda_mttkrp MTTKRP_Method_names space_prop p out))
  = counts p.
Proof. unfold fixup_cuda_mttkrp. by repeat case_match. Qed.

Lemma counts_fixup_cuda_mttkrp_all (p : AlgParams E) (out : list string) :
  counts (fst (fixup_cuda_mttkrp_all MTTKRP_All_Method_names space_prop p out))
  = counts p.
Proof. unfold fixup_cuda_mttkrp_all. by repeat case_match. Qed.

Lemma counts_fixup_cuda_fused (p : AlgParams E) (out : list string) :
  counts (fst (fixup_cuda_fused p out)) = counts p.
Proof. unfold fixup_cuda_fused. by repeat case_match. Qed.

(** [fixup] leaves the sample counts and the epoch length alone. *)
Lemma counts_fixup (p : AlgParams E) (out : list string) :
  counts (fst (fixup MTTKRP_Method_names MTTKRP_All_Method_names space_prop
                 p out))
  = counts p.
Proof.
  unfold fixup.
  pose proof (counts_fixup_default_mttkrp p) as H1.
  set (p1 := fixup_default_mttkrp space_prop p) in *.
  pose proof (counts_fixup_default_mttkrp_all p1) as H2.
  set (p2 := fixup_default_mttkrp_all space_prop p1) in *.
  destruct (is_cuda space_prop); [|cbn [fst]; congruence].
  pose proof (counts_fixup_cuda_mttkrp p2 out) as H3.
  destruct (fixup_cuda_mttkrp _ _ p2 out) as [p3 out3]. cbn [fst] in H3.
  pose proof (counts_fixup_cuda_mttkrp_all p3 out3) as H4.
  destruct (fixup_cuda_mttkrp_all _ _ p3 out3) as [p4 out4]. cbn [fst] in H4.
  pose proof (counts_fixup_cuda_fused p4 out4) as H5. congruence.
Qed.

End FixupCounts.

(** The sum of a list of integers. *)
Definition total (xs : list Z) : Z := fold_right Z.add 0 xs.

Lemma total_nonneg (xs : list Z) : Forall (fun x => 0 <= x) xs -> 0 <= total xs.
Proof. induction 1 as [|x xs Hx _ IH]; cbn; [lia|]. unfold total in IH. lia. Qed.

Lemma fold_indx_add_total (xs : list Z) :
  Forall (fun x => 0 <= x) xs ->
  forall acc, 0 <= acc -> acc + total xs < 2 ^ 64 ->
    fold_left indx_add xs acc = acc + total xs.
Proof.
  induction 1 as [|x xs Hx Hxs IH]; intros acc Hacc Hfit; cbn [fold_left].
  - cbn. lia.
  - pose proof (total_nonneg xs Hxs) as Hnn.
    change (total (x :: xs)) with (x + total xs) in *.
    unfold indx_add at 2. rewrite indx_wrap_small by lia.
    rewrite IH; lia.
Qed.

Lemma gridAllReduce_indx_total (xs : list Z) :
  Forall (fun x => 0 <= x) xs -> total xs < 2 ^ 64 ->
  gridAllReduce_indx xs = total xs.
Proof.
  intros Hpos Hfit. unfold gridAllReduce_indx.
  rewrite fold_indx_add_total; [lia|done|lia|lia].
Qed.

(** Every rank takes at most the share [q] of the batch. *)
Lemma total_min_share (q : Z) (lnzs : list Z) :
  0 <= q -> Forall (fun l => 0 <= l) lnzs ->
  Forall (fun x => 0 <= x) (map (fun l => Z.min l q) lnzs) /\
  total (map (fun l => Z.min l q) lnzs) <= Z.of_nat (length lnzs) * q /\
  total (map (fun l => Z.min l q) lnzs) <= total lnzs.
Proof.
  intros Hq. induction 1 as [|l lnzs Hl _ (IH1 & IH2 & IH3)].
  - cbn. split; [constructor|lia].
  - cbn [map length]. change (total (?x :: ?xs)) with (x + total xs).
    split; [constructor; [lia|done]|]. split; [|lia].
    rewrite Nat2Z.inj_succ. lia.
Qed.

Section SetAlgParamsFacts.
Context {E : Type}.
Variable MTTKRP_Method_names : MTTKRP_Method.type -> string.
Variable MTTKRP_All_Method_names : MTTKRP_All_Method.type -> string.
Variable space_prop : SpaceProperties.
Variable defaults : AlgParams E.
Variable input_ : Input.
Variable gnz : Z.
Variable lnzs lzs : list Z.

(** Without an [epoch_size], on a grid of [np >= 1] ranks: the batch the
    run uses is the sum [G] of the ranks' [min(lnz, B/np)], where [B] is
    the [batch_size_nz] asked for; it is at most [B] and at most the
    number of local nonzeros together, and 0 as soon as [B < np].  With
    [G = 0] the epoch length is a division by zero on every rank;
    otherwise the rank samples [min(lnz, B/np)] nonzeros per step and an
    epoch of [gnz / G] steps takes at most [gnz] of them. *)
Theorem setAlgParams_batches (my_rank : nat) :
  let np := Z.of_nat (length lnzs) in
  let B := global_batch_size_nz_in input_ in
  let G := total (map (fun l => Z.min l (B / np)) lnzs) in
  1 <= np -> Forall (fun l => 0 <= l) lnzs ->
  0 <= B <= INT_MAX -> 0 <= gnz < 2 ^ 64 ->
  epoch_size input_ = None -> (my_rank < length lnzs)%nat ->
  global_batch_size_nz input_ np lnzs = G /\
  0 <= G <= B /\ G <= total lnzs /\ (B < np -> G = 0) /\
  (G = 0 ->
   setAlgParams MTTKRP_Method_names MTTKRP_All_Method_names space_prop
     defaults input_ np gnz lnzs lzs my_rank = None) /\
  (0 < G ->
   exists p out,
     setAlgParams MTTKRP_Method_names MTTKRP_All_Method_names space_prop
       defaults input_ np gnz lnzs lzs my_rank = Some (p, out) /\
     num_samples_nonzeros_grad p = Z.min (lnzs !!! my_rank) (B / np) /\
     epoch_iters p = gnz / G /\
     epoch_iters p * G <= gnz /\
     sampling_type p = GCP_Sampling.SemiStratified /\ fuse p = true).
Proof.
  intros np B G Hnp Hlnz HB Hgnz Hep Hrank.
  assert (0 <= B / np) as Hq by (apply Z.div_pos; lia).
  destruct (total_min_share (B / np) lnzs Hq Hlnz) as (Hpos & Hshare & Hle).
  fold G in Hshare, Hle. fold np in Hshare.
  pose proof (total_nonneg _ Hpos) as HG0. fold G in HG0.
  assert (np * (B / np) <= B) as Hmul by (apply Z.mul_div_le; lia).
  assert (B / np <= B) as HqB by nia.
  assert (2 ^ 31 < 2 ^ 64) as Hpow by reflexivity.
  unfold INT_MAX in HB.
  assert (map (local_num_samples_nonzeros_grad input_ np) lnzs
          = map (fun l => Z.min l (B / np)) lnzs) as Hlocal.
  { apply map_ext_in. intros l Hl.
    unfold local_num_samples_nonzeros_grad. fold B.
    rewrite Z.quot_div_nonneg by lia.
    apply indx_wrap_small.
    apply list_elem_of_In in Hl.
    pose proof (proj1 (Forall_forall _ _) Hlnz l Hl) as Hl0. cbn in Hl0.
    lia. }
  assert (global_batch_size_nz input_ np lnzs = G) as HG.
  { unfold global_batch_size_nz. rewrite Hlocal.
    rewrite gridAllReduce_indx_total by (done || fold G; lia). fold G.
    apply int_wrap_small. unfold INT_MIN, INT_MAX. lia. }
  split; [done|]. split; [lia|]. split; [done|]. split.
  { intros Hlt. rewrite Z.div_small in Hshare by lia. lia. }
  unfold setAlgParams.
  destruct (Z.eqb_spec np 0) as [?|_]; [lia|].
  rewrite Hep, HG. split.
  - intros ->. reflexivity.
  - intros HGpos.
    destruct (Z.eqb_spec G 0) as [?|_]; [lia|].
    cbn [mbind option_bind].
    set (p0 := mkAlgParams _ _ _ _ _ _ _ _ _ _ _ _ _ _ _ _ _).
    pose proof (counts_fixup MTTKRP_Method_names MTTKRP_All_Method_names
                  space_prop p0 []) as Hcounts.
    destruct (fixup_keeps_solver MTTKRP_Method_names MTTKRP_All_Method_names
                space_prop p0 []) as (_ & Hsampling & Hfuse).
    destruct (fixup _ _ _ p0 []) as [p out]. cbn [fst] in *.
    exists p, out. split; [done|].
    unfold counts in Hcounts. injection Hcounts as _ Hepoch _ _ Hgrad _.
    assert (0 <= gnz / G) by (apply Z.div_pos; lia).
    assert (gnz / G <= gnz) by (apply Z.div_le_upper_bound; nia).
    assert (epoch_iters p = gnz / G) as Hiters.
    { rewrite Hepoch. unfold p0. cbn [epoch_iters].
      rewrite Z.quot_div_nonneg by lia. apply indx_wrap_small. lia. }
    split.
    { rewrite Hgrad. unfold p0. cbn [num_samples_nonzeros_grad].
      unfold local_num_samples_nonzeros_grad. fold B.
      rewrite Z.quot_div_nonneg by lia. apply indx_wrap_small.
      destruct (lookup_lt_is_Some_2 lnzs my_rank Hrank) as [l Hl].
      rewrite (list_lookup_total_correct _ _ _ Hl).
      pose proof (Forall_lookup_1 _ _ _ _ Hlnz Hl). cbn in H1. lia. }
    split; [done|]. split.
    { rewrite Hiters, Z.mul_comm. apply Z.mul_div_le. lia. }
    split; [by rewrite Hsampling|by rewrite Hfuse].
Qed.

End SetAlgParamsFacts.

(** Two ranks with 100 and 30 local nonzeros, a batch of 128. *)
Definition example_input : Input :=
  mkInput None (Some 128) None None None None.

Lemma setAlgParams_batches_witness :
  global_batch_size_nz example_input 2 [100; 30] = 94 /\
  0 <= 94 <= 128 /\ 94 <= 130 /\ (128 < 2 -> 94 = 0) /\
  (94 = 0 ->
   setAlgParams (fun _ => EmptyString) (fun _ => EmptyString) example_serial
     SemiStratified.example_unspecified example_input 2 130 [100; 30]
     [900; 970] 1 = None) /\
  (0 < 94 ->
   exists p out,
     setAlgParams (fun _ => EmptyString) (fun _ => EmptyString) example_serial
       SemiStratified.example_unspecified example_input 2 130 [100; 30]
       [900; 970] 1 = Some (p, out) /\
     num_samples_nonzeros_grad p = 30 /\
     epoch_iters p = 1 /\
     epoch_iters p * 94 <= 130 /\
     sampling_type p = GCP_Sampling.SemiStratified /\ fuse p = true).
Proof.
  apply (setAlgParams_batches (fun _ => EmptyString) (fun _ => EmptyString)
           example_serial SemiStratified.example_unspecified example_input
           130 [100; 30] [900; 970] 1).
  - cbn. lia.
  - repeat constructor; lia.
  - unfold INT_MAX. cbn. lia.
  - lia.
  - reflexivity.
  - cbn. lia.
Defined.

End SetAlgParams.

(** ** The uniform sampler (Genten_GCP_UniformSampler.hpp) *)

Module UniformSampler.

(** The sample counts and weights the constructor settles. *)
Record Sampler (E : Type) : Type := mkSampler {
  X : SptensorT E;
  algParams : AlgParams E;
  s_num_samples_nonzeros_value : Z;
  s_num_samples_zeros_value : Z;
  s_num_samples_grad : Z;
  weight_nonzeros_value : E;
  weight_zeros_value : E;
  weight_grad : E
}.
Arguments mkSampler {E}.
Arguments X {E}.
Arguments algParams {E}.
Arguments s_num_samples_nonzeros_value {E}.
Arguments s_num_samples_zeros_value {E}.
Arguments s_num_samples_grad {E}.
Arguments weight_nonzeros_value {E}.
Arguments weight_zeros_value {E}.
Arguments weight_grad {E}.

Section Constructor.
Context {E : Type} `{Real E}.
(** [IndxArray::prod_float], as for the semi-stratified sampler. *)
Variable prod_float : list Z -> E.

(** The constructor.  Its one division by [maxEpochs] is a division of
    [ttb_real]s. *)
Definition UniformSampler (X_ : SptensorT E) (algParams_ : AlgParams E)
    : Sampler E :=
  let nnz := nnz X_ in
  let tsz := SemiStratified.numel_float prod_float X_ in
  let nz := rsub tsz (of_Z nnz) in
  let maxEpochs := maxiters algParams_ in
  let ftmp := SemiStratified.ftmp nnz in
  let num_samples_nonzeros_value :=
    if num_samples_nonzeros_value algParams_ =? 0 then Z.min ftmp nnz
    else num_samples_nonzeros_value algParams_ in
  let num_samples_zeros_value :=
    if num_samples_zeros_value algParams_ =? 0
    then to_indx (rmin (of_Z num_samples_nonzeros_value) nz)
    else num_samples_zeros_value algParams_ in
  let num_samples_grad :=
    if num_samples_nonzeros_grad algParams_ =? 0
    then to_indx
           (rmin (rmax (rdiv (rmul (of_Z 10) tsz) (of_Z maxEpochs))
                    (of_Z 1000))
              tsz)
    else num_samples_nonzeros_grad algParams_ in
  let weight_nonzeros_value :=
    if rltb (w_f_nz algParams_) (of_Z 0)
    then rdiv (of_Z nnz) (of_Z num_samples_nonzeros_value)
    else w_f_nz algParams_ in
  let weight_zeros_value :=
    if rltb (w_f_z algParams_) (of_Z 0)
    then rdiv (rsub tsz (of_Z nnz)) (of_Z num_samples_zeros_value)
    else w_f_z algParams_ in
  let weight_grad :=
    if rltb (w_g_nz algParams_) (of_Z 0)
    then rdiv tsz (of_Z num_samples_grad)
    else w_g_nz algParams_ in
  mkSampler X_ algParams_
    num_samples_nonzeros_value num_samples_zeros_value num_samples_grad
    weight_nonzeros_value weight_zeros_value weight_grad.

End Constructor.

(** A 10 x 10 x 10 tensor with 500 nonzeros, 50 epochs, everything left
    to the constructor: 10 * 1000 / 50 = 200 is below 1000. *)
Example uniform_defaults_scenario :
  UniformSampler SemiStratified.example_prod_float
    SemiStratified.example_tensor SemiStratified.example_unspecified
  = mkSampler SemiStratified.example_tensor SemiStratified.example_unspecified
      500 500 1000 (b64_of_Z 1) (b64_of_Z 1) (b64_of_Z 1).
Proof. vm_compute. reflexivity. Qed.

(** On a tensor without nonzeros, with the counts and weights of the value
    samples left to the constructor: both counts are 0,
    [weight_nonzeros_value] is [0/0], a NaN, and [weight_zeros_value] is
    [tsz/0], plus infinity. *)
Theorem uniform_sampler_no_nonzeros (prod_float : list Z -> binary64)
    (X_ : SptensorT binary64) (p : AlgParams binary64) (N : Z) :
  nnz X_ = 0 -> 1 <= N < 2 ^ 53 ->
  SemiStratified.numel_float prod_float X_ = of_Z N ->
  num_samples_nonzeros_value p = 0 -> num_samples_zeros_value p = 0 ->
  rltb (w_f_nz p) (of_Z 0) = true -> rltb (w_f_z p) (of_Z 0) = true ->
  let s := UniformSampler prod_float X_ p in
  s_num_samples_nonzeros_value s = 0 /\
  s_num_samples_zeros_value s = 0 /\
  weight_nonzeros_value s = S754_nan /\
  weight_zeros_value s = S754_infinity false.
Proof.
  intros Hnnz HN Htsz Hv Hz Hwv Hwz s. subst s. unfold UniformSampler.
  cbn [s_num_samples_nonzeros_value s_num_samples_zeros_value
       weight_nonzeros_value weight_zeros_value].
  rewrite Hnnz, Htsz, Hv, Hz, Hwv, Hwz. cbn [Z.eqb].
  assert (Z.min (SemiStratified.ftmp 0) 0 = 0) as ->
    by (unfold SemiStratified.ftmp; lia).
  rewrite (to_indx_rmin_of_Z 0 0 N) by lia.
  rewrite Z.min_l by lia.
  split; [done|]. split; [done|]. split; [done|].
  rewrite rsub_of_Z by lia. rewrite Z.sub_0_r.
  destruct N as [|n|n]; [lia| |lia].
  change (of_Z (Z.pos n) : binary64) with (b64_of_Z (Z.pos n)).
  by rewrite B64.b64_of_pos by lia.
Qed.

(** A 2 x 2 tensor without nonzeros. *)
Definition example_empty : SptensorT binary64 := mkSptensor [2; 2] [] [] true.

Lemma uniform_sampler_no_nonzeros_witness :
  s_num_samples_nonzeros_value
    (UniformSampler SemiStratified.example_prod_float example_empty
       SemiStratified.example_unspecified) = 0 /\
  s_num_samples_zeros_value
    (UniformSampler SemiStratified.example_prod_float example_empty
       SemiStratified.example_unspecified) = 0 /\
  weight_nonzeros_value
    (UniformSampler SemiStratified.example_prod_float example_empty
       SemiStratified.example_unspecified) = S754_nan /\
  weight_zeros_value
    (UniformSampler SemiStratified.example_prod_float example_empty
       SemiStratified.example_unspecified) = S754_infinity false.
Proof.
  apply (uniform_sampler_no_nonzeros SemiStratified.example_prod_float
           example_empty SemiStratified.example_unspecified 4);
    try reflexivity; lia.
Defined.

End UniformSampler.

(** ** A dense tensor from a sparse one (Genten_Tensor.cpp) *)

Module DenseTensor.

Section CopyFromSptensor.
Context {E : Type} `{Real E}.

(** [x.sub2ind(sub)], the position of the entry at subscripts [sub]. *)
Variable sub2ind : list Z -> nat.

(** [Impl::copyFromSptensor]: [x[k] = src.value(i)] for the nonzeros [i],
    here one after the other; [None] where a read or the write leaves an
    array. *)
Definition copyFromSptensor (x : list E) (src : SptensorT E)
    : option (list E) :=
  foldl_opt
    (fun x i =>
       sub ← subs src !! i;
       val ← values src !! i;
       let k := sub2ind sub in
       if (k <? length x)%nat then Some (<[k := val]> x) else None)
    (seq 0 (Z.to_nat (nnz src))) x.

(** [TensorT(src)]: [prod] entries, all 0, then the copy. *)
Definition TensorT_of_Sptensor (prod : nat) (src : SptensorT E)
    : option (list E) :=
  copyFromSptensor (replicate prod (of_Z 0)) src.

End CopyFromSptensor.

Lemma foldl_opt_snoc {A B} (f : B -> A -> option B) (l : list A) (a : A)
    (b : B) :
  foldl_opt f (l ++ [a]) b = (b' ← foldl_opt f l b; f b' a).
Proof.
  revert b. induction l as [|a' l IH]; intros b; cbn [app foldl_opt].
  - cbn. by destruct (f b a).
  - destruct (f b a') as [b'|]; [|done]. cbn. apply IH.
Qed.

Section CopyFromSptensorFacts.
Context {E : Type} `{Real E}.
Variable sub2ind : list Z -> nat.
Variable x : list E.
Variable src : SptensorT E.
Hypothesis same_length : length (subs src) = length (values src).
Hypothesis in_tensor :
  forall i sub, subs src !! i = Some sub -> (sub2ind sub < length x)%nat.
Hypothesis no_duplicates :
  forall i j sub_i sub_j,
    subs src !! i = Some sub_i -> subs src !! j = Some sub_j ->
    sub2ind sub_i = sub2ind sub_j -> i = j.

(** The loop after the nonzeros below [m]. *)
Lemma copy_prefix (m : nat) :
  (m <= length (values src))%nat ->
  exists x',
    foldl_opt
      (fun x i =>
         sub ← subs src !! i;
         val ← values src !! i;
         let k := sub2ind sub in
         if (k <? length x)%nat then Some (<[k := val]> x) else None)
      (seq 0 m) x = Some x' /\
    length x' = length x /\
    (forall i sub val,
       (i < m)%nat -> subs src !! i = Some sub -> values src !! i = Some val ->
       x' !! sub2ind sub = Some val) /\
    (forall k,
       (forall i sub, (i < m)%nat -> subs src !! i = Some sub ->
                      sub2ind sub <> k) ->
       x' !! k = x !! k).
Proof using same_length in_tensor no_duplicates.
  induction m as [|m IH]; intros Hm.
  - exists x. split; [done|]. split; [done|]. split; [intros; lia|done].
  - destruct IH as (x' & Hfold & Hlen & Hset & Hkeep); [lia|].
    rewrite seq_S, foldl_opt_snoc, Hfold. cbn [mbind option_bind Nat.add].
    destruct (lookup_lt_is_Some_2 (subs src) m) as [sub Hsub]; [lia|].
    destruct (lookup_lt_is_Some_2 (values src) m) as [val Hval]; [lia|].
    rewrite Hsub, Hval. cbn [mbind option_bind].
    pose proof (in_tensor m sub Hsub) as Hk.
    rewrite (proj2 (Nat.ltb_lt _ _)) by lia.
    eexists. split; [reflexivity|]. split; [by rewrite length_insert|]. split.
    + intros i sub' val' Hi Hsub' Hval'.
      destruct (decide (i = m)) as [->|Hne].
      * rewrite Hsub in Hsub'. rewrite Hval in Hval'.
        injection Hsub' as <-. injection Hval' as <-.
        apply list_lookup_insert_eq. lia.
      * rewrite list_lookup_insert_ne.
        -- apply (Hset i); [lia|done|done].
        -- intros Heq. apply Hne. symmetry.
           by apply (no_duplicates m i sub sub').
    + intros k Hk'. rewrite list_lookup_insert_ne.
      * apply Hkeep. intros i sub' Hi. apply Hk'. lia.
      * apply (Hk' m sub); [lia|done].
Qed.

End CopyFromSptensorFacts.

(** Where the subscripts of the sparse tensor are pairwise at different
    positions of the dense tensor, and inside it, [copyFromSptensor] puts
    every nonzero at its position and leaves the other entries as they
    were (0 after the constructor). *)
Theorem copyFromSptensor_scatters {E : Type} `{Real E}
    (sub2ind : list Z -> nat) (x : list E) (src : SptensorT E) :
  length (subs src) = length (values src) ->
  (forall i sub, subs src !! i = Some sub -> (sub2ind sub < length x)%nat) ->
  (forall i j sub_i sub_j,
     subs src !! i = Some sub_i -> subs src !! j = Some sub_j ->
     sub2ind sub_i = sub2ind sub_j -> i = j) ->
  exists x',
    copyFromSptensor sub2ind x src = Some x' /\
    length x' = length x /\
    (forall i sub val,
       subs src !! i = Some sub -> values src !! i = Some val ->
       x' !! sub2ind sub = Some val) /\
    (forall k,
       (forall i sub, subs src !! i = Some sub -> sub2ind sub <> k) ->
       x' !! k = x !! k).
Proof.
  intros Hlen Hin Hdup.
  destruct (copy_prefix sub2ind x src Hlen Hin Hdup (length (values src)))
    as (x' & Hfold & Hlen' & Hset & Hkeep); [lia|].
  exists x'. unfold copyFromSptensor, nnz. rewrite Nat2Z.id.
  split; [done|]. split; [done|]. split.
  - intros i sub val Hsub Hval. apply (Hset i); [|done|done].
    by apply lookup_lt_Some in Hval.
  - intros k Hk. apply Hkeep. intros i sub _. apply Hk.
Qed.

(** Row-major positions in a 2 x 2 tensor. *)
Definition example_sub2ind (sub : list Z) : nat :=
  Z.to_nat (2 * (sub !!! 0%nat) + sub !!! 1%nat).

Definition example_two : SptensorT binary64 :=
  mkSptensor [2; 2] [[0; 1]; [1; 0]] [b64_of_Z 5; b64_of_Z 7] true.

Lemma copyFromSptensor_scatters_witness :
  exists x',
    copyFromSptensor example_sub2ind (replicate 4 (b64_of_Z 0)) example_two
    = Some x' /\
    length x' = length (replicate 4 (b64_of_Z 0)) /\
    (forall i sub val,
       subs example_two !! i = Some sub ->
       values example_two !! i = Some val ->
       x' !! example_sub2ind sub = Some val) /\
    (forall k,
       (forall i sub, subs example_two !! i = Some sub ->
                      example_sub2ind sub <> k) ->
       x' !! k = replicate 4 (b64_of_Z 0) !! k).
Proof.
  apply (copyFromSptensor_scatters example_sub2ind
           (replicate 4 (b64_of_Z 0)) example_two).
  - reflexivity.
  - intros [|[|i]] sub Hsub; cbn in Hsub; [| |done];
      injection Hsub as <-; vm_compute; lia.
  - intros [|[|i]] [|[|j]] sub_i sub_j Hi Hj; cbn in Hi, Hj; try done;
      injection Hi as <-; injection Hj as <-; vm_compute; intros; lia.
Defined.

(** A subscript listed twice keeps the value listed last; the values are
    not added up. *)
Example copyFromSptensor_duplicate :
  copyFromSptensor example_sub2ind (replicate 4 (b64_of_Z 0))
    (mkSptensor [2; 2] [[0; 1]; [0; 1]] [b64_of_Z 5; b64_of_Z 7] true)
  = Some [b64_of_Z 0; b64_of_Z 7; b64_of_Z 0; b64_of_Z 0].
Proof. reflexivity. Qed.

End DenseTensor.
